(** * dali::ThreadPool (dali/pipeline/util/thread_pool.h)

    A shallow embedding of the fixed-size worker pool as a transition
    system.  Every lock-protected critical section of the class, and every
    stretch a thread runs without the lock, is one atomic step; the
    interleaving of the owner thread, the callers and the workers is a
    schedule, that is, a list of actions.  A condition-variable wait is a
    step that is blocked while its predicate is false; the notifications
    themselves are not modelled: a waiting thread can go on as soon as its
    predicate holds, which is what [notify_one] after every push and after
    the last decrement, and [notify_all] in the destructor, provide.  Work
    items and the hardware initialisation are external: all the pool sees
    of them is whether they return or throw.

    A second system, in the module [Cv], adds the threads that are blocked
    inside the two condition variables and the notifications that unblock
    them; it is shown to reach the same pools, and the theorems on the
    order of the queue and on destruction are stated on it. *)

From Stdlib Require Import ZArith Ascii String DecimalString DecimalNat Permutation.
From stdpp Require Import base tactics list strings gmap.

Local Open Scope Z_scope.

(** ** Work items and failures *)

(** What a call that may throw does: it returns, throws a
    [std::runtime_error] carrying [what()], or throws anything else. *)
Inductive Outcome :=
| Returns
| ThrowsRuntimeError (what : string)
| ThrowsOther.

(** [typedef std::function<void(int)> Work]: the item is run with the index
    of the worker that dequeued it. *)
Definition Work := nat -> Outcome.

(** The text pushed by the [catch(...)] handlers. *)
Definition unknown_exception : string := "Caught unknown exception".

(** The description a handler of ThreadMain records for a failed call;
    [None] when the call returned. *)
Definition caught (o : Outcome) : option string :=
  match o with
  | Returns => None
  | ThrowsRuntimeError what => Some what
  | ThrowsOther => Some unknown_exception
  end.

(** [std::to_string] on a [size_t]. *)
Definition to_string (i : nat) : string :=
  NilEmpty.string_of_uint (Nat.to_uint i).

(** ** Threads *)

(** Where a worker is inside [ThreadMain]. *)
Inductive wstate :=
| Initializing            (* before the try block of line 106 *)
| LoopHead                (* at [while (running_)], line 117 *)
| Waiting                 (* in [condition_.wait], line 120 *)
| Executing (w : Work)    (* item popped, lock released, line 138 *)
| Caught (msg : string)   (* in a handler, taking the lock to push *)
| Finishing               (* after the try, taking the lock, line 150 *)
| Terminated.             (* ThreadMain has returned *)

(** Where the thread that owns the pool is: in the constructor's loop, with
    [i] threads started; between constructor and destructor; in the
    destructor after [WaitForWork(false)]; in the join loop with [k]
    threads joined; done. *)
Inductive phase :=
| Constructing (i : nat)
| Alive
| Stopping
| Joining (k : nat)
| Destroyed.

(** What happened so far, oldest first.  The history is ghost state: no step
    reads it. *)
Inductive event :=
| EvSpawn (i : nat)
| EvInit (i : nat) (o : Outcome)
| EvSubmit (w : Work)
| EvDequeue (i : nat) (w : Work)
| EvExec (i : nat) (w : Work) (o : Outcome)
| EvRecord (i : nat) (msg : string)
| EvDone (i : nat)
| EvWait (checkForErrors : bool) (thrown : option (nat * string))
| EvExit (i : nat)
| EvStop
| EvJoin (i : nat).

(** ** The pool *)

(** The data members of the class.  An entry of [threads_] is [None] while
    it is a default-constructed [std::thread].  [owner], [late_submits] and
    [history] are not members: the first is the control state of the owning
    thread, the other two are ghost. *)
Record ThreadPool := mkPool {
  threads_ : list (option wstate);
  work_queue_ : list Work;
  running_ : bool;
  work_complete_ : bool;
  active_threads_ : Z;
  tl_errors_ : list (list string);
  owner : phase;
  late_submits : nat;
  history : list event;
}.

(** The result of a step: a new state, or the step cannot be taken now (a
    wait whose predicate is false, a join of a running thread, a statement
    the thread is not at), or the C++ program has undefined behaviour. *)
Inductive result (A : Type) :=
| Ok (a : A)
| Blocked
| Undefined.
Arguments Ok {A} a.
Arguments Blocked {A}.
Arguments Undefined {A}.

Definition bind {A B} (r : result A) (f : A -> result B) : result B :=
  match r with
  | Ok a => f a
  | Blocked => Blocked
  | Undefined => Undefined
  end.

(** *** Field updates *)

Definition set_thread (i : nat) (st : wstate) (p : ThreadPool) : ThreadPool :=
  mkPool (<[i := Some st]> (threads_ p)) (work_queue_ p) (running_ p)
         (work_complete_ p) (active_threads_ p) (tl_errors_ p) (owner p)
         (late_submits p) (history p).

Definition set_queue (q : list Work) (p : ThreadPool) : ThreadPool :=
  mkPool (threads_ p) q (running_ p) (work_complete_ p) (active_threads_ p)
         (tl_errors_ p) (owner p) (late_submits p) (history p).

Definition set_running (b : bool) (p : ThreadPool) : ThreadPool :=
  mkPool (threads_ p) (work_queue_ p) b (work_complete_ p) (active_threads_ p)
         (tl_errors_ p) (owner p) (late_submits p) (history p).

Definition set_complete (b : bool) (p : ThreadPool) : ThreadPool :=
  mkPool (threads_ p) (work_queue_ p) (running_ p) b (active_threads_ p)
         (tl_errors_ p) (owner p) (late_submits p) (history p).

Definition set_active (a : Z) (p : ThreadPool) : ThreadPool :=
  mkPool (threads_ p) (work_queue_ p) (running_ p) (work_complete_ p) a
         (tl_errors_ p) (owner p) (late_submits p) (history p).

Definition set_errors (e : list (list string)) (p : ThreadPool) : ThreadPool :=
  mkPool (threads_ p) (work_queue_ p) (running_ p) (work_complete_ p)
         (active_threads_ p) e (owner p) (late_submits p) (history p).

Definition set_owner (o : phase) (p : ThreadPool) : ThreadPool :=
  mkPool (threads_ p) (work_queue_ p) (running_ p) (work_complete_ p)
         (active_threads_ p) (tl_errors_ p) o (late_submits p) (history p).

Definition set_late (n : nat) (p : ThreadPool) : ThreadPool :=
  mkPool (threads_ p) (work_queue_ p) (running_ p) (work_complete_ p)
         (active_threads_ p) (tl_errors_ p) (owner p) n (history p).

Definition log (e : event) (p : ThreadPool) : ThreadPool :=
  mkPool (threads_ p) (work_queue_ p) (running_ p) (work_complete_ p)
         (active_threads_ p) (tl_errors_ p) (owner p) (late_submits p)
         (history p ++ [e]).

(** [size()]. *)
Definition size (p : ThreadPool) : nat := length (threads_ p).

(** ** Construction *)

(** Why a constructor call throws. *)
Inductive ctor_failure :=
| EnforceFailed (msg : string)   (* DALI_ENFORCE(num_thread > 0, msg) *)
| VectorTooLong.                 (* threads_(num_thread) above max_size() *)

(** The state in which the constructor enters its loop (line 46): the member
    initialisers have run, [tl_errors_] is still the empty vector. *)
Definition ThreadPool_init (n : nat) : ThreadPool :=
  mkPool (replicate n None) [] true true 0 [] (Constructing 0) 0%nat [].

(** Lines 38-45.  The member initialiser [threads_(num_thread)] runs before
    the body: it converts the [int] to the vector's unsigned 64-bit
    [size_type] and throws (std::length_error or std::bad_alloc, by library
    version) above [max_size], the bound of the vector implementation.
    Then DALI_ENFORCE throws unless [num_thread > 0].  [nvml::Init] is
    external and has no effect on the pool. *)
Definition ThreadPool_new (max_size num_thread : Z) : ctor_failure + ThreadPool :=
  if (num_thread mod 2 ^ 64) >? max_size then inl VectorTooLong
  else if num_thread >? 0 then inr (ThreadPool_init (Z.to_nat num_thread))
  else inl (EnforceFailed "Thread pool must have non-zero size").

(** ** WaitForWork *)

(** The text of the exception of lines 89-92, thrown in iteration [i] with
    [front] the oldest entry of [tl_errors_[i]]. *)
Definition error_text (i : nat) (front : string) : string :=
  "Error in thread " +:+ to_string i +:+ ": " +:+ front.

(** The loop of lines 86-94, from index [i] with [remaining] iterations to
    go: the iteration that throws, if any, as its index and the front of its
    queue, and the registry afterwards. *)
Fixpoint check_errors_from (remaining i : nat) (errs : list (list string))
  : result (option (nat * string) * list (list string)) :=
  match remaining with
  | O => Ok (None, errs)
  | S r =>
      match errs !! i with
      | None => Undefined
      | Some [] => check_errors_from r (S i) errs
      | Some (front :: q) => Ok (Some (i, front), <[i := q]> errs)
      end
  end.

(** [WaitForWork(checkForErrors)], lines 80-96: the error that is thrown, if
    any, and the pool afterwards.  The wait of line 82 is blocked while
    [work_complete_] is false. *)
Definition WaitForWork (checkForErrors : bool) (p : ThreadPool)
  : result (option (nat * string) * ThreadPool) :=
  if work_complete_ p then
    if checkForErrors then
      bind (check_errors_from (length (threads_ p)) 0 (tl_errors_ p))
           (fun r => Ok (fst r, set_errors (snd r) p))
    else Ok (None, p)
  else Blocked.

(** What the caller of [WaitForWork] sees: [what()] of the exception. *)
Definition thrown (r : option (nat * string)) : option string :=
  match r with
  | Some (i, front) => Some (error_text i front)
  | None => None
  end.

(** ** DoWorkWithID *)

(** Lines 68-77. *)
Definition DoWorkWithID (w : Work) (p : ThreadPool) : ThreadPool :=
  set_complete false (set_queue (work_queue_ p ++ [w]) p).

(** ** ThreadMain *)

(** [tl_errors_[thread_id].push(msg)]. *)
Definition push_error (thread_id : nat) (msg : string) (p : ThreadPool)
  : result ThreadPool :=
  match tl_errors_ p !! thread_id with
  | None => Undefined
  | Some q =>
      Ok (log (EvRecord thread_id msg)
              (set_errors (<[thread_id := q ++ [msg]]> (tl_errors_ p)) p))
  end.

Section Pool.

(** What the try block of lines 106-110 does in worker [thread_id]:
    [cudaSetDevice(device_id)] under CUDA_CALL and, with [set_affinity],
    [nvml::SetCPUAffinity()].  Both are external to this file. *)
Variable initializer : nat -> Outcome.

(** One step of worker [thread_id], which is at [st]. *)
Definition ThreadMain (thread_id : nat) (st : wstate) (p : ThreadPool)
  : result ThreadPool :=
  match st with
  | Initializing =>
      let o := initializer thread_id in
      let p := log (EvInit thread_id o) (set_thread thread_id LoopHead p) in
      match caught o with
      | None => Ok p
      | Some msg => push_error thread_id msg p
      end
  | LoopHead =>
      if running_ p then Ok (set_thread thread_id Waiting p)
      else Ok (log (EvExit thread_id) (set_thread thread_id Terminated p))
  | Waiting =>
      if running_ p && bool_decide (work_queue_ p = []) then Blocked
      else if negb (running_ p) then
        Ok (log (EvExit thread_id) (set_thread thread_id Terminated p))
      else
        match work_queue_ p with
        | [] => Undefined
        | w :: q =>
            Ok (log (EvDequeue thread_id w)
                 (set_thread thread_id (Executing w)
                   (set_active (active_threads_ p + 1) (set_queue q p))))
        end
  | Executing w =>
      let o := w thread_id in
      let p := log (EvExec thread_id w o) p in
      match caught o with
      | None => Ok (set_thread thread_id Finishing p)
      | Some msg => Ok (set_thread thread_id (Caught msg) p)
      end
  | Caught msg =>
      push_error thread_id msg (set_thread thread_id Finishing p)
  | Finishing =>
      let a := active_threads_ p - 1 in
      let p := set_active a p in
      let p := if bool_decide (work_queue_ p = []) && (a =? 0)
               then set_complete true p else p in
      Ok (log (EvDone thread_id) (set_thread thread_id LoopHead p))
  | Terminated => Blocked
  end.

(** ** The transition system *)

Inductive action :=
| CtorSpawn                       (* one iteration of lines 46-49 *)
| CtorResize                      (* line 50 *)
| Submit (w : Work)               (* a call of DoWorkWithID *)
| Wait (checkForErrors : bool)    (* a call of WaitForWork *)
| DtorWait                        (* line 55 *)
| DtorStop                        (* lines 57-60 *)
| DtorJoin                        (* one iteration of lines 62-64 *)
| DtorRelease                     (* line 65 and the end of the destructor *)
| Worker (thread_id : nat).       (* the next step of a worker *)

(** The object can be called: its constructor has returned and its
    destructor has not released it.  Nothing in the class keeps a caller
    from racing with the destructor, so the calls are steps of the system
    in the destructor's phases too. *)
Definition callable (o : phase) : bool :=
  match o with
  | Alive | Stopping | Joining _ => true
  | Constructing _ | Destroyed => false
  end.

(** The destructor has not passed its wait. *)
Definition is_alive (o : phase) : bool :=
  match o with Alive => true | _ => false end.

(** One step of the system.  [late_submits] counts the submissions made
    after the destructor's wait has returned. *)
Definition exec (a : action) (p : ThreadPool) : result ThreadPool :=
  match a with
  | CtorSpawn =>
      match owner p with
      | Constructing i =>
          if bool_decide (i < length (threads_ p))%nat then
            Ok (log (EvSpawn i)
                 (set_owner (Constructing (S i)) (set_thread i Initializing p)))
          else Blocked
      | _ => Blocked
      end
  | CtorResize =>
      match owner p with
      | Constructing i =>
          if bool_decide (i < length (threads_ p))%nat then Blocked
          else Ok (set_owner Alive
                    (set_errors (resize (length (threads_ p)) [] (tl_errors_ p)) p))
      | _ => Blocked
      end
  | Submit w =>
      if callable (owner p) then
        Ok (log (EvSubmit w)
             (set_late (if is_alive (owner p) then late_submits p
                        else S (late_submits p))
               (DoWorkWithID w p)))
      else Blocked
  | Wait c =>
      if callable (owner p) then
        bind (WaitForWork c p) (fun r => Ok (log (EvWait c (fst r)) (snd r)))
      else Blocked
  | DtorWait =>
      match owner p with
      | Alive =>
          bind (WaitForWork false p)
               (fun r => Ok (log (EvWait false (fst r)) (set_owner Stopping (snd r))))
      | _ => Blocked
      end
  | DtorStop =>
      match owner p with
      | Stopping => Ok (log EvStop (set_owner (Joining 0) (set_running false p)))
      | _ => Blocked
      end
  | DtorJoin =>
      match owner p with
      | Joining k =>
          match threads_ p !! k with
          | Some (Some Terminated) => Ok (log (EvJoin k) (set_owner (Joining (S k)) p))
          | _ => Blocked
          end
      | _ => Blocked
      end
  | DtorRelease =>
      match owner p with
      | Joining k =>
          if bool_decide (k < length (threads_ p))%nat then Blocked
          else Ok (set_owner Destroyed p)
      | _ => Blocked
      end
  | Worker i =>
      match threads_ p !! i with
      | Some (Some st) => ThreadMain i st p
      | _ => Blocked
      end
  end.

(** A schedule, run from [p]. *)
Fixpoint run (sched : list action) (p : ThreadPool) : result ThreadPool :=
  match sched with
  | [] => Ok p
  | a :: rest => bind (exec a p) (run rest)
  end.

(** The states a pool of [n] workers can be in. *)
Definition reachable (n : nat) (p : ThreadPool) : Prop :=
  exists sched, run sched (ThreadPool_init n) = Ok p.

End Pool.

(** ** Reading the history *)

(** The items pushed by DoWorkWithID, in order. *)
Definition submitted (h : list event) : list Work :=
  omap (fun e => match e with EvSubmit w => Some w | _ => None end) h.

(** The items popped from the queue, each with the worker that popped it. *)
Definition dequeued (h : list event) : list (nat * Work) :=
  omap (fun e => match e with EvDequeue i w => Some (i, w) | _ => None end) h.

(** The calls [work(thread_id)] that were made. *)
Definition executed (h : list event) : list (nat * Work) :=
  omap (fun e => match e with EvExec i w _ => Some (i, w) | _ => None end) h.

(** The workers that finished an item, one entry per item. *)
Definition finished (h : list event) : list nat :=
  omap (fun e => match e with EvDone i => Some i | _ => None end) h.

(** The threads started by the constructor. *)
Definition spawned (h : list event) : list nat :=
  omap (fun e => match e with EvSpawn i => Some i | _ => None end) h.

(** The runs of the initializer in worker [i]. *)
Definition inits (i : nat) (h : list event) : list Outcome :=
  omap (fun e => match e with
                 | EvInit j o => if bool_decide (j = i) then Some o else None
                 | _ => None
                 end) h.

(** The failures raised in worker [i], by the initializer or by an item, as
    the handlers describe them. *)
Definition failures (i : nat) (h : list event) : list string :=
  omap (fun e => match e with
                 | EvInit j o | EvExec j _ o =>
                     if bool_decide (j = i) then caught o else None
                 | _ => None
                 end) h.

(** The errors of worker [i] that a WaitForWork has thrown. *)
Definition reported (i : nat) (h : list event) : list string :=
  omap (fun e => match e with
                 | EvWait _ (Some (j, msg)) =>
                     if bool_decide (j = i) then Some msg else None
                 | _ => None
                 end) h.

(** All errors thrown by WaitForWork so far. *)
Definition all_reported (h : list event) : list (nat * string) :=
  omap (fun e => match e with EvWait _ r => r | _ => None end) h.

(** ** Reading the thread table *)

(** A worker between its pop and its decrement of [active_threads_]. *)
Definition busy (t : option wstate) : bool :=
  match t with
  | Some (Executing _) | Some (Caught _) | Some Finishing => true
  | _ => false
  end.

(** The number of entries of [l] on which [f] holds. *)
Fixpoint count {A} (f : A -> bool) (l : list A) : nat :=
  match l with
  | [] => O
  | x :: l' => ((if f x then 1 else 0) + count f l')%nat
  end.

(** The item a worker holds and has not yet called. *)
Definition flying (i : nat) (t : option wstate) : list (nat * Work) :=
  match t with
  | Some (Executing w) => [(i, w)]
  | _ => []
  end.

(** The items held by the workers from index [k] on. *)
Fixpoint in_flight (k : nat) (l : list (option wstate)) : list (nat * Work) :=
  match l with
  | [] => []
  | t :: l' => flying k t ++ in_flight (S k) l'
  end.

(** The failure a worker has caught and not yet pushed. *)
Definition pending (t : option (option wstate)) : list string :=
  match t with
  | Some (Some (Caught msg)) => [msg]
  | _ => []
  end.

(** The worker has been started and has left its initialisation. *)
Definition in_loop (t : option (option wstate)) : bool :=
  match t with
  | Some (Some Initializing) | Some None | None => false
  | Some (Some _) => true
  end.

(** All error sequences are empty. *)
Definition no_errors (errs : list (list string)) : Prop :=
  Forall (fun q => q = []) errs.

(** ** The shape of the reachable states *)

(** The number of threads the constructor has started. *)
Definition started (p : ThreadPool) : nat :=
  match owner p with
  | Constructing k => k
  | _ => length (threads_ p)
  end.

(** The shape of the state of a pool constructed for [n] workers. *)
Record Inv (n : nat) (p : ThreadPool) : Prop := {
  inv_size : length (threads_ p) = n;
  inv_started : (started p <= n)%nat;
  inv_spawned : forall j, (j < started p)%nat ->
    exists st, threads_ p !! j = Some (Some st);
  inv_unspawned : forall j, (started p <= j < n)%nat ->
    threads_ p !! j = Some None;
  inv_errors :
    match owner p with
    | Constructing _ => tl_errors_ p = []
    | _ => length (tl_errors_ p) = n
    end;
  inv_active : active_threads_ p = Z.of_nat (count busy (threads_ p));
  inv_complete :
    work_complete_ p
    = bool_decide (work_queue_ p = []) && (active_threads_ p =? 0);
  inv_running :
    running_ p = match owner p with Joining _ | Destroyed => false | _ => true end;
  inv_term : forall j,
    threads_ p !! j = Some (Some Terminated) -> running_ p = false;
  inv_joined :
    match owner p with
    | Joining k =>
        (k <= n)%nat /\
        forall j, (j < k)%nat -> threads_ p !! j = Some (Some Terminated)
    | Destroyed =>
        forall j, (j < n)%nat -> threads_ p !! j = Some (Some Terminated)
    | _ => True
    end;
  inv_quiet : late_submits p = O -> is_alive (owner p) = false ->
    work_queue_ p = [] /\ active_threads_ p = 0;
  inv_early :
    match owner p with
    | Constructing _ | Alive => late_submits p = O
    | _ => True
    end;
}.

(** ** What the history says about the state *)

(** The queue is the part of the submissions not yet popped, in order; the
    calls made are the items popped, except those a worker still holds; the
    items popped are the items finished and one per busy worker;
    the failures of a worker are the errors reported for it, then its
    queued errors, then the failure it is about to push; the constructor
    started threads 0, 1, ... in order; a worker in its loop has run the
    initializer once, a worker before it has not. *)
Record Hist (initializer : nat -> Outcome) (n : nat) (p : ThreadPool) : Prop := {
  hist_fifo : (dequeued (history p)).*2 ++ work_queue_ p = submitted (history p);
  hist_exec :
    dequeued (history p) ≡ₚ executed (history p) ++ in_flight 0 (threads_ p);
  hist_done :
    length (dequeued (history p))
    = (length (finished (history p)) + count busy (threads_ p))%nat;
  hist_fail : forall i,
    failures i (history p)
    = reported i (history p) ++ (tl_errors_ p !!! i) ++ pending (threads_ p !! i);
  hist_spawn : spawned (history p) = seq 0 (started p);
  hist_init : forall i,
    inits i (history p)
    = if in_loop (threads_ p !! i) then [initializer i] else [];
}.

(** ** Draining the error registry *)

(** The queued errors in the order WaitForWork throws them: by worker index,
    and for one worker oldest first. *)
Fixpoint queued_from (k : nat) (errs : list (list string)) : list (nat * string) :=
  match errs with
  | [] => []
  | q :: rest => map (pair k) q ++ queued_from (S k) rest
  end.

(** The same for the whole registry. *)
Definition queued (errs : list (list string)) : list (nat * string) :=
  queued_from 0 errs.

(** [k] error-checked calls of WaitForWork in a row, as long as they throw:
    the errors thrown and the pool afterwards. *)
Fixpoint drain (k : nat) (p : ThreadPool) : result (list (nat * string) * ThreadPool) :=
  match k with
  | O => Ok ([], p)
  | S k' =>
      bind (WaitForWork true p) (fun r =>
        match fst r with
        | None => Ok ([], snd r)
        | Some e =>
            bind (drain k' (snd r)) (fun r' => Ok (e :: fst r', snd r'))
        end)
  end.

(** ** Measures of the work left *)

(** The sum of [f] over [l]. *)
Fixpoint total {A} (f : A -> nat) (l : list A) : nat :=
  match l with
  | [] => O
  | x :: l' => (f x + total f l')%nat
  end.

(** The steps a worker still has to take for the item it holds, or to
    reach its wait. *)
Definition effort (t : option wstate) : nat :=
  match t with
  | Some (Executing _) => 4
  | Some (Caught _) => 3
  | Some Finishing | Some Initializing => 2
  | Some LoopHead => 1
  | _ => 0
  end.

(** A bound on the worker steps left until the pool is drained and idle. *)
Definition pending_effort (p : ThreadPool) : nat :=
  (6 * length (work_queue_ p) + total effort (threads_ p))%nat.

(** The steps a worker still has to take to leave its loop once [running_]
    is false and nothing is queued. *)
Definition exit_effort (t : option wstate) : nat :=
  match t with
  | Some Initializing => 2
  | Some LoopHead | Some Waiting => 1
  | _ => 0
  end.


(** The step is a call of DoWorkWithID. *)
Definition is_submit (a : action) : bool :=
  match a with Submit _ => true | _ => false end.

(** [x] occurs in [s]. *)
Definition contains (x s : string) : Prop :=
  exists pre post, s = pre +:+ x +:+ post.

(** ** What [size()] returns *)

(** Lines 98-100: [threads_.size()], a 64-bit [size_t], converted to the
    [int] of the return type, that is, taken modulo 2^32 into the signed
    range. *)
Definition size_returned (p : ThreadPool) : Z :=
  (Z.of_nat (size p) + 2 ^ 31) mod 2 ^ 32 - 2 ^ 31.

(** Every worker that holds an item is about to call it. *)
Definition held_uncalled (p : ThreadPool) : Prop :=
  forall i st, threads_ p !! i = Some (Some st) -> busy (Some st) = true ->
    exists w, st = Executing w.

(** * Blocking and notification *)

(** The transition system above lets a thread that waits on a condition
    variable go on as soon as the predicate of its wait holds.  The system
    of this module keeps the threads that are blocked inside
    [condition_.wait] and [completed_.wait] as well, and moves them only
    by the notifications the code sends: [condition_.notify_one()] after
    the lock of DoWorkWithID is released (line 76), [condition_.notify_all()]
    in the destructor (line 59), [completed_.notify_one()] under the lock
    when a worker finds the work complete (line 154), and by the spurious
    wakeups a wait is allowed to have.  [wait(lock, pred)] evaluates [pred]
    with the lock held and blocks, releasing the lock, as long as it is
    false; a thread that is unblocked takes the lock and evaluates [pred]
    again. *)
Module Cv.

(** A thread in the wait of WaitForWork (line 82): the destructor, in its
    call of line 55, or a caller with its argument. *)
Inductive waiter_kind :=
| Destructor
| Caller (checkForErrors : bool).

(** [notified]: unblocked by a notification or spuriously, about to take
    the lock and to evaluate the predicate again. *)
Record waiter := mkWaiter {
  who : waiter_kind;
  notified : bool;
}.

(** The pool with its blocked threads: [asleep], the workers blocked in
    [condition_.wait] (line 120); [notifying], the number of callers of
    DoWorkWithID that have released the lock and not yet called
    [notify_one]; [waiters], the threads in [completed_.wait];
    [most_waiters] is ghost, the largest number of threads that were in
    that wait at the same time. *)
Record state := mkState {
  pool : ThreadPool;
  asleep : gset nat;
  notifying : nat;
  waiters : list waiter;
  most_waiters : nat;
}.

Definition set_pool (p : ThreadPool) (s : state) : state :=
  mkState p (asleep s) (notifying s) (waiters s) (most_waiters s).

Definition set_asleep (X : gset nat) (s : state) : state :=
  mkState (pool s) X (notifying s) (waiters s) (most_waiters s).

Definition set_notifying (m : nat) (s : state) : state :=
  mkState (pool s) (asleep s) m (waiters s) (most_waiters s).

Definition set_waiters (l : list waiter) (s : state) : state :=
  mkState (pool s) (asleep s) (notifying s) l
          (Nat.max (most_waiters s) (length l)).

(** The state in which the constructor enters its loop. *)
Definition init (n : nat) : state := mkState (ThreadPool_init n) ∅ 0 [] 0.

Definition blocked (x : waiter) : bool := negb (notified x).

Definition wake (x : waiter) : waiter := mkWaiter (who x) true.

Definition is_destructor (x : waiter) : bool :=
  match who x with Destructor => true | Caller _ => false end.

(** A step of the pool as a step of the state. *)
Definition on_pool (r : result ThreadPool) (s : state) : result state :=
  bind r (fun p => Ok (set_pool p s)).

(** [completed_.notify_one()]: if threads are blocked in the wait, one of
    them is unblocked, here the [k]-th waiter; the step with another [k]
    does not exist. *)
Definition notify_completed (k : nat) (s : state) : result state :=
  if existsb blocked (waiters s) then
    match waiters s !! k with
    | Some x =>
        if notified x then Blocked
        else Ok (set_waiters (<[k := wake x]> (waiters s)) s)
    | None => Blocked
    end
  else Ok s.

(** [condition_.notify_one()]: likewise, for worker [i]. *)
Definition notify_work (i : nat) (s : state) : result state :=
  if decide (asleep s = ∅) then Ok s
  else if decide (i ∈ asleep s) then Ok (set_asleep (asleep s ∖ {[i]}) s)
  else Blocked.

(** The steps of the threads: those of the constructor and the destructor;
    the two halves of DoWorkWithID; WaitForWork up to the first evaluation
    of its predicate, and from an unblocking to the next evaluation; the
    steps of the workers; the spurious wakeups. *)
Inductive act :=
| Spawn                            (* one iteration of lines 46-49 *)
| Resize                           (* line 50 *)
| Push (w : Work)                  (* lines 69-74 *)
| Notify (i : nat)                 (* line 76 *)
| Enter (checkForErrors : bool)    (* lines 81-82 of a caller *)
| Resume (k : nat)                 (* waiter [k] leaves [completed_.wait] *)
| DtorEnter                        (* line 55 *)
| Stop                             (* lines 57-60 *)
| Join                             (* one iteration of lines 62-64 *)
| Release                          (* line 65 *)
| Step (i k : nat)                 (* the next step of worker [i] *)
| SpuriousWorker (i : nat)
| SpuriousWaiter (k : nat).

Section Steps.

Variable initializer : nat -> Outcome.

(** WaitForWork once the predicate of line 82 has been found true, with
    the lock held: the rest of the call, as in the system above. *)
Definition proceed (x : waiter_kind) (s : state) : result state :=
  match x with
  | Destructor => on_pool (exec initializer DtorWait (pool s)) s
  | Caller c => on_pool (exec initializer (Wait c) (pool s)) s
  end.

(** The first evaluation of the predicate of line 82. *)
Definition wait_completed (x : waiter_kind) (s : state) : result state :=
  if work_complete_ (pool s) then proceed x s
  else Ok (set_waiters (waiters s ++ [mkWaiter x false]) s).

(** The next step of worker [i].  In its wait, blocked, it has none; not
    blocked, it evaluates the predicate of line 120 and blocks if it is
    false.  When it finishes an item and finds the work complete it
    notifies [completed_], unblocking waiter [k].  Everything else is the
    step of ThreadMain. *)
Definition worker (i k : nat) (s : state) : result state :=
  match threads_ (pool s) !! i with
  | Some (Some Waiting) =>
      if decide (i ∈ asleep s) then Blocked
      else if running_ (pool s) && bool_decide (work_queue_ (pool s) = [])
      then Ok (set_asleep (asleep s ∪ {[i]}) s)
      else on_pool (ThreadMain initializer i Waiting (pool s)) s
  | Some (Some Finishing) =>
      bind (on_pool (ThreadMain initializer i Finishing (pool s)) s)
           (fun s' =>
              if bool_decide (work_queue_ (pool s) = [])
                 && (active_threads_ (pool s) - 1 =? 0)
              then notify_completed k s' else Ok s')
  | Some (Some st) => on_pool (ThreadMain initializer i st (pool s)) s
  | _ => Blocked
  end.

Definition step (a : act) (s : state) : result state :=
  match a with
  | Spawn => on_pool (exec initializer CtorSpawn (pool s)) s
  | Resize => on_pool (exec initializer CtorResize (pool s)) s
  | Push w =>
      bind (on_pool (exec initializer (Submit w) (pool s)) s)
           (fun s' => Ok (set_notifying (S (notifying s')) s'))
  | Notify i =>
      match notifying s with
      | O => Blocked
      | S m => notify_work i (set_notifying m s)
      end
  | Enter c =>
      if callable (owner (pool s)) then wait_completed (Caller c) s
      else Blocked
  | Resume k =>
      match waiters s !! k with
      | Some x =>
          if notified x then
            if work_complete_ (pool s)
            then proceed (who x) (set_waiters (delete k (waiters s)) s)
            else Ok (set_waiters (<[k := mkWaiter (who x) false]> (waiters s)) s)
          else Blocked
      | None => Blocked
      end
  | DtorEnter =>
      if is_alive (owner (pool s)) && negb (existsb is_destructor (waiters s))
      then wait_completed Destructor s
      else Blocked
  | Stop =>
      bind (on_pool (exec initializer DtorStop (pool s)) s)
           (fun s' => Ok (set_asleep ∅ s'))
  | Join => on_pool (exec initializer DtorJoin (pool s)) s
  | Release => on_pool (exec initializer DtorRelease (pool s)) s
  | Step i k => worker i k s
  | SpuriousWorker i =>
      if decide (i ∈ asleep s) then Ok (set_asleep (asleep s ∖ {[i]}) s)
      else Blocked
  | SpuriousWaiter k =>
      match waiters s !! k with
      | Some x =>
          if notified x then Blocked
          else Ok (set_waiters (<[k := wake x]> (waiters s)) s)
      | None => Blocked
      end
  end.

Fixpoint steps (sched : list act) (s : state) : result state :=
  match sched with
  | [] => Ok s
  | a :: rest => bind (step a s) (steps rest)
  end.

Definition reachable (n : nat) (s : state) : Prop :=
  exists sched, steps sched (init n) = Ok s.

End Steps.

(** The steps the threads of the pool take on their own: no new call, no
    spurious wakeup. *)
Definition internal (a : act) : bool :=
  match a with
  | Notify _ | Step _ _ => true
  | _ => false
  end.

(** The steps of the threads of the pool and of its destructor: none of a
    caller, no spurious wakeup. *)
Definition own (a : act) : bool :=
  match a with
  | Notify _ | Step _ _ | DtorEnter | Resume _ | Stop | Join | Release => true
  | _ => false
  end.

Definition is_push (a : act) : bool :=
  match a with Push _ => true | _ => false end.

(** A bound on the steps that the [n] workers and the pending calls of
    [notify_one] can take while [running_] is true and nothing else
    happens: twice what is left of the work, two for each pending
    notification, one for each worker that is not blocked. *)
Definition steps_left (n : nat) (s : state) : nat :=
  (2 * pending_effort (pool s) + 2 * notifying s
   + (n - base.size (asleep s)))%nat.

End Cv.

(** What holds of the blocked threads in every state of that system: a
    blocked worker is in its wait; none is blocked once [running_] is
    false; while [running_] is true and an item is queued, a notification
    is still to come or some worker is not blocked; and as long as never
    more than one thread at a time was in the wait of WaitForWork, a thread
    is blocked in it only while the work is not complete. *)
Record CvInv (n : nat) (s : Cv.state) : Prop := {
  cv_asleep : forall i, i ∈ Cv.asleep s ->
    threads_ (Cv.pool s) !! i = Some (Some Waiting);
  cv_stopped : running_ (Cv.pool s) = false -> Cv.asleep s = ∅;
  cv_wake : (0 < n)%nat -> running_ (Cv.pool s) = true ->
    work_queue_ (Cv.pool s) <> [] ->
    (0 < Cv.notifying s)%nat \/ exists i, (i < n)%nat /\ i ∉ Cv.asleep s;
  cv_most : (length (Cv.waiters s) <= Cv.most_waiters s)%nat;
  cv_single : (Cv.most_waiters s <= 1)%nat ->
    forall x, x ∈ Cv.waiters s -> Cv.notified x = false ->
    work_complete_ (Cv.pool s) = false;
}.

(** * Runs of small pools *)

(** An initializer that succeeds in every worker, one that finds no device
    and throws from CUDA_CALL, and one that throws something that is not a
    std::runtime_error. *)
Definition init_ok : nat -> Outcome := fun _ => Returns.
Definition init_no_device : nat -> Outcome :=
  fun _ => ThrowsRuntimeError "no CUDA-capable device is detected".
Definition init_unknown : nat -> Outcome := fun _ => ThrowsOther.

(** An item that returns, and one that throws std::runtime_error("boom"). *)
Definition noop : Work := fun _ => Returns.
Definition boom : Work := fun _ => ThrowsRuntimeError "boom".

(** The state a schedule leads to; the initial state when it cannot be run. *)
Definition after (initializer : nat -> Outcome) (n : nat) (sched : list action)
  : ThreadPool :=
  match run initializer sched (ThreadPool_init n) with
  | Ok p => p
  | _ => ThreadPool_init n
  end.

(** A pool of two workers: both wait, two items are submitted, worker 0
    takes the first. *)
Definition sched_busy : list action :=
  [CtorSpawn; CtorSpawn; CtorResize; Worker 0; Worker 0; Worker 1; Worker 1;
   Submit noop; Submit boom; Worker 0].

(** A pool of two workers in which worker 0 has run [boom], worker 1 has
    run [noop], and both are back at the head of their loops. *)
Definition sched_boom : list action :=
  [CtorSpawn; CtorSpawn; CtorResize; Worker 0; Worker 0; Worker 1; Worker 1;
   Submit boom; Submit noop; Worker 0; Worker 1;
   Worker 0; Worker 0; Worker 1; Worker 1; Worker 0].

(** A pool of one worker whose destructor has waited and stopped the pool,
    while a caller pushed an item between these two steps. *)
Definition sched_late : list action :=
  [CtorSpawn; CtorResize; Worker 0; Worker 0; DtorWait; Submit noop; DtorStop].

(** The same pool once its worker has returned and has been joined. *)
Definition sched_dropped : list action :=
  sched_late ++ [Worker 0; DtorJoin; DtorRelease].

(** A registry of three workers with three queued errors. *)
Definition pool_with_errors : ThreadPool :=
  mkPool [Some Waiting; Some Waiting; Some Waiting] [] true true 0
         [[]; ["a"; "b"]; ["c"]] Alive 0 [].

(** A pool of four workers, one of which has gone to its wait, with one
    item queued. *)
Definition sched_four : list action :=
  [CtorSpawn; CtorSpawn; CtorSpawn; CtorSpawn; CtorResize;
   Worker 2; Worker 2; Submit noop].

(** The state a schedule of the system with blocked threads leads to; the
    initial state when it cannot be run. *)
Definition cv_after (initializer : nat -> Outcome) (n : nat)
    (sched : list Cv.act) : Cv.state :=
  match Cv.steps initializer sched (Cv.init n) with
  | Ok s => s
  | _ => Cv.init n
  end.

(** A pool of one worker, blocked in its wait, with an item pushed whose
    notification is still to come. *)
Definition sched_asleep : list Cv.act :=
  [Cv.Spawn; Cv.Resize; Cv.Step 0 0; Cv.Step 0 0; Cv.Step 0 0; Cv.Push noop].


(** A pool of one worker with an item queued and a caller blocked in
    WaitForWork(true). *)
Definition sched_waiting : list Cv.act :=
  [Cv.Spawn; Cv.Resize; Cv.Push noop; Cv.Enter true].

(** Two callers wait for one item that does [o]: the worker blocks, the
    item is pushed, the callers block, the worker is notified, runs the
    item, finds the work complete and notifies, which unblocks the first
    caller; the worker blocks again and the first caller returns. *)
Definition sched_two_waiters (o : Outcome) (c1 c2 : bool) : list Cv.act :=
  [Cv.Spawn; Cv.Resize; Cv.Step 0 0; Cv.Step 0 0; Cv.Step 0 0;
   Cv.Push (fun _ => o); Cv.Enter c1; Cv.Enter c2; Cv.Notify 0;
   Cv.Step 0 0; Cv.Step 0 0]
  ++ match caught o with Some _ => [Cv.Step 0 0] | None => [] end
  ++ [Cv.Step 0 0; Cv.Step 0 0; Cv.Step 0 0; Cv.Resume 0].

(** * Proofs *)

Section Proofs.

Variable initializer : nat -> Outcome.

Local Abbreviation ThreadMain := (ThreadMain initializer).
Local Abbreviation exec := (exec initializer).
Local Abbreviation run := (run initializer).
Local Abbreviation reachable := (reachable initializer).
Local Abbreviation Hist := (Hist initializer).
Local Abbreviation hist_fifo := (hist_fifo initializer).
Local Abbreviation hist_exec := (hist_exec initializer).
Local Abbreviation hist_done := (hist_done initializer).
Local Abbreviation hist_fail := (hist_fail initializer).
Local Abbreviation hist_spawn := (hist_spawn initializer).
Local Abbreviation hist_init := (hist_init initializer).

(** ** Lemmas on lists *)

Lemma count_insert {A} (f : A -> bool) (l : list A) (i : nat) (x y : A) :
  l !! i = Some x ->
  (count f (<[i := y]> l) + (if f x then 1 else 0)
   = count f l + (if f y then 1 else 0))%nat.
Proof.
  revert i. induction l as [|a l IH]; intros [|i] H; simplify_eq/=.
  - lia.
  - specialize (IH _ H). lia.
Qed.

Lemma count_zero {A} (f : A -> bool) (l : list A) (i : nat) (x : A) :
  count f l = O -> l !! i = Some x -> f x = false.
Proof.
  revert i. induction l as [|a l IH]; intros [|i] H0 H; simplify_eq/=.
  - destruct (f x); [discriminate | done].
  - apply (IH i); [|done]. destruct (f a); simpl in H0; lia.
Qed.

Lemma count_pos {A} (f : A -> bool) (l : list A) :
  (0 < count f l)%nat -> exists i x, l !! i = Some x /\ f x = true.
Proof.
  induction l as [|a l IH]; simpl; [lia|].
  destruct (f a) eqn:E.
  - intros _. by exists O, a.
  - intros H. destruct IH as (i & x & ? & ?); [lia|]. by exists (S i), x.
Qed.

Lemma in_flight_insert (l : list (option wstate)) (k i : nat) (t t' : option wstate) :
  l !! i = Some t ->
  in_flight k (<[i := t']> l) ++ flying (k + i) t
  ≡ₚ in_flight k l ++ flying (k + i) t'.
Proof.
  revert k i. induction l as [|a l IH]; intros k [|i] H; simplify_eq/=.
  - rewrite Nat.add_0_r.
    rewrite <- !app_assoc.
    rewrite (Permutation_app_comm (in_flight (S k) l) (flying k t)).
    rewrite (Permutation_app_comm (in_flight (S k) l) (flying k t')).
    rewrite !app_assoc. apply Permutation_app_tail, Permutation_app_comm.
  - rewrite <- !app_assoc. apply Permutation_app_head.
    replace (k + S i)%nat with (S k + i)%nat by lia. by apply IH.
Qed.

Lemma in_flight_idle (l : list (option wstate)) (k : nat) :
  count busy l = O -> in_flight k l = [].
Proof.
  revert k. induction l as [|a l IH]; intros k H; simpl in *; [done|].
  destruct a as [[]|]; simpl in *; try lia; by apply IH.
Qed.

(** ** The error scan of WaitForWork *)

Lemma check_errors_from_clean (r i : nat) (errs : list (list string)) :
  (forall j, (i <= j < i + r)%nat -> errs !! j = Some []) ->
  check_errors_from r i errs = Ok (None, errs).
Proof.
  revert i. induction r as [|r IH]; intros i H; simpl; [done|].
  rewrite (H i) by lia. apply IH. intros j Hj. apply H. lia.
Qed.

Lemma check_errors_from_first (r i j : nat) (errs : list (list string))
    (front : string) (q : list string) :
  (i <= j < i + r)%nat ->
  (forall j', (i <= j' < j)%nat -> errs !! j' = Some []) ->
  errs !! j = Some (front :: q) ->
  check_errors_from r i errs = Ok (Some (j, front), <[j := q]> errs).
Proof.
  revert i. induction r as [|r IH]; intros i Hj Hlow Hq; simpl; [lia|].
  destruct (decide (i = j)) as [->|Hne].
  - by rewrite Hq.
  - rewrite (Hlow i) by lia. apply IH; [lia| |done].
    intros j' Hj'. apply Hlow. lia.
Qed.

Lemma check_errors_from_inv (r i : nat) (errs errs' : list (list string))
    (res : option (nat * string)) :
  check_errors_from r i errs = Ok (res, errs') ->
  (res = None /\ errs' = errs /\
   forall j, (i <= j < i + r)%nat -> errs !! j = Some [])
  \/ (exists j front q,
        res = Some (j, front) /\ (i <= j < i + r)%nat /\
        errs !! j = Some (front :: q) /\ errs' = <[j := q]> errs /\
        forall j', (i <= j' < j)%nat -> errs !! j' = Some []).
Proof.
  revert i. induction r as [|r IH]; intros i H; simpl in H.
  - simplify_eq. left. repeat split. intros j Hj. lia.
  - destruct (errs !! i) as [[|front q]|] eqn:E; simplify_eq.
    + destruct (IH _ H) as [(-> & -> & Hall)|(j & f & q & -> & Hj & Hq & -> & Hlow)].
      * left. repeat split. intros j Hj.
        destruct (decide (j = i)) as [->|]; [done|]. apply Hall. lia.
      * right. exists j, f, q. repeat split; try done; try lia.
        intros j' Hj'. destruct (decide (j' = i)) as [->|]; [done|].
        apply Hlow. lia.
    + right. exists i, front, q. repeat split; try done; lia.
Qed.

Lemma check_errors_from_defined (r i : nat) (errs : list (list string)) :
  (i + r <= length errs)%nat ->
  exists x, check_errors_from r i errs = Ok x.
Proof.
  revert i. induction r as [|r IH]; intros i H; simpl; [eauto|].
  destruct (lookup_lt_is_Some_2 errs i) as [q Hq]; [lia|].
  rewrite Hq. destruct q; [apply IH; lia | eauto].
Qed.

(** ** Schedules *)

Lemma run_app (s1 s2 : list action) (p : ThreadPool) :
  run (s1 ++ s2) p = bind (run s1 p) (run s2).
Proof.
  revert p. induction s1 as [|a s1 IH]; intros p; simpl; [done|].
  destruct (exec a p); simpl; auto.
Qed.

Lemma run_snoc (s : list action) (a : action) (p : ThreadPool) :
  run (s ++ [a]) p = bind (run s p) (exec a).
Proof.
  rewrite run_app. destruct (run s p); simpl; [|done..].
  by destruct (exec a a0).
Qed.

Lemma reachable_init (n : nat) : reachable n (ThreadPool_init n).
Proof. by exists []. Qed.

Lemma reachable_step (n : nat) (a : action) (p p' : ThreadPool) :
  reachable n p -> exec a p = Ok p' -> reachable n p'.
Proof.
  intros [s Hs] H. exists (s ++ [a]). by rewrite run_snoc, Hs.
Qed.

Lemma reachable_run (n : nat) (s : list action) (p p' : ThreadPool) :
  reachable n p -> run s p = Ok p' -> reachable n p'.
Proof.
  intros [s0 Hs] H. exists (s0 ++ s). by rewrite run_app, Hs.
Qed.

(** Induction over the reachable states. *)
Lemma reachable_ind (n : nat) (P : ThreadPool -> Prop) :
  P (ThreadPool_init n) ->
  (forall a p p', reachable n p -> P p -> exec a p = Ok p' -> P p') ->
  forall p, reachable n p -> P p.
Proof.
  intros Hinit Hstep p [s Hs]. revert p Hs.
  induction s as [|a s IH] using rev_ind; intros p Hs.
  - simpl in Hs. by simplify_eq.
  - rewrite run_snoc in Hs.
    destruct (run s (ThreadPool_init n)) as [p0| |] eqn:E; simplify_eq/=.
    eapply Hstep; [by exists s | by apply IH | done].
Qed.

(** ** Invariants of the pool *)

Lemma lookup_insert_at {A} (l : list A) (i j : nat) (x y : A) :
  l !! i = Some x ->
  <[i := y]> l !! j = if decide (i = j) then Some y else l !! j.
Proof.
  intros H. apply lookup_lt_Some in H.
  destruct (decide (i = j)) as [->|].
  - by apply list_lookup_insert_eq.
  - by apply list_lookup_insert_ne.
Qed.

Lemma Inv_init (n : nat) : Inv n (ThreadPool_init n).
Proof.
  split; unfold started; simpl; try done.
  - apply length_replicate.
  - lia.
  - intros j Hj. lia.
  - intros j Hj. apply lookup_replicate_2. lia.
  - by induction n.
  - intros j Hj. by apply lookup_replicate_1 in Hj as [? _].
Qed.

(** A step of a worker changes its own entry of the table only. *)
Lemma ThreadMain_threads (i j : nat) (st : wstate) (p p' : ThreadPool) :
  ThreadMain i st p = Ok p' -> i <> j -> threads_ p' !! j = threads_ p !! j.
Proof.
  intros H Hne.
  destruct st; simpl in H; unfold push_error in H; simpl in H;
    repeat case_match; simplify_eq/=; by rewrite ?list_lookup_insert_ne.
Qed.

(** What an update of entry [i] of the thread table does to the facts of
    [Inv]; [Hi] is the old entry. *)
Ltac table Hi :=
  repeat match goal with
  | |- context [length (<[_ := _]> _)] => rewrite length_insert
  | |- context [count busy (<[?i := ?y]> ?l)] =>
      let C := fresh "Hcount" in
      pose proof (count_insert busy l i _ y Hi) as C; simpl in C;
      generalize dependent (count busy (<[i := y]> l)); intros
  end.

(** The new entry of the table contradicts what is known of the old one. *)
Ltac clash Hi :=
  exfalso;
  match goal with
  | H : forall j, _ -> threads_ _ !! j = _ |- _ =>
      rewrite H in Hi by lia; by simplify_eq
  | H : forall j, threads_ _ !! j = _ -> _ |- _ =>
      apply H in Hi; congruence
  end.

(** Facts on the entries of the table after an update of entry [i]. *)
Ltac lookups Hi :=
  let j := fresh "j" in
  intros j; rewrite ?(lookup_insert_at _ _ j _ _ Hi);
  try case_decide; intros; simplify_eq/=; eauto with lia; try clash Hi.

Lemma check_errors_from_length (r i : nat) (errs errs' : list (list string))
    (res : option (nat * string)) :
  check_errors_from r i errs = Ok (res, errs') -> length errs' = length errs.
Proof.
  intros H. apply check_errors_from_inv in H
    as [(_ & -> & _)|(j & f & q & _ & _ & _ & -> & _)]; [done|].
  apply length_insert.
Qed.

Lemma Inv_owner_step (n : nat) (a : action) (p p' : ThreadPool) :
  (forall i, a <> Worker i) -> Inv n p -> exec a p = Ok p' -> Inv n p'.
Proof.
  intros Hw I H.
  destruct I as [inv_size0 inv_started0 inv_spawned0 inv_unspawned0
                 inv_errors0 inv_active0 inv_complete0 inv_running0 inv_term0
                 inv_joined0 inv_quiet0 inv_early0].
  destruct a; simpl in H; try (by exfalso; eapply Hw).
  - (* CtorSpawn *)
    destruct (owner p) as [k| | | |] eqn:Eo; try done.
    case_bool_decide; simplify_eq.
    unfold started in *; rewrite Eo in *.
    assert (Hi : threads_ p !! k = Some None) by (apply inv_unspawned0; lia).
    split; unfold started; simpl; table Hi; try done; try lia.
    + lookups Hi.
    + lookups Hi; lia.
    + lookups Hi.
  - (* CtorResize *)
    destruct (owner p) as [k| | | |] eqn:Eo; try done.
    case_bool_decide; simplify_eq.
    unfold started in *; rewrite Eo in *.
    split; unfold started; simpl; try done; try lia.
    + intros j Hj. apply inv_spawned0. lia.
    + by rewrite length_resize.
  - (* Submit *)
    destruct (callable (owner p)) eqn:Ec; simplify_eq.
    split; unfold started in *; simpl; try done.
    + rewrite bool_decide_eq_false_2; [done|]. by destruct (work_queue_ p).
    + destruct (owner p); simpl in *; try done; lia.
    + by destruct (owner p).
  - (* Wait *)
    destruct (callable (owner p)) eqn:Ec; try done.
    unfold WaitForWork in H.
    destruct (work_complete_ p) eqn:Ecomplete; try done.
    destruct checkForErrors; simpl in H; simplify_eq;
      [|split; unfold started in *; simpl; try done; congruence].
    destruct (check_errors_from _ _ _) as [[res errs']| |] eqn:Escan;
      simplify_eq/=.
    apply check_errors_from_length in Escan.
    split; unfold started in *; simpl; try done; try congruence.
    destruct (owner p); simpl in *; try done; congruence.
  - (* DtorWait *)
    destruct (owner p) eqn:Eo; try done.
    unfold WaitForWork in H.
    destruct (work_complete_ p) eqn:Ecomplete; simplify_eq/=.
    unfold started in *; rewrite Eo in *.
    split; unfold started; simpl; try done; try congruence.
    intros _ _. symmetry in inv_complete0.
    apply andb_true_iff in inv_complete0 as [Hq Ha].
    apply bool_decide_eq_true_1 in Hq. split; [done|lia].
  - (* DtorStop *)
    destruct (owner p) eqn:Eo; simplify_eq/=.
    unfold started in *; rewrite Eo in *.
    split; unfold started; simpl; try done.
    split; [lia|]. intros j Hj. lia.
  - (* DtorJoin *)
    destruct (owner p) as [| | |k|] eqn:Eo; try done.
    destruct (threads_ p !! k) as [[[]|]|] eqn:Ek; simplify_eq/=.
    unfold started in *; rewrite Eo in *.
    destruct inv_joined0 as [Hk Hj].
    split; unfold started; simpl; try done.
    apply lookup_lt_Some in Ek as Hlt. split; [lia|].
    intros j Hlt'. destruct (decide (j = k)) as [->|]; [done|].
    apply Hj. lia.
  - (* DtorRelease *)
    destruct (owner p) as [| | |k|] eqn:Eo; try done.
    case_bool_decide; simplify_eq.
    unfold started in *; rewrite Eo in *.
    destruct inv_joined0 as [Hk Hj].
    split; unfold started; simpl; try done.
    intros j Hlt. apply Hj. lia.
Qed.

Ltac inv_auto Hi :=
  split; unfold started in *; simpl in *;
  try match goal with
      | E : owner ?p = _ |- context [owner ?p] => rewrite E; simpl
      end;
  table Hi; rewrite ?length_insert;
  try done; try lia; try congruence; try (by lookups Hi);
  try match goal with
      | H : tl_errors_ ?p = [], E : tl_errors_ ?p !! _ = Some _ |- _ =>
          by rewrite H in E
      | H : _ /\ _ |- _ /\ _ =>
          destruct H; split; [done || lia | by lookups Hi]
      end.

Lemma Inv_worker_step (n i : nat) (st : wstate) (p p' : ThreadPool) :
  Inv n p -> threads_ p !! i = Some (Some st) ->
  ThreadMain i st p = Ok p' -> Inv n p'.
Proof.
  intros I Hi H.
  destruct I as [Hsize Hstarted Hspawned Hunspawned Herrors Hactive Hcomplete
                 Hrunning Hterm Hjoined Hquiet Hearly].
  unfold started in *.
  destruct st; simpl in H.
  - (* Initializing *)
    destruct (caught (initializer i)) as [msg|]; unfold push_error in H;
      simpl in H; [destruct (tl_errors_ p !! i) as [q|] eqn:Eq|];
      simplify_eq/=; destruct (owner p) eqn:Eo; inv_auto Hi.
  - (* LoopHead *)
    destruct (running_ p) eqn:Er; simplify_eq/=;
      destruct (owner p) eqn:Eo; inv_auto Hi.
  - (* Waiting *)
    destruct (running_ p) eqn:Er; simpl in H;
      [case_bool_decide; simpl in H;
       [done | destruct (work_queue_ p) as [|w q] eqn:Eq]|];
      simplify_eq/=; destruct (owner p) eqn:Eo; inv_auto Hi;
      try (intros Hl _; by destruct (Hquiet Hl eq_refl));
      rewrite Hcomplete; simpl;
      by destruct (Z.eqb_spec (active_threads_ p + 1) 0);
        [lia | rewrite andb_false_r].
  - (* Executing *)
    destruct (caught (w i)); simplify_eq/=;
      destruct (owner p) eqn:Eo; inv_auto Hi.
  - (* Caught *)
    unfold push_error in H; simpl in H.
    destruct (tl_errors_ p !! i) as [q|] eqn:Eq;
      simplify_eq/=; destruct (owner p) eqn:Eo; inv_auto Hi.
  - (* Finishing *)
    simplify_eq/=.
    pose proof (count_insert busy _ _ _ (Some LoopHead) Hi) as Hc; simpl in Hc.
    destruct (owner p) eqn:Eo;
      destruct (bool_decide (work_queue_ p = [])
                && (active_threads_ p - 1 =? 0)) eqn:Ec;
      inv_auto Hi;
      try (intros Hl _; destruct (Hquiet Hl eq_refl); lia);
      rewrite Hcomplete;
      by destruct (Z.eqb_spec (active_threads_ p) 0);
        [lia | rewrite andb_false_r].
  - (* Terminated *) done.
Qed.

Lemma Inv_step (n : nat) (a : action) (p p' : ThreadPool) :
  Inv n p -> exec a p = Ok p' -> Inv n p'.
Proof.
  intros I H. destruct a;
    try (eapply Inv_owner_step; [|done..]; by intros ?).
  simpl in H. destruct (threads_ p !! thread_id) as [[st|]|] eqn:Ei; try done.
  by eapply Inv_worker_step.
Qed.

(** Every reachable state has the shape [Inv]. *)
Lemma reachable_Inv (n : nat) (p : ThreadPool) : reachable n p -> Inv n p.
Proof.
  apply reachable_ind; [apply Inv_init|].
  intros a q q' _ I H. by eapply Inv_step.
Qed.

Lemma in_flight_none (k n : nat) : in_flight k (replicate n None) = [].
Proof. revert k. induction n; intros k; simpl; [done|]. apply IHn. Qed.

Lemma lookup_total_replicate_nil (n i : nat) :
  replicate n ([] : list string) !!! i = [].
Proof.
  destruct (decide (i < n)%nat).
  - by apply lookup_total_replicate_2.
  - rewrite list_lookup_total_alt.
    by rewrite (proj1 (lookup_replicate_None n _ i)) by lia.
Qed.

Lemma Hist_init (n : nat) : Hist n (ThreadPool_init n).
Proof.
  split; simpl; try done.
  - by rewrite in_flight_none.
  - by induction n.
  - intros i. destruct (replicate n None !! i) eqn:E; [|done].
    by apply lookup_replicate_1 in E as [-> _].
  - intros i. destruct (replicate n None !! i) eqn:E; [|done].
    by apply lookup_replicate_1 in E as [-> _].
Qed.

Lemma submitted_snoc h e : submitted (h ++ [e]) = submitted h ++ submitted [e].
Proof. apply omap_app. Qed.
Lemma dequeued_snoc h e : dequeued (h ++ [e]) = dequeued h ++ dequeued [e].
Proof. apply omap_app. Qed.
Lemma executed_snoc h e : executed (h ++ [e]) = executed h ++ executed [e].
Proof. apply omap_app. Qed.
Lemma finished_snoc h e : finished (h ++ [e]) = finished h ++ finished [e].
Proof. apply omap_app. Qed.
Lemma spawned_snoc h e : spawned (h ++ [e]) = spawned h ++ spawned [e].
Proof. apply omap_app. Qed.
Lemma inits_snoc i h e : inits i (h ++ [e]) = inits i h ++ inits i [e].
Proof. apply omap_app. Qed.
Lemma failures_snoc i h e : failures i (h ++ [e]) = failures i h ++ failures i [e].
Proof. apply omap_app. Qed.
Lemma reported_snoc i h e : reported i (h ++ [e]) = reported i h ++ reported i [e].
Proof. apply omap_app. Qed.
Lemma all_reported_snoc h e :
  all_reported (h ++ [e]) = all_reported h ++ all_reported [e].
Proof. apply omap_app. Qed.

Lemma in_flight_update (l : list (option wstate)) (i : nat) (t t' : option wstate) :
  l !! i = Some t ->
  in_flight 0 (<[i := t']> l) ++ flying i t ≡ₚ in_flight 0 l ++ flying i t'.
Proof. apply (in_flight_insert l 0 i). Qed.

Ltac hist_simpl :=
  rewrite ?submitted_snoc, ?dequeued_snoc, ?executed_snoc, ?spawned_snoc,
    ?inits_snoc, ?failures_snoc, ?reported_snoc, ?finished_snoc;
  simpl; rewrite ?app_nil_r.

Ltac hist_plain :=
  split; unfold started in *; simpl; try (intros ?j); hist_simpl;
  try done.

(** The goals of [Hist] after an update of entry [i] of the thread table
    from [Hi]; [Gf] and [Gi] are the facts [hist_fail] and [hist_init] of
    the state before. *)
Ltac hist_auto Hi Gf Gi :=
  split; unfold started; simpl;
  try match goal with
      | E : owner ?p = _ |- context [owner ?p] => rewrite E; simpl
      end;
  try (let j := fresh "j" in
       intros j; specialize (Gf j); specialize (Gi j);
       rewrite ?(lookup_insert_at _ _ j _ _ Hi);
       try (case_decide; subst; rewrite ?Hi in * ));
  hist_simpl;
  repeat match goal with
  | |- context [bool_decide (?a = ?a)] =>
      rewrite (bool_decide_eq_true_2 (a = a)) by done
  | H : ?a <> ?b |- context [bool_decide (?a = ?b)] =>
      rewrite (bool_decide_eq_false_2 (a = b)) by done
  | |- context [in_flight 0 (<[?i := ?t']> ?l)] =>
      let F := fresh "Hfly" in
      pose proof (in_flight_update l i _ t' Hi) as F; simpl in F;
      rewrite ?app_nil_r in F;
      generalize dependent (in_flight 0 (<[i := t']> l)); intros;
      try (rewrite F)
  end;
  simpl in *; rewrite ?app_nil_r in *; rewrite ?length_insert;
  rewrite ?length_app; simpl; table Hi;
  try rewrite Gf; try rewrite Gi;
  repeat match goal with
  | E : ?l !! ?i = Some _ |- context [<[?i := _]> ?l !!! ?i] =>
      rewrite (list_lookup_total_insert_eq l i) by (by eapply lookup_lt_Some)
  | E : ?l !! ?i = Some ?q |- context [?l !!! ?i] =>
      rewrite (list_lookup_total_correct l i q E)
  | H : ?i <> ?j |- context [<[?i := _]> _ !!! ?j] =>
      rewrite list_lookup_total_insert_ne by done
  | E : ?x = _ |- context [match ?x with _ => _ end] => rewrite E
  end;
  simpl; rewrite <- ?app_assoc, ?app_nil_r;
  try done; try congruence; try lia.

Lemma Hist_owner_step (n : nat) (a : action) (p p' : ThreadPool) :
  (forall i, a <> Worker i) -> Inv n p -> Hist n p -> exec a p = Ok p' ->
  Hist n p'.
Proof.
  intros Hw I G H.
  destruct I as [Hsize Hstarted Hspawned Hunspawned Herrors Hactive Hcomplete
                 Hrunning Hterm Hjoined Hquiet Hearly].
  destruct G as [Gfifo Gexec Gdone Gfail Gspawn Ginit].
  destruct a; simpl in H; try (by exfalso; eapply Hw).
  - (* CtorSpawn *)
    destruct (owner p) as [k| | | |] eqn:Eo; try done.
    case_bool_decide; simplify_eq.
    unfold started in *; rewrite Eo in *.
    assert (Hi : threads_ p !! k = Some None) by (apply Hunspawned; lia).
    hist_auto Hi Gfail Ginit.
    rewrite Gspawn. change (0 :: seq 1 k)%nat with (seq 0 (S k)).
    by rewrite seq_S.
  - (* CtorResize *)
    destruct (owner p) as [k| | | |] eqn:Eo; try done.
    case_bool_decide; simplify_eq.
    unfold started in *; rewrite Eo in *.
    rewrite Herrors in *.
    hist_plain.
    + rewrite Gfail, resize_nil. simpl.
      by rewrite lookup_total_replicate_nil.
    + rewrite Gspawn. f_equal. lia.
  - (* Submit *)
    destruct (callable (owner p)) eqn:Ec; simplify_eq.
    hist_plain.
    by rewrite app_assoc, Gfifo.
  - (* Wait *)
    destruct (callable (owner p)) eqn:Ec; try done.
    unfold WaitForWork in H.
    destruct (work_complete_ p) eqn:Ecomplete; try done.
    destruct checkForErrors; simpl in H; simplify_eq;
      [|by hist_plain].
    destruct (check_errors_from _ _ _) as [[res errs']| |] eqn:Escan;
      simplify_eq/=.
    apply check_errors_from_inv in Escan
      as [(-> & -> & _)|(j & f & q & -> & Hj & Hq & -> & _)];
      hist_plain.
    rewrite Gfail.
    destruct (decide (j = j0)) as [->|Hne];
      [rewrite bool_decide_eq_true_2 by done
      |rewrite bool_decide_eq_false_2 by done].
    + rewrite list_lookup_total_insert_eq by by eapply lookup_lt_Some.
      rewrite (list_lookup_total_correct _ _ _ Hq).
      by rewrite <- app_assoc.
    + rewrite list_lookup_total_insert_ne by done. by rewrite app_nil_r.
  - (* DtorWait *)
    destruct (owner p) eqn:Eo; try done.
    unfold WaitForWork in H.
    destruct (work_complete_ p) eqn:Ecomplete; simplify_eq/=.
    unfold started in *; rewrite ?Eo in *. by hist_plain.
  - (* DtorStop *)
    destruct (owner p) eqn:Eo; simplify_eq/=.
    unfold started in *; rewrite ?Eo in *. by hist_plain.
  - (* DtorJoin *)
    destruct (owner p) as [| | |k|] eqn:Eo; try done.
    destruct (threads_ p !! k) as [[[]|]|] eqn:Ek; simplify_eq/=.
    unfold started in *; rewrite ?Eo in *. by hist_plain.
  - (* DtorRelease *)
    destruct (owner p) as [| | |k|] eqn:Eo; try done.
    case_bool_decide; simplify_eq.
    unfold started in *; rewrite ?Eo in *. by hist_plain.
Qed.

Lemma Hist_worker_step (n i : nat) (st : wstate) (p p' : ThreadPool) :
  Inv n p -> Hist n p -> threads_ p !! i = Some (Some st) ->
  ThreadMain i st p = Ok p' -> Hist n p'.
Proof.
  intros I G Hi H.
  destruct I as [Hsize Hstarted Hspawned Hunspawned Herrors Hactive Hcomplete
                 Hrunning Hterm Hjoined Hquiet Hearly].
  destruct G as [Gfifo Gexec Gdone Gfail Gspawn Ginit].
  unfold started in *.
  destruct st; simpl in H.
  - (* Initializing *)
    destruct (caught (initializer i)) as [msg|] eqn:Ecaught;
      unfold push_error in H;
      simpl in H; [destruct (tl_errors_ p !! i) as [q|] eqn:Eq|];
      simplify_eq/=; hist_auto Hi Gfail Ginit.
  - (* LoopHead *)
    destruct (running_ p) eqn:Er; simplify_eq/=; hist_auto Hi Gfail Ginit.
  - (* Waiting *)
    destruct (running_ p) eqn:Er; simpl in H;
      [case_bool_decide; simpl in H;
       [done | destruct (work_queue_ p) as [|w q] eqn:Eq]|];
      simplify_eq/=; hist_auto Hi Gfail Ginit.
    + by rewrite fmap_app, <- app_assoc.
    + by rewrite Gexec, app_assoc.
  - (* Executing *)
    destruct (caught (w i)) eqn:Ecaught; simplify_eq/=;
      hist_auto Hi Gfail Ginit;
      rewrite Gexec, <- Hfly;
      apply Permutation_app_head, Permutation_app_comm.
  - (* Caught *)
    unfold push_error in H; simpl in H.
    destruct (tl_errors_ p !! i) as [q|] eqn:Eq;
      simplify_eq/=; hist_auto Hi Gfail Ginit.
  - (* Finishing *)
    simplify_eq/=.
    destruct (bool_decide (work_queue_ p = [])
              && (active_threads_ p - 1 =? 0)) eqn:Ec;
      hist_auto Hi Gfail Ginit.
  - (* Terminated *) done.
Qed.

Lemma Hist_step (n : nat) (a : action) (p p' : ThreadPool) :
  Inv n p -> Hist n p -> exec a p = Ok p' -> Hist n p'.
Proof.
  intros I G H. destruct a;
    try (eapply Hist_owner_step; [|done..]; by intros ?).
  simpl in H. destruct (threads_ p !! thread_id) as [[st|]|] eqn:Ei; try done.
  by eapply Hist_worker_step.
Qed.

(** Every reachable state agrees with its history. *)
Lemma reachable_Hist (n : nat) (p : ThreadPool) : reachable n p -> Hist n p.
Proof.
  apply reachable_ind; [apply Hist_init|].
  intros a q q' R G H. eapply Hist_step; [|done..]. by apply reachable_Inv.
Qed.

(** ** The completion flag *)

(** The flag is true exactly in the drained and idle states. *)
Lemma complete_iff (n : nat) (p : ThreadPool) :
  reachable n p ->
  work_complete_ p = true <-> work_queue_ p = [] /\ active_threads_ p = 0.
Proof.
  intros R. rewrite (inv_complete n p (reachable_Inv n p R)).
  rewrite andb_true_iff, bool_decide_eq_true, Z.eqb_eq. done.
Qed.

(** C1.  In every state the pool can reach (after the constructor's member
    initialisers, after a submit, after a worker has taken an item, after a
    worker has finished one, and after any other step of any thread)
    [work_complete_] is true exactly when the work queue is empty and
    [active_threads_] is 0. *)
Theorem work_complete_iff_drained_and_idle (n : nat) (p : ThreadPool) :
  reachable n p ->
  work_complete_ p = true <-> work_queue_ p = [] /\ active_threads_ p = 0.
Proof.
  intros R. pose proof (reachable_Inv n p R) as I.
  rewrite (inv_complete n p I). split.
  - intros Hc. apply andb_true_iff in Hc as [Hq Ha].
    apply bool_decide_eq_true in Hq. apply Z.eqb_eq in Ha. done.
  - intros [Hq Ha]. apply andb_true_iff. split.
    + by apply bool_decide_eq_true.
    + by apply Z.eqb_eq.
Qed.

(** [size()] is the thread count the pool was constructed with. *)
Lemma size_fixed (n : nat) (p : ThreadPool) : reachable n p -> size p = n.
Proof. intros R. apply (inv_size n p (reachable_Inv n p R)). Qed.

(** [active_threads_] counts the workers between a pop and the decrement
    that follows it, so it never leaves the range of the thread table. *)
Lemma active_threads_range (n : nat) (p : ThreadPool) :
  reachable n p -> 0 <= active_threads_ p <= Z.of_nat n.
Proof.
  intros R.
  destruct (reachable_Inv n p R) as [Hsize _ _ _ _ Hactive _ _ _ _ _ _].
  rewrite Hactive, <- Hsize. split; [lia|].
  apply inj_le. clear. induction (threads_ p) as [|t l IH]; simpl; [lia|].
  destruct (busy t); lia.
Qed.

Lemma queued_from_empty (k : nat) (errs : list (list string)) :
  (forall j, (j < length errs)%nat -> errs !! j = Some []) ->
  queued_from k errs = [].
Proof.
  revert k. induction errs as [|q errs IH]; intros k H; simpl; [done|].
  specialize (H O ltac:(simpl; lia)) as H0. simpl in H0. simplify_eq. simpl.
  apply IH. intros j Hj. apply (H (S j)). simpl. lia.
Qed.

Lemma queued_from_first (k j : nat) (errs : list (list string))
    (front : string) (q : list string) :
  errs !! j = Some (front :: q) ->
  (forall j', (j' < j)%nat -> errs !! j' = Some []) ->
  queued_from k errs = (k + j, front)%nat :: queued_from k (<[j := q]> errs).
Proof.
  revert k j. induction errs as [|q0 errs IH]; intros k [|j] Hq Hlow;
    simplify_eq/=.
  - by rewrite Nat.add_0_r.
  - specialize (Hlow O ltac:(lia)) as H0. simpl in H0. simplify_eq. simpl.
    replace (k + S j)%nat with (S k + j)%nat by lia.
    apply IH; [done|]. intros j' Hj'. apply (Hlow (S j')). lia.
Qed.

(** Either every sequence is empty, or there is a lowest-indexed worker
    with a queued error. *)
Lemma lowest_error (errs : list (list string)) :
  (forall j, (j < length errs)%nat -> errs !! j = Some [])
  \/ exists j front q,
       errs !! j = Some (front :: q) /\
       forall j', (j' < j)%nat -> errs !! j' = Some [].
Proof.
  induction errs as [|q0 errs IH].
  - left. intros j Hj. simpl in Hj. lia.
  - destruct q0 as [|front q].
    + destruct IH as [Hall|(j & front & q & Hq & Hlow)].
      * left. intros [|j] Hj; [done|]. apply Hall. simpl in Hj. lia.
      * right. exists (S j), front, q. split; [done|].
        intros [|j'] Hj'; [done|]. apply Hlow. lia.
    + right. exists O, front, q. split; [done|]. intros j' Hj'. lia.
Qed.

Lemma no_errors_lookup (errs : list (list string)) :
  no_errors errs <-> forall j, (j < length errs)%nat -> errs !! j = Some [].
Proof.
  unfold no_errors. rewrite Forall_lookup. split.
  - intros H j Hj. destruct (lookup_lt_is_Some_2 errs j Hj) as [q Hq].
    by rewrite Hq, (H j q Hq).
  - intros H j q Hq. apply lookup_lt_Some in Hq as Hj.
    rewrite (H j Hj) in Hq. by simplify_eq.
Qed.

(** One error-checked scan, read off the list of queued errors. *)
Lemma check_errors_queued (errs : list (list string)) :
  match queued errs with
  | [] =>
      no_errors errs /\
      check_errors_from (length errs) 0 errs = Ok (None, errs)
  | (i, front) :: rest =>
      exists q,
        errs !! i = Some (front :: q) /\
        (forall j, (j < i)%nat -> errs !! j = Some []) /\
        check_errors_from (length errs) 0 errs
        = Ok (Some (i, front), <[i := q]> errs) /\
        queued (<[i := q]> errs) = rest
  end.
Proof.
  unfold queued.
  destruct (lowest_error errs) as [Hall|(j & front & q & Hq & Hlow)].
  - rewrite queued_from_empty by done. split; [by apply no_errors_lookup|].
    apply check_errors_from_clean. intros j Hj. apply Hall. lia.
  - rewrite (queued_from_first 0 j errs front q) by done. simpl.
    exists q. repeat split; try done.
    apply check_errors_from_first; try done.
    + apply lookup_lt_Some in Hq. lia.
    + intros j' Hj'. apply Hlow. lia.
Qed.

Lemma set_errors_same (p : ThreadPool) : set_errors (tl_errors_ p) p = p.
Proof. by destruct p. Qed.

Lemma no_errors_replicate (errs : list (list string)) :
  no_errors errs -> errs = replicate (length errs) [].
Proof.
  induction 1 as [|q errs Hq _ IH]; simpl; [done|]. by rewrite Hq, <- IH.
Qed.

Lemma WaitForWork_queued (p : ThreadPool) :
  work_complete_ p = true -> length (tl_errors_ p) = length (threads_ p) ->
  match queued (tl_errors_ p) with
  | [] => no_errors (tl_errors_ p) /\ WaitForWork true p = Ok (None, p)
  | (i, front) :: rest =>
      exists q,
        tl_errors_ p !! i = Some (front :: q) /\
        (forall j, (j < i)%nat -> tl_errors_ p !! j = Some []) /\
        WaitForWork true p
        = Ok (Some (i, front), set_errors (<[i := q]> (tl_errors_ p)) p) /\
        queued (<[i := q]> (tl_errors_ p)) = rest
  end.
Proof.
  intros Hc Hlen. unfold WaitForWork. rewrite Hc, <- Hlen.
  pose proof (check_errors_queued (tl_errors_ p)) as H.
  destruct (queued (tl_errors_ p)) as [|[i front] rest].
  - destruct H as [Hno ->]. simpl. by rewrite set_errors_same.
  - destruct H as (q & Hq & Hlow & -> & Hrest). by exists q.
Qed.

Lemma drain_all (k : nat) (p : ThreadPool) :
  work_complete_ p = true -> length (tl_errors_ p) = length (threads_ p) ->
  length (queued (tl_errors_ p)) = k ->
  drain k p
  = Ok (queued (tl_errors_ p),
        set_errors (replicate (length (tl_errors_ p)) []) p).
Proof.
  revert p. induction k as [|k IH]; intros p Hc Hlen Hk;
    pose proof (WaitForWork_queued p Hc Hlen) as H;
    destruct (queued (tl_errors_ p)) as [|[i front] rest]; simplify_eq/=.
  - destruct H as [Hno _].
    by rewrite <- (no_errors_replicate _ Hno), set_errors_same.
  - destruct H as (q & Hq & Hlow & -> & Hrest). simpl.
    rewrite IH; simpl; rewrite ?length_insert; try done; [|by rewrite Hrest].
    by rewrite Hrest.
Qed.

(** C2.  On a pool whose work is complete, with one error sequence per
    worker: WaitForWork(false) throws nothing and leaves the pool as it is.
    WaitForWork(true) throws nothing when every sequence is empty;
    otherwise it throws exactly the front [front] of the sequence of the
    lowest-indexed worker [i] that has one, and the pool afterwards differs
    only in that this one entry is gone, so that the queued errors are the
    former ones without their first.  Calling it once per queued error
    throws them all, by worker index and oldest first, and leaves a registry
    on which the next call throws nothing. *)
Theorem WaitForWork_reports_one_error (p : ThreadPool) :
  work_complete_ p = true -> length (tl_errors_ p) = length (threads_ p) ->
  WaitForWork false p = Ok (None, p) /\
  match queued (tl_errors_ p) with
  | [] => no_errors (tl_errors_ p) /\ WaitForWork true p = Ok (None, p)
  | (i, front) :: rest =>
      exists q,
        tl_errors_ p !! i = Some (front :: q) /\
        (forall j, (j < i)%nat -> tl_errors_ p !! j = Some []) /\
        WaitForWork true p
        = Ok (Some (i, front), set_errors (<[i := q]> (tl_errors_ p)) p) /\
        queued (<[i := q]> (tl_errors_ p)) = rest
  end /\
  let emptied := set_errors (replicate (length (tl_errors_ p)) []) p in
  drain (length (queued (tl_errors_ p))) p = Ok (queued (tl_errors_ p), emptied) /\
  WaitForWork true emptied = Ok (None, emptied).
Proof.
  intros Hc Hlen. split; [|split; [|split]].
  - unfold WaitForWork. by rewrite Hc.
  - by apply WaitForWork_queued.
  - by apply drain_all.
  - pose proof (WaitForWork_queued
      (set_errors (replicate (length (tl_errors_ p)) []) p)) as H.
    simpl in H. rewrite length_replicate in H. specialize (H Hc Hlen).
    unfold queued in H. rewrite queued_from_empty in H.
    + by destruct H.
    + intros j Hj. apply lookup_replicate_2. by rewrite length_replicate in Hj.
Qed.

(** ** Construction with an invalid thread count *)

(** A constructor call that returns has passed DALI_ENFORCE, and returns
    the pool in which no thread has been started yet. *)
Lemma ThreadPool_new_inr (max_size num_thread : Z) (p : ThreadPool) :
  ThreadPool_new max_size num_thread = inr p ->
  num_thread > 0 /\ p = ThreadPool_init (Z.to_nat num_thread).
Proof.
  unfold ThreadPool_new. intros H.
  destruct (_ >? max_size); [done|].
  destruct (num_thread >? 0) eqn:E; [|done].
  simplify_eq. split; [lia|done].
Qed.

(** C5.  For a thread count that is 0 or negative the constructor throws:
    no pool comes into being, and the loop that starts the threads is never
    entered.  The failure is that of DALI_ENFORCE, with its message, unless
    the member initialiser [threads_(num_thread)] has thrown before it,
    which it does for a negative count once the vector's [max_size] is
    below 2^64 - 2^31, as it is in every implementation. *)
Theorem ThreadPool_new_rejects_nonpositive (max_size num_thread : Z) :
  num_thread <= 0 ->
  (forall p, ThreadPool_new max_size num_thread <> inr p) /\
  (ThreadPool_new max_size num_thread
   = inl (EnforceFailed "Thread pool must have non-zero size")
   \/ ThreadPool_new max_size num_thread = inl VectorTooLong) /\
  (- 2 ^ 31 <= num_thread < 0 -> max_size < 2 ^ 64 - 2 ^ 31 ->
   ThreadPool_new max_size num_thread = inl VectorTooLong) /\
  (num_thread = 0 -> 0 <= max_size ->
   ThreadPool_new max_size num_thread
   = inl (EnforceFailed "Thread pool must have non-zero size")).
Proof.
  intros Hle. unfold ThreadPool_new.
  assert ((num_thread >? 0) = false) as -> by lia.
  repeat split.
  - intros p. by destruct (_ >? max_size).
  - destruct (_ >? max_size); auto.
  - intros Hneg Hmax.
    change (2 ^ 64) with 18446744073709551616 in *.
    change (2 ^ 31) with 2147483648 in *.
    replace (num_thread mod 18446744073709551616)
      with (num_thread + 18446744073709551616).
    + by assert ((num_thread + 18446744073709551616 >? max_size) = true) as -> by lia.
    + apply Z.mod_unique with (q := -1); lia.
  - intros -> Hmax.
    change (0 mod 2 ^ 64) with 0.
    by assert ((0 >? max_size) = false) as -> by lia.
Qed.

(** ** Steps, seen from the queue and from the history *)

(** A step leaves the queue alone, or is a DoWorkWithID that pushes at the
    back, or is the step of a waiting worker that pops the head, becomes
    the one worker holding that item and counts itself active. *)
Lemma exec_queue (a : action) (p p' : ThreadPool) :
  exec a p = Ok p' ->
  (work_queue_ p' = work_queue_ p /\
   dequeued (history p') = dequeued (history p) /\
   submitted (history p') = submitted (history p))
  \/ (exists w, a = Submit w /\ work_queue_ p' = work_queue_ p ++ [w] /\
        dequeued (history p') = dequeued (history p) /\
        submitted (history p') = submitted (history p) ++ [w])
  \/ (exists i w, a = Worker i /\
        threads_ p !! i = Some (Some Waiting) /\
        work_queue_ p = w :: work_queue_ p' /\
        threads_ p' !! i = Some (Some (Executing w)) /\
        active_threads_ p' = active_threads_ p + 1 /\
        dequeued (history p') = dequeued (history p) ++ [(i, w)] /\
        submitted (history p') = submitted (history p)).
Proof.
  intros H. destruct a; simpl in H.
  - destruct (owner p); try done. case_bool_decide; simplify_eq/=.
    left. by hist_simpl.
  - destruct (owner p); try done. case_bool_decide; simplify_eq/=. by left.
  - destruct (callable (owner p)); simplify_eq/=.
    right; left. exists w. by hist_simpl.
  - destruct (callable (owner p)); try done. unfold WaitForWork in H.
    destruct (work_complete_ p); try done.
    destruct checkForErrors; simpl in H; simplify_eq/=;
      [destruct (check_errors_from _ _ _) as [[??]| |]; simplify_eq/=|];
      left; by hist_simpl.
  - destruct (owner p); try done. unfold WaitForWork in H.
    destruct (work_complete_ p); simplify_eq/=. left; by hist_simpl.
  - destruct (owner p); simplify_eq/=. left; by hist_simpl.
  - destruct (owner p); try done.
    destruct (threads_ p !! k) as [[[]|]|]; simplify_eq/=. left; by hist_simpl.
  - destruct (owner p); try done. case_bool_decide; simplify_eq/=. by left.
  - destruct (threads_ p !! thread_id) as [[st|]|] eqn:Hi; try done.
    destruct st; simpl in H; unfold push_error in H; simpl in H.
    + destruct (caught _); [destruct (tl_errors_ p !! _)|]; simplify_eq/=;
        left; by hist_simpl.
    + destruct (running_ p); simplify_eq/=; left; by hist_simpl.
    + destruct (running_ p); simpl in H;
        [case_bool_decide; simpl in H;
         [done | destruct (work_queue_ p) as [|w q] eqn:Eq]|];
        simplify_eq/=; [|left; by hist_simpl].
      right; right. exists thread_id, w. hist_simpl.
      repeat split; try done. by rewrite (lookup_insert_at _ _ _ _ _ Hi), decide_True.
    + destruct (caught _); simplify_eq/=; left; by hist_simpl.
    + destruct (tl_errors_ p !! _); simplify_eq/=; left; by hist_simpl.
    + simplify_eq/=. left.
      destruct (_ && _); by hist_simpl.
    + done.
Qed.

(** A step only adds to the history. *)
Lemma exec_history (a : action) (p p' : ThreadPool) :
  exec a p = Ok p' -> exists h, history p' = history p ++ h.
Proof.
  intros H. destruct a; simpl in H;
    unfold WaitForWork, ThreadMain, push_error, bind in H;
    repeat (case_match; simplify_eq/=);
    rewrite <- ?app_assoc; try (by eexists);
    exists []; by rewrite app_nil_r.
Qed.

Lemma total_insert {A} (f : A -> nat) (l : list A) (i : nat) (x y : A) :
  l !! i = Some x ->
  (total f (<[i := y]> l) + f x = total f l + f y)%nat.
Proof.
  revert i. induction l as [|a l IH]; intros [|i] H; simplify_eq/=.
  - lia.
  - specialize (IH _ H). lia.
Qed.

Lemma total_pos {A} (f : A -> nat) (l : list A) :
  (0 < total f l)%nat -> exists i x, l !! i = Some x /\ (0 < f x)%nat.
Proof.
  induction l as [|a l IH]; simpl; [lia|].
  destruct (decide (0 < f a)%nat).
  - intros _. by exists O, a.
  - intros H. destruct IH as (i & x & ? & ?); [lia|]. by exists (S i), x.
Qed.

Lemma total_zero {A} (f : A -> nat) (l : list A) (i : nat) (x : A) :
  total f l = O -> l !! i = Some x -> f x = O.
Proof.
  revert i. induction l as [|a l IH]; intros [|i] H0 H; simplify_eq/=.
  - lia.
  - apply (IH i); [lia|done].
Qed.

(** A step of a worker does not touch the owner's state or the flag
    [running_]. *)
Lemma ThreadMain_frame (i : nat) (st : wstate) (p p' : ThreadPool) :
  ThreadMain i st p = Ok p' ->
  owner p' = owner p /\ late_submits p' = late_submits p /\
  running_ p' = running_ p.
Proof.
  intros H. destruct st; simpl in H; unfold push_error in H; simpl in H;
    repeat (case_match; simplify_eq/=); done.
Qed.

(** Steps other than DoWorkWithID submit nothing. *)
Lemma exec_frame (a : action) (p p' : ThreadPool) :
  (forall w, a <> Submit w) -> exec a p = Ok p' ->
  submitted (history p') = submitted (history p) /\
  late_submits p' = late_submits p.
Proof.
  intros Ha H. split.
  - apply exec_queue in H as [(_ & _ & ?)|[(w & -> & _)|(i & w & _ & _ & _ & _ & _ & _ & ?)]];
      try done. by destruct (Ha w).
  - destruct a; simpl in H; try (by destruct (Ha w));
      unfold WaitForWork, bind in H;
      repeat (case_match; simplify_eq/=); try done.
    by eapply ThreadMain_frame.
Qed.

Lemma run_frame (sched : list action) (p p' : ThreadPool) :
  forallb (fun a => negb (is_submit a)) sched = true -> run sched p = Ok p' ->
  submitted (history p') = submitted (history p) /\
  late_submits p' = late_submits p.
Proof.
  revert p. induction sched as [|a sched IH]; intros p Hs H; simpl in *.
  - by simplify_eq.
  - apply andb_true_iff in Hs as [Ha Hs].
    destruct (exec a p) as [p1| |] eqn:E; simplify_eq/=.
    apply exec_frame in E as [E1 E2]; [|by intros w ->].
    apply IH in H as [H1 H2]; [|done]. split; congruence.
Qed.

Lemma run_cons (a : action) (sched : list action) (p : ThreadPool) :
  run (a :: sched) p = bind (exec a p) (run sched).
Proof. done. Qed.

Ltac effort_of f Hi :=
  match goal with
  | |- context [total f (<[?i := ?y]> ?l)] =>
      let C := fresh "Htotal" in
      pose proof (total_insert f l i _ y Hi) as C; simpl in C;
      generalize dependent (total f (<[i := y]> l)); intros
  end.

Lemma run_app_ok (s1 s2 : list action) (p q : ThreadPool) :
  run s1 p = Ok q -> run (s1 ++ s2) p = run s2 q.
Proof. intros H. by rewrite run_app, H. Qed.

(** In a drained and idle pool every item submitted so far has been popped,
    called by the worker that popped it, and finished: each exactly once. *)
Lemma drained_all_run (n : nat) (p : ThreadPool) :
  reachable n p -> work_queue_ p = [] -> active_threads_ p = 0 ->
  (dequeued (history p)).*2 = submitted (history p) /\
  executed (history p) ≡ₚ dequeued (history p) /\
  length (finished (history p)) = length (submitted (history p)).
Proof.
  intros R Hq Ha.
  destruct (reachable_Hist n p R) as [Gfifo Gexec Gdone _ _ _].
  pose proof (inv_active n p (reachable_Inv n p R)) as Hactive.
  assert (Hidle : count busy (threads_ p) = O) by lia.
  rewrite Hq, app_nil_r in Gfifo.
  rewrite (in_flight_idle _ _ Hidle), app_nil_r in Gexec.
  rewrite Hidle, Nat.add_0_r in Gdone.
  repeat split; [done|done|].
  by rewrite <- Gdone, <- Gfifo, length_fmap.
Qed.

(** Once [running_] is false and no worker holds an item, a worker that
    has not returned yet can take a step towards returning. *)
Lemma wind_down_step (n k : nat) (p : ThreadPool) :
  reachable n p -> owner p = Joining k -> active_threads_ p = 0 ->
  (0 < total exit_effort (threads_ p))%nat ->
  exists i p',
    exec (Worker i) p = Ok p' /\ active_threads_ p' = 0 /\
    (total exit_effort (threads_ p') < total exit_effort (threads_ p))%nat.
Proof.
  intros R Ho Ha Hpos.
  destruct (reachable_Inv n p R)
    as [Hsize Hstarted Hspawned Hunspawned Herrors Hactive Hcomplete
        Hrunning Hterm Hjoined Hquiet Hearly].
  rewrite Ho in *.
  destruct (total_pos exit_effort (threads_ p) Hpos) as (i & t & Hi & Ht).
  destruct (lookup_lt_is_Some_2 (tl_errors_ p) i) as [q0 Hq0].
  { apply lookup_lt_Some in Hi. lia. }
  exists i. simpl. rewrite Hi.
  destruct t as [[]|]; simpl in *; try lia.
  - unfold push_error. simpl. rewrite Hq0.
    destruct (caught (initializer i)); eexists; (split; [done|]); simpl;
      (split; [done|]); effort_of exit_effort Hi; lia.
  - rewrite Hrunning. eexists; split; [done|]. simpl.
    split; [done|]. effort_of exit_effort Hi; lia.
  - rewrite Hrunning. simpl. eexists; split; [done|]. simpl.
    split; [done|]. effort_of exit_effort Hi; lia.
Qed.

(** With every worker returned, the join loop runs to its end. *)
Lemma join_all (n d k : nat) (p : ThreadPool) :
  length (threads_ p) = n -> owner p = Joining k -> (k + d = n)%nat ->
  (forall j, (j < n)%nat -> threads_ p !! j = Some (Some Terminated)) ->
  exists q,
    run (replicate d DtorJoin ++ [DtorRelease]) p = Ok q /\
    owner q = Destroyed /\ threads_ q = threads_ p.
Proof.
  revert k p. induction d as [|d IH]; intros k p Hsize Ho Hk Hall.
  - simpl. rewrite Ho. rewrite bool_decide_eq_false_2 by lia.
    by eexists.
  - change (replicate (S d) DtorJoin ++ [DtorRelease])
      with (DtorJoin :: (replicate d DtorJoin ++ [DtorRelease])).
    rewrite run_cons. simpl exec. rewrite Ho, (Hall k) by lia. simpl bind.
    destruct (IH (S k) (log (EvJoin k) (set_owner (Joining (S k)) p)))
      as (q & Hrun & Hoq & Hq); try done; [lia|].
    by exists q.
Qed.

(** ** Steps, seen from the threads *)


(** Only a worker's own step changes its entry of the thread table. *)
Lemma exec_other_thread (n i : nat) (a : action) (st : wstate) (p p' : ThreadPool) :
  reachable n p -> exec a p = Ok p' -> a <> Worker i ->
  threads_ p !! i = Some (Some st) -> threads_ p' !! i = Some (Some st).
Proof.
  intros R H Ha Hi.
  pose proof (inv_unspawned n p (reachable_Inv n p R)) as Hun.
  pose proof (inv_size n p (reachable_Inv n p R)) as Hsize.
  unfold started in Hun.
  destruct a; simpl in H.
  - destruct (owner p) as [k| | | |]; try done.
    case_bool_decide; simplify_eq/=.
    rewrite list_lookup_insert_ne; [done|]. intros ->.
    rewrite Hun in Hi by lia. done.
  - destruct (owner p); try done. case_bool_decide; by simplify_eq/=.
  - destruct (callable (owner p)); by simplify_eq/=.
  - destruct (callable (owner p)); try done. unfold WaitForWork in H.
    destruct (work_complete_ p); try done.
    destruct checkForErrors; simpl in H; simplify_eq/=; [|done].
    by destruct (check_errors_from _ _ _) as [[??]| |]; simplify_eq/=.
  - destruct (owner p); try done. unfold WaitForWork in H.
    by destruct (work_complete_ p); simplify_eq/=.
  - by destruct (owner p); simplify_eq/=.
  - destruct (owner p); try done.
    by destruct (threads_ p !! k) as [[[]|]|]; simplify_eq/=.
  - destruct (owner p); try done. case_bool_decide; by simplify_eq/=.
  - destruct (threads_ p !! thread_id) as [[st'|]|] eqn:Hj; try done.
    rewrite (ThreadMain_threads thread_id i st' p p' H); [done|].
    by intros ->.
Qed.

(** ** When a worker leaves its loop *)

(** C7.  A worker leaves its loop only in a state in which [running_] is
    false.  It does not look at the queue when it does: once [running_] is
    false, a worker at the head of the loop or in the wait returns from
    ThreadMain whatever is queued, and the queue stays as it is.  While
    [running_] is true a waiting worker that finds the queue non-empty
    pops its head.  When nothing was submitted after the destructor's wait
    returned, the queue is empty whenever [running_] is false. *)
Theorem worker_exits_only_when_stopped (n i : nat) (p : ThreadPool) :
  reachable n p ->
  (forall p', exec (Worker i) p = Ok p' ->
     threads_ p' !! i = Some (Some Terminated) ->
     running_ p = false /\ (late_submits p = O -> work_queue_ p = [])) /\
  (running_ p = true -> forall w q,
     threads_ p !! i = Some (Some Waiting) -> work_queue_ p = w :: q ->
     exists p', exec (Worker i) p = Ok p' /\ work_queue_ p' = q /\
       threads_ p' !! i = Some (Some (Executing w))) /\
  (running_ p = false -> forall st,
     threads_ p !! i = Some (Some st) -> st = LoopHead \/ st = Waiting ->
     exists p', exec (Worker i) p = Ok p' /\
       threads_ p' !! i = Some (Some Terminated) /\
       work_queue_ p' = work_queue_ p).
Proof.
  intros R. pose proof (reachable_Inv n p R) as I.
  split; [|split].
  - intros p' H Ht.
    assert (Hr : running_ p = false).
    { apply (reachable_step n _ _ _ R) in H as R'.
      simpl in H. destruct (threads_ p !! i) as [[st|]|] eqn:Hi; try done.
      apply ThreadMain_frame in H as (_ & _ & <-).
      by apply (inv_term n p' (reachable_Inv n p' R') i). }
    split; [done|]. intros Hl.
    pose proof (inv_running n p I) as Hrun. rewrite Hr in Hrun.
    apply (inv_quiet n p I Hl). by destruct (owner p).
  - intros Hr w q Hi Hq. simpl. rewrite Hi. simpl. rewrite Hr, Hq. simpl.
    eexists. split; [done|]. simpl.
    by rewrite (lookup_insert_at _ _ _ _ _ Hi), decide_True.
  - intros Hr st Hi [-> | ->]; simpl; rewrite Hi; simpl; rewrite Hr; simpl;
      (eexists; split; [done|]); simpl;
      by rewrite (lookup_insert_at _ _ _ _ _ Hi), decide_True.
Qed.

Lemma append_nil_r (s : string) : s +:+ "" = s.
Proof.
  induction s as [|c s IH]; [done|].
  change (String c (s +:+ "") = String c s). by f_equal.
Qed.

Lemma append_assoc (s1 s2 s3 : string) :
  (s1 +:+ s2) +:+ s3 = s1 +:+ s2 +:+ s3.
Proof.
  induction s1 as [|c s1 IH]; [done|].
  change (String c ((s1 +:+ s2) +:+ s3) = String c (s1 +:+ s2 +:+ s3)).
  by f_equal.
Qed.

(** The text WaitForWork throws names the worker and repeats the message. *)
Lemma error_text_contains (i : nat) (msg : string) :
  contains (to_string i) (error_text i msg) /\ contains msg (error_text i msg).
Proof.
  split.
  - by exists "Error in thread ", (": " +:+ msg).
  - exists ("Error in thread " +:+ to_string i +:+ ": "), "".
    unfold error_text. by rewrite append_nil_r, !append_assoc.
Qed.

Lemma reported_none (i : nat) (h : list event) :
  all_reported h = [] -> reported i h = [].
Proof.
  induction h as [|e h IH]; [done|].
  destruct e as [| | | | | | |c [[j msg]|]| | |]; simpl; try done.
Qed.

(** When the work is complete, the queued errors of a worker are its
    failures without those already thrown. *)
Lemma failures_when_complete (n i : nat) (p : ThreadPool) :
  reachable n p -> work_complete_ p = true ->
  failures i (history p) = reported i (history p) ++ tl_errors_ p !!! i.
Proof.
  intros R Hc.
  apply (complete_iff n p R) in Hc as [_ Ha].
  pose proof (inv_active n p (reachable_Inv n p R)) as Hactive.
  assert (Hidle : count busy (threads_ p) = O) by lia.
  rewrite (hist_fail n p (reachable_Hist n p R) i).
  destruct (threads_ p !! i) as [t|] eqn:Hi; simpl; [|by rewrite app_nil_r].
  pose proof (count_zero busy _ _ _ Hidle Hi) as Hb.
  destruct t as [[]|]; simpl in *; try done; by rewrite app_nil_r.
Qed.

Lemma reported_one (i k : nat) (M : string) (h : list event) :
  all_reported h = [(k, M)] ->
  reported i h = if bool_decide (k = i) then [M] else [].
Proof.
  induction h as [|e h IH]; [done|].
  destruct e as [| | | | | | |c [[j msg]|]| | |]; simpl; try done.
  intros H. simplify_eq. rewrite (reported_none i h) by done.
  by destruct (bool_decide (k = i)).
Qed.

(** The registry of a pool that can be called has one sequence per
    worker. *)
Lemma callable_registry (n : nat) (p : ThreadPool) :
  reachable n p -> callable (owner p) = true ->
  length (tl_errors_ p) = length (threads_ p).
Proof.
  intros R Hcall. pose proof (reachable_Inv n p R) as I.
  pose proof (inv_errors n p I) as He. rewrite (inv_size n p I).
  by destruct (owner p).
Qed.

(** C8.  Let the work be complete, let an item have failed with message
    [M] in worker [k], let this be the only failure raised in any worker so
    far, and let no WaitForWork have thrown yet.  Then WaitForWork(true)
    throws the error of worker [k] with message [M], whose text contains the
    index [k] and the message [M]; and a second WaitForWork(true), called
    right after it, throws nothing and leaves the pool as it is.  So does
    WaitForWork(true) in any later state of the pool in which the work is
    complete, no further failure has been raised and only that one error
    has been thrown. *)
Theorem single_failure_surfaces_once (n k : nat) (w : Work) (M : string)
    (p : ThreadPool) :
  reachable n p -> work_complete_ p = true ->
  In (EvExec k w (ThrowsRuntimeError M)) (history p) ->
  (forall i, failures i (history p) = if bool_decide (i = k) then [M] else []) ->
  all_reported (history p) = [] ->
  (exists p1,
     WaitForWork true p = Ok (Some (k, M), p1) /\
     thrown (Some (k, M)) = Some (error_text k M) /\
     contains (to_string k) (error_text k M) /\
     contains M (error_text k M) /\
     WaitForWork true p1 = Ok (None, p1)) /\
  (forall p2,
     reachable n p2 -> callable (owner p2) = true ->
     work_complete_ p2 = true ->
     (forall i, failures i (history p2) = failures i (history p)) ->
     all_reported (history p2) = [(k, M)] ->
     WaitForWork true p2 = Ok (None, p2)).
Proof.
  intros R Hc _ Hfail Hrep. split.
  - assert (Hreg : forall i,
      tl_errors_ p !!! i = if bool_decide (i = k) then [M] else []).
    { intros i. rewrite <- Hfail, (failures_when_complete n i p R Hc).
      by rewrite (reported_none i _ Hrep). }
    assert (Hk : tl_errors_ p !! k = Some [M]).
    { specialize (Hreg k). rewrite bool_decide_eq_true_2 in Hreg by done.
      rewrite list_lookup_total_alt in Hreg.
      destruct (tl_errors_ p !! k); simplify_eq/=; done. }
    assert (Hother : forall j, j <> k -> (j < length (tl_errors_ p))%nat ->
      tl_errors_ p !! j = Some []).
    { intros j Hj Hlt. rewrite (list_lookup_lookup_total_lt _ _ Hlt), Hreg.
      by rewrite bool_decide_eq_false_2. }
    assert (Hlen : length (tl_errors_ p) = length (threads_ p)).
    { pose proof (inv_errors n p (reachable_Inv n p R)) as He.
      rewrite (inv_size n p (reachable_Inv n p R)).
      destruct (owner p); try done. by rewrite He in Hk. }
    apply lookup_lt_Some in Hk as Hlt.
    exists (set_errors (<[k := []]> (tl_errors_ p)) p).
    destruct (error_text_contains k M) as [Hck HcM].
    repeat split; try done.
    + unfold WaitForWork. rewrite Hc, <- Hlen.
      rewrite (check_errors_from_first _ 0 k _ M []); try done; [lia|].
      intros j Hj. apply Hother; lia.
    + unfold WaitForWork. simpl. rewrite Hc, <- Hlen.
      rewrite check_errors_from_clean.
      * done.
      * intros j Hj.
        destruct (decide (j = k)) as [->|Hne].
        -- by apply list_lookup_insert_eq.
        -- rewrite list_lookup_insert_ne by done. apply Hother; [done|lia].
  - intros p2 R2 Hcall2 Hc2 Hfail2 Hrep2.
    assert (Hreg : forall i, tl_errors_ p2 !!! i = []).
    { intros i.
      pose proof (failures_when_complete n i p2 R2 Hc2) as H.
      rewrite Hfail2, Hfail, (reported_one i k M _ Hrep2) in H.
      destruct (decide (i = k)) as [->|Hne].
      - rewrite !bool_decide_eq_true_2 in H by done.
        by destruct (tl_errors_ p2 !!! k).
      - rewrite !bool_decide_eq_false_2 in H by done. done. }
    pose proof (callable_registry n p2 R2 Hcall2) as Hlen.
    unfold WaitForWork. rewrite Hc2, <- Hlen.
    rewrite check_errors_from_clean.
    + simpl. by rewrite set_errors_same.
    + intros j Hj.
      rewrite (list_lookup_lookup_total_lt (tl_errors_ p2) j) by lia.
      by rewrite Hreg.
Qed.

(** ** A fresh pool *)

Lemma failures_of_inits (i : nat) (h : list event) :
  executed h = [] -> failures i h = omap caught (inits i h).
Proof.
  induction h as [|e h IH]; [done|].
  destruct e; simpl; try done.
  destruct (bool_decide (i0 = i)); simpl; [|done].
  intros He. rewrite (IH He). by destruct (caught o).
Qed.

(** A pool to which nothing was ever submitted is drained and idle, and
    the failures recorded in it are those of the initializer. *)
Lemma fresh_pool (n : nat) (p : ThreadPool) :
  reachable n p -> submitted (history p) = [] ->
  work_complete_ p = true /\
  forall i e, e ∈ tl_errors_ p !!! i -> caught (initializer i) = Some e.
Proof.
  intros R Hs.
  destruct (reachable_Hist n p R) as [Gfifo Gexec Gdone Gfail _ Ginit].
  rewrite Hs in Gfifo. apply app_eq_nil in Gfifo as [Hd Hq].
  apply fmap_nil_inv in Hd. rewrite Hd in Gexec, Gdone. simpl in Gdone.
  symmetry in Gexec. apply Permutation_nil_r in Gexec.
  apply app_eq_nil in Gexec as [He _].
  assert (Hc : work_complete_ p = true).
  { apply (complete_iff n p R). split; [done|].
    rewrite (inv_active n p (reachable_Inv n p R)). lia. }
  split; [done|]. intros i e Hin.
  assert (Hf : e ∈ failures i (history p)).
  { rewrite (failures_when_complete n i p R Hc). apply elem_of_app. by right. }
  rewrite (failures_of_inits i _ He), (Ginit i) in Hf.
  destruct (in_loop _); simpl in Hf; [|by apply elem_of_nil in Hf].
  destruct (caught (initializer i)).
  - apply list_elem_of_singleton in Hf. by subst.
  - by apply elem_of_nil in Hf.
Qed.

(** The constructor's loop and its resize run to the end. *)
Lemma ctor_completes (n d k : nat) (p : ThreadPool) :
  length (threads_ p) = n -> owner p = Constructing k -> (k + d = n)%nat ->
  exists q, run (replicate d CtorSpawn ++ [CtorResize]) p = Ok q /\ owner q = Alive.
Proof.
  revert k p. induction d as [|d IH]; intros k p Hsize Ho Hk.
  - simpl. rewrite Ho. rewrite bool_decide_eq_false_2 by lia. by eexists.
  - change (replicate (S d) CtorSpawn ++ [CtorResize])
      with (CtorSpawn :: (replicate d CtorSpawn ++ [CtorResize])).
    rewrite run_cons. simpl exec. rewrite Ho.
    rewrite bool_decide_eq_true_2 by lia. simpl bind.
    apply (IH (S k)); simpl; [by rewrite length_insert|done|lia].
Qed.

Lemma run_other_thread (n i : nat) (sched : list action) (st : wstate)
    (p q : ThreadPool) :
  reachable n p -> run sched p = Ok q ->
  Forall (fun a => a <> Worker i) sched ->
  threads_ p !! i = Some (Some st) -> threads_ q !! i = Some (Some st).
Proof.
  revert p. induction sched as [|a sched IH]; intros p R H Hs Hi.
  - simpl in H. by simplify_eq.
  - rewrite run_cons in H. destruct (exec a p) as [p1| |] eqn:E; simplify_eq/=.
    apply Forall_cons in Hs as [Ha Hs].
    apply (IH p1); try done; [by eapply reachable_step|].
    by eapply exec_other_thread.
Qed.

(** C10.  The constructor initialises [work_complete_] to true.  On a pool
    that can be called and to which nothing was ever submitted the flag is
    still true, so WaitForWork is not blocked: without error checking it
    returns and changes nothing, and with error checking it returns or
    throws, and what it throws is a failure of the initializer recorded by
    a worker.  That does happen: with at least one worker and an
    initializer that fails in worker 0, there is such a pool on which
    WaitForWork(true) throws that failure. *)
Theorem fresh_pool_wait_returns (n : nat) :
  work_complete_ (ThreadPool_init n) = true /\
  (forall p, reachable n p -> callable (owner p) = true ->
     submitted (history p) = [] ->
     work_complete_ p = true /\
     WaitForWork false p = Ok (None, p) /\
     exists r p', WaitForWork true p = Ok (r, p') /\
       forall i e, r = Some (i, e) -> caught (initializer i) = Some e) /\
  (forall msg, (0 < n)%nat -> caught (initializer 0) = Some msg ->
     exists q q', reachable n q /\ owner q = Alive /\
       submitted (history q) = [] /\
       WaitForWork true q = Ok (Some (0%nat, msg), q')).
Proof.
  split; [done|]. split.
  - intros p R Hcall Hs.
    destruct (fresh_pool n p R Hs) as [Hc Hinit].
    split; [done|]. split; [unfold WaitForWork; by rewrite Hc|].
    pose proof (reachable_Inv n p R) as I.
    assert (Hlen : length (tl_errors_ p) = length (threads_ p)).
    { pose proof (inv_errors n p I) as He. rewrite (inv_size n p I).
      by destruct (owner p). }
    unfold WaitForWork. rewrite Hc.
    destruct (check_errors_from_defined (length (threads_ p)) 0 (tl_errors_ p))
      as [[r errs'] Hscan]; [lia|].
    rewrite Hscan. simpl. eexists _, _. split; [done|].
    intros i e ->.
    apply check_errors_from_inv in Hscan
      as [(? & _)|(j & f & q & ? & _ & Hq & _)]; simplify_eq.
    apply Hinit. rewrite (list_lookup_total_correct _ _ _ Hq).
    apply list_elem_of_here.
  - intros msg Hn Hmsg. destruct n as [|n']; [lia|].
    set (p1 := log (EvSpawn 0)
                 (set_owner (Constructing 1)
                    (set_thread 0 Initializing (ThreadPool_init (S n'))))).
    assert (E1 : exec CtorSpawn (ThreadPool_init (S n')) = Ok p1) by done.
    assert (R1 : reachable (S n') p1).
    { eapply reachable_step; [apply reachable_init|done]. }
    destruct (ctor_completes (S n') n' 1 p1) as (q & Hrun & Hoq);
      [simpl; by rewrite length_replicate|done|lia|].
    assert (Rq : reachable (S n') q) by by eapply reachable_run.
    assert (Hi : threads_ q !! O = Some (Some Initializing)).
    { eapply (run_other_thread (S n') 0 _ _ p1 q R1 Hrun); [|done].
      apply Forall_app. split; [|by repeat constructor].
      apply Forall_replicate. done. }
    pose proof (reachable_Inv (S n') q Rq) as Iq.
    pose proof (inv_errors (S n') q Iq) as Hlen. rewrite Hoq in Hlen.
    destruct (lookup_lt_is_Some_2 (tl_errors_ q) O) as [q0 Hq0]; [lia|].
    set (q' := log (EvRecord 0 msg)
                 (set_errors (<[O := q0 ++ [msg]]> (tl_errors_ q))
                    (log (EvInit 0 (initializer 0))
                       (set_thread 0 LoopHead q)))).
    assert (E2 : exec (Worker 0) q = Ok q').
    { simpl. rewrite Hi. simpl. rewrite Hmsg. unfold push_error. simpl.
      by rewrite Hq0. }
    assert (Rq' : reachable (S n') q') by by eapply reachable_step.
    assert (Hs : submitted (history q') = []).
    { apply (run_frame (CtorSpawn :: (replicate n' CtorSpawn ++ [CtorResize])
                          ++ [Worker 0]) (ThreadPool_init (S n')) q').
      - simpl. rewrite forallb_app. simpl. rewrite andb_true_r.
        clear. by induction n'.
      - rewrite run_cons, E1. simpl bind.
        by rewrite (run_app_ok _ _ _ _ Hrun), run_cons, E2. }
    destruct (fresh_pool (S n') q' Rq' Hs) as [Hc Hinit].
    assert (Hfront : exists e rest, q0 ++ [msg] = e :: rest).
    { destruct q0; simpl; eauto. }
    destruct Hfront as (e & rest & Hfront).
    assert (Hreg : tl_errors_ q' !! O = Some (e :: rest)).
    { simpl. rewrite <- Hfront. apply list_lookup_insert_eq. lia. }
    assert (He : e = msg).
    { specialize (Hinit O e). rewrite (list_lookup_total_correct _ _ _ Hreg) in Hinit.
      rewrite Hmsg in Hinit. specialize (Hinit (list_elem_of_here _ _)).
      by simplify_eq. }
    subst e. exists q'. eexists. repeat split; [done|done|done|].
    unfold WaitForWork. rewrite Hc.
    rewrite (check_errors_from_first _ 0 0 _ msg rest); try done.
    + simpl. rewrite length_insert. pose proof (inv_size _ _ Iq). lia.
    + intros j' Hj'. lia.
Qed.

(** ** Capturing failures *)

(** No worker holds an item while the constructor is running. *)
Lemma constructing_idle (n k i : nat) (t : option wstate) (p : ThreadPool) :
  reachable n p -> owner p = Constructing k -> threads_ p !! i = Some t ->
  busy t = false.
Proof.
  intros R Ho Hi. pose proof (reachable_Inv n p R) as I.
  pose proof (inv_early n p I) as Hl. rewrite Ho in Hl.
  destruct (inv_quiet n p I Hl) as [_ Ha]; [by rewrite Ho|].
  rewrite (inv_active n p I) in Ha.
  apply (count_zero busy (threads_ p) i); [lia|done].
Qed.

(** A failure of an item is caught in the worker that called the item: the
    worker goes to its handler with the description of the failure, that of
    an unknown exception when the failure is not a std::runtime_error, and
    nothing else changes. *)
Lemma item_failure_caught (n i : nat) (w : Work) (msg : string) (p : ThreadPool) :
  reachable n p -> threads_ p !! i = Some (Some (Executing w)) ->
  caught (w i) = Some msg ->
  exec (Worker i) p
  = Ok (set_thread i (Caught msg) (log (EvExec i w (w i)) p)).
Proof. intros _ Hi Hc. simpl. rewrite Hi. simpl. by rewrite Hc. Qed.

(** The handler appends the description to the error sequence of its own
    worker, leaves the other sequences and the other workers as they are,
    and the worker goes on to finish the iteration of its loop. *)
Lemma caught_failure_recorded (n i : nat) (msg : string) (p : ThreadPool) :
  reachable n p -> threads_ p !! i = Some (Some (Caught msg)) ->
  exists q,
    tl_errors_ p !! i = Some q /\
    exec (Worker i) p
    = Ok (log (EvRecord i msg)
            (set_errors (<[i := q ++ [msg]]> (tl_errors_ p))
               (set_thread i Finishing p))).
Proof.
  intros R Hi. pose proof (reachable_Inv n p R) as I.
  assert (Hlen : length (tl_errors_ p) = n).
  { pose proof (inv_errors n p I) as He.
    destruct (owner p) as [k| | | |] eqn:Ho; try done.
    by pose proof (constructing_idle n k i _ p R Ho Hi). }
  destruct (lookup_lt_is_Some_2 (tl_errors_ p) i) as [q Hq].
  { apply lookup_lt_Some in Hi. rewrite (inv_size n p I) in Hi. lia. }
  exists q. split; [done|]. simpl. rewrite Hi. simpl.
  unfold push_error. simpl. by rewrite Hq.
Qed.

(** Once the constructor has returned, a failure of the initializer is
    appended to the error sequence of its worker, and the worker enters its
    loop. *)
Lemma initializer_failure_recorded (n i : nat) (msg : string) (p : ThreadPool) :
  reachable n p -> callable (owner p) = true ->
  threads_ p !! i = Some (Some Initializing) ->
  caught (initializer i) = Some msg ->
  exists q,
    tl_errors_ p !! i = Some q /\
    exec (Worker i) p
    = Ok (log (EvRecord i msg)
            (set_errors (<[i := q ++ [msg]]> (tl_errors_ p))
               (log (EvInit i (initializer i)) (set_thread i LoopHead p)))).
Proof.
  intros R Hcall Hi Hc. pose proof (reachable_Inv n p R) as I.
  assert (Hlen : length (tl_errors_ p) = n).
  { pose proof (inv_errors n p I) as He. by destruct (owner p). }
  destruct (lookup_lt_is_Some_2 (tl_errors_ p) i) as [q Hq].
  { apply lookup_lt_Some in Hi. rewrite (inv_size n p I) in Hi. lia. }
  exists q. split; [done|]. simpl. rewrite Hi. simpl. rewrite Hc.
  unfold push_error. simpl. by rewrite Hq.
Qed.

(** While the constructor is still in its loop, [tl_errors_] is the empty
    vector: the handler of a failing initializer indexes it out of range. *)
Lemma initializer_failure_during_construction (n k i : nat) (msg : string)
    (p : ThreadPool) :
  reachable n p -> owner p = Constructing k ->
  threads_ p !! i = Some (Some Initializing) ->
  caught (initializer i) = Some msg ->
  exec (Worker i) p = Undefined.
Proof.
  intros R Ho Hi Hc. pose proof (inv_errors n p (reachable_Inv n p R)) as He.
  rewrite Ho in He. simpl. rewrite Hi. simpl. rewrite Hc.
  unfold push_error. simpl. by rewrite He.
Qed.

(** When the constructor has returned it has started the threads
    0, ..., n-1, once each, and there is one error sequence per worker; a
    worker in its loop has run the initializer exactly once, a worker not
    yet there has not run it. *)
Lemma construction_spawns_all (n : nat) (p : ThreadPool) :
  reachable n p -> callable (owner p) = true ->
  size p = n /\ spawned (history p) = seq 0 n /\
  length (tl_errors_ p) = n /\
  forall i, (i < n)%nat ->
    exists st, threads_ p !! i = Some (Some st) /\
      inits i (history p)
      = if in_loop (threads_ p !! i) then [initializer i] else [].
Proof.
  intros R Hcall.
  destruct (reachable_Inv n p R)
    as [Hsize _ Hspawned _ Herrors _ _ _ _ _ _ _].
  destruct (reachable_Hist n p R) as [_ _ _ _ Gspawn Ginit].
  unfold started, size in *.
  destruct (owner p); try done; rewrite Gspawn, Hsize;
    (repeat split; try done); intros i Hi;
    (destruct (Hspawned i) as [st Hst]; [lia|]); exists st; by rewrite Ginit.
Qed.

(** * Further properties of the pool *)

(** ** The thread count *)

(** X1.  A constructor call that returns was given a positive thread count,
    and from then on, whatever is submitted, run or waited for, and in the
    destructor too, [size()] returns that count: the thread table never
    changes its length, and the conversion of its length to [int] is exact
    because the count came in as an [int]. *)
Theorem size_returns_thread_count (max_size num_thread : Z)
    (sched : list action) (p0 p : ThreadPool) :
  - 2 ^ 31 <= num_thread < 2 ^ 31 ->
  ThreadPool_new max_size num_thread = inr p0 ->
  run sched p0 = Ok p ->
  0 < num_thread /\ size p = Z.to_nat num_thread /\
  size_returned p = num_thread.
Proof.
  intros Hint Hnew Hrun.
  apply ThreadPool_new_inr in Hnew as [Hpos ->].
  assert (R : reachable (Z.to_nat num_thread) p) by by exists sched.
  pose proof (inv_size _ _ (reachable_Inv _ _ R)) as Hs.
  split; [lia|]. split; [done|].
  unfold size_returned, size. rewrite Hs, Z2Nat.id by lia.
  change (2 ^ 31) with 2147483648 in *. change (2 ^ 32) with 4294967296.
  rewrite Z.mod_small; lia.
Qed.

(** ** The counter of active workers *)

Lemma count_le_length {A} (f : A -> bool) (l : list A) :
  (count f l <= length l)%nat.
Proof. induction l as [|x l IH]; simpl; [lia|]. destruct (f x); lia. Qed.

(** X2.  [active_threads_] is the number of workers that have popped an
    item and not yet passed the decrement of line 151: it is never
    negative and never above the thread count.  Every item submitted so far
    is in the queue, held by such a worker, or finished: the three counts
    add up to the number of submissions. *)
Theorem active_threads_counts_held_items (n : nat) (p : ThreadPool) :
  reachable n p ->
  active_threads_ p = Z.of_nat (count busy (threads_ p)) /\
  0 <= active_threads_ p <= Z.of_nat n /\
  Z.of_nat (length (submitted (history p)))
  = Z.of_nat (length (work_queue_ p)) + active_threads_ p
    + Z.of_nat (length (finished (history p))).
Proof.
  intros R.
  pose proof (reachable_Inv n p R) as I.
  destruct (reachable_Hist n p R) as [Gfifo _ Gdone _ _ _].
  pose proof (inv_active n p I) as Hactive.
  pose proof (inv_size n p I) as Hsize.
  pose proof (count_le_length busy (threads_ p)) as Hle.
  split; [done|]. split; [lia|].
  rewrite <- Gfifo, length_app, length_fmap, Gdone, Hactive. lia.
Qed.

(** ** Accesses out of range *)

(** X3.  A step is [Undefined] here when it indexes a vector out of its
    range or takes the front of an empty queue.  The only step of any
    thread that does so, in any state the pool can reach, is the handler of
    a failed initializer that runs while the constructor is still in its
    loop, before line 50 has resized [tl_errors_].  Every other access is
    in range: [threads_[i]] in the constructor, [tl_errors_[i]] in
    WaitForWork and in the handlers of work items, and [front()] and
    [pop()] on the work queue, which a worker reaches only with a
    non-empty queue.  This is about the range of the accesses only: the
    steps are atomic here, so the accesses that the source makes without
    [mutex_] (the read of [running_] at line 117, the pushes of lines 112
    and 114) and their races with the destructor's write of line 58 and
    with the scan of lines 86-91 are not represented, and nothing is said
    of them. *)
Theorem out_of_range_only_in_construction_race (n : nat) (p : ThreadPool)
    (a : action) :
  reachable n p ->
  exec a p = Undefined <->
  exists k i msg,
    owner p = Constructing k /\ a = Worker i /\
    threads_ p !! i = Some (Some Initializing) /\
    caught (initializer i) = Some msg.
Proof.
  intros R. pose proof (reachable_Inv n p R) as I.
  pose proof (inv_size n p I) as Hsize.
  pose proof (inv_errors n p I) as Herrors.
  split.
  - intros H. destruct a; simpl in H.
    + destruct (owner p); try done. by case_bool_decide.
    + destruct (owner p); try done. by case_bool_decide.
    + by destruct (callable (owner p)).
    + destruct (callable (owner p)) eqn:Hcall; [|done].
      unfold WaitForWork in H. destruct (work_complete_ p); [|done].
      destruct checkForErrors; [|done].
      destruct (check_errors_from_defined (length (threads_ p)) 0 (tl_errors_ p))
        as [x Hx].
      { rewrite (callable_registry n p R Hcall). lia. }
      by rewrite Hx in H.
    + destruct (owner p); try done. unfold WaitForWork in H.
      by destruct (work_complete_ p).
    + by destruct (owner p).
    + destruct (owner p); try done.
      by destruct (threads_ p !! k) as [[[]|]|].
    + destruct (owner p); try done. by case_bool_decide.
    + destruct (threads_ p !! thread_id) as [[st|]|] eqn:Hi; try done.
      apply lookup_lt_Some in Hi as Hlt.
      destruct st; simpl in H; unfold push_error in H; simpl in H.
      * destruct (caught (initializer thread_id)) as [msg|] eqn:Hc; [|done].
        destruct (tl_errors_ p !! thread_id) eqn:Hq; [done|].
        apply lookup_ge_None in Hq.
        destruct (owner p) as [k| | | |]; try lia. by exists k, thread_id, msg.
      * by destruct (running_ p).
      * destruct (running_ p); simpl in H; [|done].
        case_bool_decide; [done|]. simpl in H.
        by destruct (work_queue_ p).
      * by destruct (caught _).
      * destruct (tl_errors_ p !! thread_id) eqn:Hq; [done|].
        apply lookup_ge_None in Hq.
        destruct (owner p) as [k| | | |] eqn:Ho; try lia.
        by pose proof (constructing_idle n k thread_id _ p R Ho Hi).
      * done.
      * done.
  - intros (k & i & msg & Ho & -> & Hi & Hc).
    rewrite Ho in Herrors. simpl. rewrite Hi. simpl. rewrite Hc.
    unfold push_error. simpl. by rewrite Herrors.
Qed.

(** ** The error registry and the failures *)

Lemma reported_of_all (i : nat) (msg : string) (h : list event) :
  (i, msg) ∈ all_reported h -> msg ∈ reported i h.
Proof.
  induction h as [|e h IH]; simpl; [intros H; by apply elem_of_nil in H|].
  destruct e as [| | | | | | |c [[j m]|]| | |]; simpl; try done.
  intros H. apply elem_of_cons in H as [H|H].
  - simplify_eq. rewrite bool_decide_eq_true_2 by done. apply list_elem_of_here.
  - destruct (bool_decide (j = i)); [apply list_elem_of_further|]; by apply IH.
Qed.

Lemma no_errors_total (errs : list (list string)) (i : nat) :
  no_errors errs -> errs !!! i = [].
Proof.
  intros H. rewrite list_lookup_total_alt.
  destruct (errs !! i) as [q|] eqn:Hq; [|done].
  unfold no_errors in H. rewrite Forall_lookup in H. by apply (H i).
Qed.

(** X4.  No failure is lost and none is made up.  In every reachable
    state, the failures raised so far in worker [i], by its initializer and
    its items, in the order in which they were raised, are: the errors of
    worker [i] that WaitForWork has thrown, in the order of the throws;
    then the errors queued in [tl_errors_[i]]; then the failure the worker
    has caught and is about to push, if there is one.  Hence every error
    thrown for a worker is a failure that was raised in that worker, and
    once the work is complete and the registry is empty every failure has
    been thrown exactly once. *)
Theorem failures_thrown_queued_or_pending (n i : nat) (p : ThreadPool) :
  reachable n p ->
  failures i (history p)
  = reported i (history p) ++ (tl_errors_ p !!! i) ++ pending (threads_ p !! i) /\
  (forall msg, (i, msg) ∈ all_reported (history p) ->
     msg ∈ failures i (history p)) /\
  (work_complete_ p = true -> no_errors (tl_errors_ p) ->
     failures i (history p) = reported i (history p)).
Proof.
  intros R. pose proof (hist_fail n p (reachable_Hist n p R) i) as Hf.
  split; [done|]. split.
  - intros msg Hin. rewrite Hf. apply elem_of_app. left.
    by apply reported_of_all.
  - intros Hc Hno. rewrite (failures_when_complete n i p R Hc).
    by rewrite (no_errors_total _ i Hno), app_nil_r.
Qed.

(** ** The index an item is called with *)

Lemma dequeued_by_worker (n : nat) (p : ThreadPool) :
  reachable n p ->
  Forall (fun d => (d.1 < n)%nat) (dequeued (history p)).
Proof.
  revert p. apply reachable_ind; [by constructor|].
  intros a p p' R IH H.
  pose proof (inv_size n p (reachable_Inv n p R)) as Hsize.
  apply exec_queue in H
    as [(_ & -> & _)|[(w & _ & _ & -> & _)|(i & w & _ & Hi & _ & _ & _ & -> & _)]];
    try done.
  apply Forall_app. split; [done|]. constructor; [|constructor].
  simpl. apply lookup_lt_Some in Hi. lia.
Qed.

(** X5.  Every call [work(thread_id)] is made by a worker of the pool, with
    its own index, which is below the thread count; the item is one that
    was submitted, and the worker that calls it is the one that popped
    it. *)
Theorem items_called_with_worker_index (n i : nat) (w : Work) (p : ThreadPool) :
  reachable n p -> (i, w) ∈ executed (history p) ->
  (i < n)%nat /\ (i, w) ∈ dequeued (history p) /\ w ∈ submitted (history p).
Proof.
  intros R Hin.
  destruct (reachable_Hist n p R) as [Gfifo Gexec _ _ _ _].
  assert (Hd : (i, w) ∈ dequeued (history p)).
  { rewrite Gexec. apply elem_of_app. by left. }
  pose proof (dequeued_by_worker n p R) as Hall.
  rewrite Forall_forall in Hall.
  split; [by apply (Hall (i, w))|]. split; [done|].
  rewrite <- Gfifo. apply elem_of_app. left.
  apply list_elem_of_fmap. by exists (i, w).
Qed.

(** ** Waiting while an item is held *)

Lemma count_busy_pos (l : list (option wstate)) (i : nat) (t : option wstate) :
  l !! i = Some t -> busy t = true -> (0 < count busy l)%nat.
Proof.
  intros Hi Hb. destruct (count busy l) eqn:E; [|lia].
  rewrite (count_zero busy l i t E Hi) in Hb. done.
Qed.

(** X6.  While a worker holds an item, that is, from its pop to its
    decrement of [active_threads_], no WaitForWork returns, with or without
    error checking, and the destructor does not get past its wait,
    whatever the other threads do in the meantime: only steps of that
    worker end the wait.  So a WaitForWork called on the pool from inside
    one of its own items, which keeps that worker from going on, never
    returns. *)
Theorem wait_blocked_while_item_held (n i : nat) (st : wstate)
    (sched : list action) (p q : ThreadPool) (c : bool) :
  reachable n p -> threads_ p !! i = Some (Some st) -> busy (Some st) = true ->
  Forall (fun a => a <> Worker i) sched -> run sched p = Ok q ->
  threads_ q !! i = Some (Some st) /\
  WaitForWork c q = Blocked /\ exec (Wait c) q = Blocked /\
  exec DtorWait q = Blocked.
Proof.
  intros R Hi Hb Hs Hrun.
  assert (Rq : reachable n q) by by eapply reachable_run.
  pose proof (run_other_thread n i sched st p q R Hrun Hs Hi) as Hq.
  pose proof (reachable_Inv n q Rq) as I.
  pose proof (count_busy_pos _ _ _ Hq Hb) as Hpos.
  assert (Hc : work_complete_ q = false).
  { rewrite (inv_complete n q I), (inv_active n q I).
    destruct (Z.eqb_spec (Z.of_nat (count busy (threads_ q))) 0); [lia|].
    by rewrite andb_false_r. }
  assert (Hw : forall c', WaitForWork c' q = Blocked).
  { intros c'. unfold WaitForWork. by rewrite Hc. }
  split; [done|]. split; [done|]. split.
  - simpl. rewrite Hw. by destruct (callable (owner q)).
  - simpl. rewrite Hw. by destruct (owner q).
Qed.


(** ** The text of the exception *)

Lemma append_cons (c : Ascii.ascii) (s t : string) :
  String c s +:+ t = String c (s +:+ t).
Proof. reflexivity. Qed.

(** A decimal numeral followed by a colon is read back in one way only. *)
Lemma numeral_then_colon (d d' : Decimal.uint) (r r' : string) :
  NilEmpty.string_of_uint d +:+ String ":"%char r
  = NilEmpty.string_of_uint d' +:+ String ":"%char r' ->
  d = d' /\ r = r'.
Proof.
  revert d'. induction d as [|d IH|d IH|d IH|d IH|d IH|d IH|d IH|d IH|d IH|d IH];
    intros [|d'|d'|d'|d'|d'|d'|d'|d'|d'|d']; simpl;
    rewrite ?append_cons; intros H; try discriminate;
    try (injection H as H; destruct (IH _ H) as [-> ->]; done).
  change (String ":"%char r = String ":"%char r') in H. by simplify_eq.
Qed.

Lemma to_string_inj (i j : nat) : to_string i = to_string j -> i = j.
Proof.
  unfold to_string. intros H.
  assert (Hu : Nat.to_uint i = Nat.to_uint j).
  { apply (f_equal NilEmpty.uint_of_string) in H.
    rewrite !NilEmpty.usu in H. by simplify_eq. }
  by rewrite <- (Unsigned.of_to i), <- (Unsigned.of_to j), Hu.
Qed.

(** X7.  The text WaitForWork throws determines the worker and the
    message: two errors have the same text only if they are errors of the
    same worker with the same description, whatever the description
    holds. *)
Theorem error_text_injective (i j : nat) (msg msg' : string) :
  error_text i msg = error_text j msg' <-> i = j /\ msg = msg'.
Proof.
  split; [|by intros [-> ->]].
  unfold error_text. intros H.
  assert (H' : to_string i +:+ ": " +:+ msg = to_string j +:+ ": " +:+ msg').
  { repeat (rewrite !append_cons in H; injection H as H). exact H. }
  unfold to_string in H'.
  change (": " +:+ msg) with (String ":"%char (String " "%char msg)) in H'.
  change (": " +:+ msg') with (String ":"%char (String " "%char msg')) in H'.
  apply numeral_then_colon in H' as [Hu Hm].
  split; [|by simplify_eq].
  by rewrite <- (Unsigned.of_to i), <- (Unsigned.of_to j), Hu.
Qed.

(** ** Workers take what is queued *)

Lemma bind_ok {A B} (a : A) (f : A -> result B) : bind (Ok a) f = f a.
Proof. reflexivity. Qed.

Lemma count_lt_length {A} (f : A -> bool) (l : list A) :
  (count f l < length l)%nat -> exists i x, l !! i = Some x /\ f x = false.
Proof.
  induction l as [|a l IH]; simpl; [lia|].
  destruct (f a) eqn:E.
  - intros H. destruct IH as (i & x & ? & ?); [lia|]. by exists (S i), x.
  - intros _. by exists O, a.
Qed.

(** While [running_] is true and an item is queued, the constructor has
    returned and the destructor has not stopped the pool. *)
Lemma queued_while_running (n : nat) (p : ThreadPool) :
  reachable n p -> running_ p = true -> work_queue_ p <> [] ->
  owner p = Alive \/ owner p = Stopping.
Proof.
  intros R Hr Hq. pose proof (reachable_Inv n p R) as I.
  pose proof (inv_running n p I) as Hrun. rewrite Hr in Hrun.
  pose proof (inv_early n p I) as Hearly.
  pose proof (inv_quiet n p I) as Hquiet.
  destruct (owner p); try done; auto.
  by destruct (Hquiet Hearly eq_refl).
Qed.

(** While [running_] is true and an item is queued, a worker that holds no
    item gets to the head of the queue by steps of its own. *)
Lemma free_worker_reaches_queue (n : nat) (p : ThreadPool) (w : Work)
    (q : list Work) :
  reachable n p -> running_ p = true -> work_queue_ p = w :: q ->
  active_threads_ p < Z.of_nat n ->
  exists i sched p',
    Forall (fun a => a = Worker i) sched /\ run sched p = Ok p' /\
    (exists st, threads_ p !! i = Some (Some st) /\ busy (Some st) = false) /\
    threads_ p' !! i = Some (Some (Executing w)) /\
    work_queue_ p' = q /\ active_threads_ p' = active_threads_ p + 1 /\
    running_ p' = true /\ owner p' = owner p /\
    forall j, j <> i -> threads_ p' !! j = threads_ p !! j.
Proof.
  intros R Hr Hq Hlt.
  pose proof (reachable_Inv n p R) as I.
  pose proof (inv_size n p I) as Hsize.
  destruct (count_lt_length busy (threads_ p)) as (i & t & Hi & Hb).
  { rewrite (inv_active n p I) in Hlt. lia. }
  assert (Ho : owner p = Alive \/ owner p = Stopping).
  { apply (queued_while_running n p R Hr). by rewrite Hq. }
  assert (Hlen : length (tl_errors_ p) = n).
  { pose proof (inv_errors n p I) as He.
    by destruct Ho as [Ho|Ho]; rewrite Ho in He. }
  apply lookup_lt_Some in Hi as Hin.
  destruct t as [st|].
  2:{ pose proof (inv_spawned n p I i) as Hs. unfold started in Hs.
      destruct Hs as [st Hst]; [destruct Ho as [Ho|Ho]; rewrite Ho; lia|].
      rewrite Hst in Hi. done. }
  destruct (lookup_lt_is_Some_2 (tl_errors_ p) i) as [q0 Hq0]; [lia|].
  exists i.
  assert (Hpop : forall p0, threads_ p0 !! i = Some (Some Waiting) ->
    running_ p0 = true -> work_queue_ p0 = w :: q ->
    exists p', exec (Worker i) p0 = Ok p' /\
      threads_ p' !! i = Some (Some (Executing w)) /\
      work_queue_ p' = q /\ active_threads_ p' = active_threads_ p0 + 1 /\
      running_ p' = true /\ owner p' = owner p0 /\
      forall j, j <> i -> threads_ p' !! j = threads_ p0 !! j).
  { intros p0 Hi0 Hr0 Hq0'. simpl. rewrite Hi0. simpl. rewrite Hr0, Hq0'. simpl.
    eexists. split; [done|]. simpl.
    rewrite (lookup_insert_at _ _ _ _ _ Hi0), decide_True by done.
    repeat split; try done.
    intros j Hj. by rewrite list_lookup_insert_ne. }
  assert (Hhead : forall p0, threads_ p0 !! i = Some (Some LoopHead) ->
    running_ p0 = true -> work_queue_ p0 = w :: q ->
    exists p', run [Worker i; Worker i] p0 = Ok p' /\
      threads_ p' !! i = Some (Some (Executing w)) /\
      work_queue_ p' = q /\ active_threads_ p' = active_threads_ p0 + 1 /\
      running_ p' = true /\ owner p' = owner p0 /\
      forall j, j <> i -> threads_ p' !! j = threads_ p0 !! j).
  { intros p0 Hi0 Hr0 Hq0'.
    destruct (Hpop (set_thread i Waiting p0))
      as (p' & E & H1 & H2 & H3 & H4 & H5 & H6); try done.
    { simpl. by rewrite (lookup_insert_at _ _ _ _ _ Hi0), decide_True. }
    assert (E0 : exec (Worker i) p0 = Ok (set_thread i Waiting p0)).
    { simpl. rewrite Hi0. simpl. by rewrite Hr0. }
    exists p'. rewrite run_cons, E0, bind_ok, run_cons, E.
    repeat split; try done.
    intros j Hj. rewrite (H6 j Hj). simpl. by rewrite list_lookup_insert_ne. }
  destruct st; simpl in Hb; try done.
  - (* Initializing *)
    set (p1 := log (EvInit i (initializer i)) (set_thread i LoopHead p)).
    assert (exists p2, exec (Worker i) p = Ok p2 /\
      threads_ p2 = threads_ p1 /\ work_queue_ p2 = work_queue_ p /\
      running_ p2 = running_ p /\ active_threads_ p2 = active_threads_ p /\
      owner p2 = owner p) as (p2 & E & Ht & Hq2 & Hr2 & Ha2 & Ho2).
    { simpl. rewrite Hi. simpl. unfold push_error. simpl. rewrite Hq0.
      destruct (caught (initializer i)); by eexists. }
    destruct (Hhead p2) as (p' & E' & H1 & H2 & H3 & H4 & H5 & H6);
      try congruence.
    { rewrite Ht. simpl. by rewrite (lookup_insert_at _ _ _ _ _ Hi), decide_True. }
    exists [Worker i; Worker i; Worker i], p'.
    split; [by repeat constructor|].
    split; [by rewrite run_cons, E, bind_ok|].
    split; [by exists Initializing|].
    repeat split; try congruence.
    intros j Hj. rewrite (H6 j Hj), Ht. simpl. by rewrite list_lookup_insert_ne.
  - (* LoopHead *)
    destruct (Hhead p) as (p' & E' & H1 & H2 & H3 & H4 & H5 & H6); try done.
    exists [Worker i; Worker i], p'.
    split; [by repeat constructor|]. split; [done|].
    split; [by exists LoopHead|]. done.
  - (* Waiting *)
    destruct (Hpop p) as (p' & E' & H1 & H2 & H3 & H4 & H5 & H6); try done.
    exists [Worker i], p'.
    split; [by repeat constructor|].
    split; [by rewrite run_cons, E', bind_ok|].
    split; [by exists Waiting|]. done.
  - (* Terminated *)
    pose proof (inv_term n p I i Hi). congruence.
Qed.

(** The steps of a worker submit nothing. *)
Lemma worker_steps_submit_nothing (i : nat) (sched : list action)
    (p p' : ThreadPool) :
  Forall (fun a => a = Worker i) sched -> run sched p = Ok p' ->
  submitted (history p') = submitted (history p).
Proof.
  intros Hs Hrun. apply (run_frame sched p p'); [|done].
  clear - Hs. induction Hs as [|a l -> _ IH]; done.
Qed.


Lemma run_submits (ws : list Work) (p : ThreadPool) :
  callable (owner p) = true ->
  exists p', run (map Submit ws) p = Ok p' /\
    work_queue_ p' = work_queue_ p ++ ws /\ owner p' = owner p /\
    active_threads_ p' = active_threads_ p /\ threads_ p' = threads_ p /\
    running_ p' = running_ p /\
    submitted (history p') = submitted (history p) ++ ws.
Proof.
  revert p. induction ws as [|w ws IH]; intros p Hc.
  - exists p. by rewrite !app_nil_r.
  - set (p1 := log (EvSubmit w)
                 (set_late (if is_alive (owner p) then late_submits p
                            else S (late_submits p)) (DoWorkWithID w p))).
    destruct (IH p1 Hc) as (p' & Hrun & Hq & Ho & Ha & Ht & Hr & Hs).
    exists p'. change (map Submit (w :: ws)) with (Submit w :: map Submit ws).
    assert (E : exec (Submit w) p = Ok p1) by (simpl; by rewrite Hc).
    rewrite run_cons, E, bind_ok, Hrun. repeat split; try done.
    + rewrite Hq. simpl. by rewrite <- app_assoc.
    + rewrite Hs. simpl. by rewrite submitted_snoc, <- app_assoc.
Qed.

Lemma saturate (n m : nat) :
  forall p, reachable n p -> running_ p = true ->
    length (work_queue_ p) = m -> active_threads_ p + Z.of_nat m <= Z.of_nat n ->
    held_uncalled p ->
    exists p', reachable n p' /\ owner p' = owner p /\ work_queue_ p' = [] /\
      active_threads_ p' = active_threads_ p + Z.of_nat m /\ held_uncalled p' /\
      submitted (history p') = submitted (history p).
Proof.
  induction m as [|m IH]; intros p R Hr Hlen Hle Hheld.
  - exists p. repeat split; try done; [by destruct (work_queue_ p)|lia].
  - destruct (work_queue_ p) as [|w q] eqn:Hq; [done|].
    destruct (free_worker_reaches_queue n p w q R Hr Hq)
      as (i & sched & p1 & Hw1 & Hrun & _ & Hi1 & Hq1 & Ha1 & Hr1 & Ho1 & Hframe);
      [lia|].
    pose proof (worker_steps_submit_nothing i sched p p1 Hw1 Hrun) as Hs1.
    assert (R1 : reachable n p1) by by eapply reachable_run.
    destruct (IH p1 R1 Hr1) as (p' & R' & Ho' & Hq' & Ha' & Hheld' & Hs').
    + rewrite Hq1. simpl in Hlen. lia.
    + lia.
    + intros j st Hj Hb. destruct (decide (j = i)) as [->|Hne].
      * rewrite Hi1 in Hj. simplify_eq. by eexists.
      * rewrite (Hframe j Hne) in Hj. by apply (Hheld j).
    + exists p'. repeat split; try done; try congruence; lia.
Qed.

(** X9.  The bound of X2 is reached: a pool of [n] workers can have all
    its workers inside items at the same time.  For any [n] items there is
    an execution, whatever the initializer does once the constructor has
    returned, after which the queue is empty, [active_threads_] is [n] and
    every worker is about to call the item it popped. *)
Theorem all_workers_hold_items_at_once (n : nat) (ws : list Work) :
  length ws = n ->
  exists p,
    reachable n p /\ owner p = Alive /\ submitted (history p) = ws /\
    work_queue_ p = [] /\ active_threads_ p = Z.of_nat n /\
    forall i, (i < n)%nat -> exists w, threads_ p !! i = Some (Some (Executing w)).
Proof.
  intros Hws.
  destruct (ctor_completes n n 0 (ThreadPool_init n)) as (p0 & Hrun0 & Ho0);
    [apply length_replicate|done|lia|].
  assert (R0 : reachable n p0).
  { eapply reachable_run; [apply reachable_init|done]. }
  assert (Hs0 : submitted (history p0) = []).
  { apply (run_frame _ _ _) in Hrun0 as [-> _]; [done|].
    rewrite forallb_app. simpl. rewrite andb_true_r. clear. by induction n. }
  destruct (fresh_pool n p0 R0 Hs0) as [Hc0 _].
  apply (complete_iff n p0 R0) in Hc0 as [Hq0 Ha0].
  destruct (run_submits ws p0) as (p1 & Hrun1 & Hq1 & Ho1 & Ha1 & Ht1 & Hr1 & Hsub);
    [by rewrite Ho0|].
  rewrite Hs0 in Hsub. simpl in Hsub.
  assert (R1 : reachable n p1) by by eapply reachable_run.
  pose proof (reachable_Inv n p1 R1) as I1.
  assert (Hrun : running_ p1 = true).
  { rewrite (inv_running n p1 I1), Ho1, Ho0. done. }
  assert (Hidle : count busy (threads_ p1) = O).
  { pose proof (inv_active n p1 I1). lia. }
  destruct (saturate n n p1 R1 Hrun) as (p & R & Ho & Hq & Ha & Hheld & Hs).
  { rewrite Hq1, Hq0. done. }
  { lia. }
  { intros i st Hi Hb. by rewrite (count_zero busy _ _ _ Hidle Hi) in Hb. }
  exists p. pose proof (reachable_Inv n p R) as I.
  destruct (reachable_Hist n p R) as [Gfifo _ _ _ _ _].
  repeat split; try congruence; try lia.
  intros i Hi.
    pose proof (inv_spawned n p I i) as Hsp. unfold started in Hsp.
    rewrite Ho, Ho1, Ho0, (inv_size n p I) in Hsp.
    destruct (Hsp Hi) as [st Hst].
    destruct (busy (Some st)) eqn:Hb.
    + destruct (Hheld i st Hst Hb) as [w ->]. by exists w.
    + exfalso.
      assert (count busy (threads_ p) < length (threads_ p))%nat;
        [|pose proof (inv_active n p I); pose proof (inv_size n p I); lia].
      clear - Hst Hb. revert i Hst.
      induction (threads_ p) as [|t l IH]; intros [|i] Hst; simplify_eq/=.
      * rewrite Hb. pose proof (count_le_length busy l). lia.
      * specialize (IH _ Hst). destruct (busy t); lia.
Qed.

End Proofs.

(** * The theorems on the small pools *)

(** The completion flag in a pool of two with one item queued and one held
    by worker 0. *)
Lemma work_complete_iff_witness :
  work_complete_ (after init_ok 2 sched_busy) = true
  <-> work_queue_ (after init_ok 2 sched_busy) = [] /\
      active_threads_ (after init_ok 2 sched_busy) = 0.
Proof.
  apply (work_complete_iff_drained_and_idle init_ok 2).
  exists sched_busy. vm_compute. reflexivity.
Defined.

(** Draining a registry with the errors a, b of worker 1 and c of
    worker 2. *)
Lemma WaitForWork_reports_witness :
  WaitForWork true pool_with_errors
  = Ok (Some (1%nat, "a"), set_errors [[]; ["b"]; ["c"]] pool_with_errors) /\
  drain 3 pool_with_errors
  = Ok ([(1%nat, "a"); (1%nat, "b"); (2%nat, "c")],
        set_errors [[]; []; []] pool_with_errors).
Proof.
  destruct (WaitForWork_reports_one_error pool_with_errors eq_refl eq_refl)
    as (_ & (q & Hq & _ & Hw & _) & Hd & _).
  vm_compute in Hq. injection Hq as <-. split; [exact Hw | exact Hd].
Defined.

(** The schedules of the small pools can be run. *)
Lemma sched_busy_reachable : reachable init_ok 2 (after init_ok 2 sched_busy).
Proof. exists sched_busy. vm_compute. reflexivity. Defined.

(** Construction with the thread counts -1 and 0, for a vector of at most
    2^60 elements. *)
Lemma ThreadPool_new_rejects_witness :
  (forall p, ThreadPool_new (2 ^ 60) (-1) <> inr p) /\
  ThreadPool_new (2 ^ 60) (-1) = inl VectorTooLong /\
  ThreadPool_new (2 ^ 60) 0
  = inl (EnforceFailed "Thread pool must have non-zero size").
Proof.
  destruct (ThreadPool_new_rejects_nonpositive (2 ^ 60) (-1) ltac:(lia))
    as (Hno & _ & Hneg & _).
  destruct (ThreadPool_new_rejects_nonpositive (2 ^ 60) 0 ltac:(lia))
    as (_ & _ & _ & Hzero).
  split; [exact Hno|]. split.
  - apply Hneg; [vm_compute; split; [discriminate | reflexivity]
                | vm_compute; reflexivity].
  - apply Hzero; [reflexivity | vm_compute; discriminate].
Defined.

(** Counterexample to C7 as it stands, with its "and the work queue is
    empty".  A caller pushes an item
    after the destructor's WaitForWork(false) has returned and before the
    destructor sets [running_] to false.  The worker, in its wait, is woken,
    finds [running_] false and returns from ThreadMain, although the queue
    holds the item; the item is never called. *)
Lemma worker_exits_with_item_queued :
  reachable init_ok 1 (after init_ok 1 sched_late) /\
  threads_ (after init_ok 1 sched_late) !! 0%nat = Some (Some Waiting) /\
  running_ (after init_ok 1 sched_late) = false /\
  work_queue_ (after init_ok 1 sched_late) <> [] /\
  exists p',
    exec init_ok (Worker 0) (after init_ok 1 sched_late) = Ok p' /\
    threads_ p' !! 0%nat = Some (Some Terminated) /\
    length (work_queue_ p') = 1%nat /\
    executed (history p') = [].
Proof.
  split; [exists sched_late; vm_compute; reflexivity|].
  split; [vm_compute; reflexivity|].
  split; [vm_compute; reflexivity|].
  split; [vm_compute; discriminate|].
  eexists. split; [vm_compute; reflexivity|].
  repeat split.
Qed.

(** The worker of that pool returns and leaves the queue as it is. *)
Lemma worker_exits_witness :
  exists p',
    exec init_ok (Worker 0) (after init_ok 1 sched_late) = Ok p' /\
    threads_ p' !! 0%nat = Some (Some Terminated) /\
    work_queue_ p' = work_queue_ (after init_ok 1 sched_late).
Proof.
  assert (R : reachable init_ok 1 (after init_ok 1 sched_late))
    by (exists sched_late; vm_compute; reflexivity).
  destruct (worker_exits_only_when_stopped init_ok 1 0 _ R) as (_ & _ & Hexit).
  apply (Hexit ltac:(vm_compute; reflexivity) Waiting).
  - vm_compute. reflexivity.
  - right. reflexivity.
Defined.

Lemma sched_boom_reachable : reachable init_ok 2 (after init_ok 2 sched_boom).
Proof. exists sched_boom. vm_compute. reflexivity. Defined.

(** A pool of two in which worker 0 has run [boom] and worker 1 has run
    [noop]: the first wait throws, the second does not. *)
Lemma single_failure_witness :
  exists p1,
    WaitForWork true (after init_ok 2 sched_boom) = Ok (Some (0%nat, "boom"), p1) /\
    thrown (Some (0%nat, "boom")) = Some (error_text 0 "boom") /\
    contains (to_string 0) (error_text 0 "boom") /\
    contains "boom" (error_text 0 "boom") /\
    WaitForWork true p1 = Ok (None, p1).
Proof.
  apply (single_failure_surfaces_once init_ok 2 0 boom "boom" _
           sched_boom_reachable).
  - vm_compute. reflexivity.
  - vm_compute. repeat (first [left; reflexivity | right]).
  - intros i.
    set (h := history (after init_ok 2 sched_boom)). vm_compute in h.
    subst h. unfold failures. simpl.
    repeat case_bool_decide; simplify_eq; reflexivity.
  - vm_compute. reflexivity.
Defined.

(** A fresh pool of one whose initializer finds no device. *)
Lemma fresh_pool_wait_witness :
  WaitForWork false (after init_no_device 1 [CtorSpawn; CtorResize])
  = Ok (None, after init_no_device 1 [CtorSpawn; CtorResize]) /\
  exists q q',
    reachable init_no_device 1 q /\ owner q = Alive /\
    submitted (history q) = [] /\
    WaitForWork true q
    = Ok (Some (0%nat, "no CUDA-capable device is detected"), q').
Proof.
  destruct (fresh_pool_wait_returns init_no_device 1) as (_ & Hfresh & Hinit).
  split.
  - apply Hfresh.
    + exists [CtorSpawn; CtorResize]. vm_compute. reflexivity.
    + vm_compute. reflexivity.
    + vm_compute. reflexivity.
  - apply Hinit; [lia | reflexivity].
Defined.

(** C6.  The handlers of a worker do not always get a failure into the
    worker's error sequence.  Worker 1 of a pool of two runs the
    initializer, which throws something that is not a std::runtime_error,
    while the constructor is still in its loop: the [catch(...)] handler
    evaluates [tl_errors_[1]] on the vector that line 50 has not resized
    yet, which is undefined behaviour.  Had the constructor resized the
    vector before, the same failure would be recorded as that of an unknown
    exception. *)
Theorem initializer_failure_lost_before_resize :
  run init_unknown [CtorSpawn; CtorSpawn; Worker 1] (ThreadPool_init 2)
  = Undefined /\
  tl_errors_ (after init_unknown 2 [CtorSpawn; CtorSpawn; CtorResize; Worker 1])
  = [[]; ["Caught unknown exception"]].
Proof. split; vm_compute; reflexivity. Qed.

(** C9.  Construction does not always give a worker an error sequence
    before the worker needs it.  The constructor of a pool of one starts
    thread 0, whose initializer fails, and thread 0 reaches its handler
    before the constructor reaches [tl_errors_.resize(num_thread)]: the
    handler indexes the empty vector, which is undefined behaviour, and the
    failure is not captured.  In the other order of the two steps the
    failure is in the sequence of worker 0 and the next WaitForWork(true)
    throws it. *)
Theorem construction_races_with_initializer :
  run init_no_device [CtorSpawn; Worker 0] (ThreadPool_init 1) = Undefined /\
  tl_errors_ (after init_no_device 1 [CtorSpawn; CtorResize; Worker 0])
  = [["no CUDA-capable device is detected"]] /\
  exists p',
    WaitForWork true (after init_no_device 1 [CtorSpawn; CtorResize; Worker 0])
    = Ok (Some (0%nat, "no CUDA-capable device is detected"), p').
Proof.
  split; [vm_compute; reflexivity|]. split; [vm_compute; reflexivity|].
  eexists. vm_compute. reflexivity.
Qed.

(** * The further properties on the small pools *)


(** [size()] on the pool of four. *)
Lemma size_returns_witness :
  0 < 4 /\ size (after init_ok 4 sched_four) = 4%nat /\
  size_returned (after init_ok 4 sched_four) = 4.
Proof.
  apply (size_returns_thread_count init_ok (2 ^ 60) 4 sched_four
           (ThreadPool_init 4)).
  - vm_compute. split; [discriminate | reflexivity].
  - vm_compute. reflexivity.
  - vm_compute. reflexivity.
Defined.

(** The counts in the pool of two with one item queued and one held. *)
Lemma active_threads_witness :
  active_threads_ (after init_ok 2 sched_busy)
  = Z.of_nat (count busy (threads_ (after init_ok 2 sched_busy))) /\
  0 <= active_threads_ (after init_ok 2 sched_busy) <= Z.of_nat 2 /\
  Z.of_nat (length (submitted (history (after init_ok 2 sched_busy))))
  = Z.of_nat (length (work_queue_ (after init_ok 2 sched_busy)))
    + active_threads_ (after init_ok 2 sched_busy)
    + Z.of_nat (length (finished (history (after init_ok 2 sched_busy)))).
Proof.
  apply (active_threads_counts_held_items init_ok 2).
  exact sched_busy_reachable.
Defined.

(** The steps of a pool of one whose constructor has started its thread
    and not yet resized the registry, with an initializer that fails. *)
Lemma out_of_range_witness :
  exec init_no_device (Worker 0) (after init_no_device 1 [CtorSpawn]) = Undefined
  /\ exec init_no_device CtorResize (after init_no_device 1 [CtorSpawn])
     <> Undefined.
Proof.
  assert (R : reachable init_no_device 1 (after init_no_device 1 [CtorSpawn]))
    by (exists [CtorSpawn]; vm_compute; reflexivity).
  split.
  - apply (out_of_range_only_in_construction_race init_no_device 1 _ _ R).
    exists 1%nat, 0%nat, "no CUDA-capable device is detected".
    repeat split; vm_compute; reflexivity.
  - intros H.
    apply (out_of_range_only_in_construction_race init_no_device 1 _ _ R) in H
      as (k & i & msg & _ & H & _).
    discriminate H.
Defined.

(** The failure of worker 0 in the pool in which it has run [boom]. *)
Lemma failures_thrown_witness :
  failures 0 (history (after init_ok 2 sched_boom))
  = reported 0 (history (after init_ok 2 sched_boom))
    ++ (tl_errors_ (after init_ok 2 sched_boom) !!! 0%nat)
    ++ pending (threads_ (after init_ok 2 sched_boom) !! 0%nat).
Proof.
  apply (failures_thrown_queued_or_pending init_ok 2 0 _ sched_boom_reachable).
Defined.

(** The call of [boom] in that pool. *)
Lemma items_called_witness :
  (0 < 2)%nat /\
  (0%nat, boom) ∈ dequeued (history (after init_ok 2 sched_boom)) /\
  boom ∈ submitted (history (after init_ok 2 sched_boom)).
Proof.
  apply (items_called_with_worker_index init_ok 2 0 boom _ sched_boom_reachable).
  vm_compute. repeat constructor.
Defined.

(** Worker 0 of the pool of two holds an item: while worker 1 goes on and
    another item is submitted, no wait returns. *)
Lemma wait_blocked_witness :
  WaitForWork true (after init_ok 2 (sched_busy ++ [Worker 1; Submit noop]))
  = Blocked /\
  exec init_ok DtorWait (after init_ok 2 (sched_busy ++ [Worker 1; Submit noop]))
  = Blocked.
Proof.
  destruct (wait_blocked_while_item_held init_ok 2 0 (Executing noop)
              [Worker 1; Submit noop] (after init_ok 2 sched_busy)
              (after init_ok 2 (sched_busy ++ [Worker 1; Submit noop])) true)
    as (_ & Hw & _ & Hd).
  - exact sched_busy_reachable.
  - vm_compute. reflexivity.
  - reflexivity.
  - repeat constructor; discriminate.
  - vm_compute. reflexivity.
  - split; [exact Hw | exact Hd].
Defined.


(** Two workers inside two items. *)
Lemma all_workers_witness :
  exists p,
    reachable init_ok 2 p /\ owner p = Alive /\
    submitted (history p) = [noop; boom] /\
    work_queue_ p = [] /\ active_threads_ p = Z.of_nat 2 /\
    forall i, (i < 2)%nat -> exists w, threads_ p !! i = Some (Some (Executing w)).
Proof.
  apply (all_workers_hold_items_at_once init_ok 2 [noop; boom]). reflexivity.
Defined.

(** * The system with blocked threads *)

Section Blocking.

Variable initializer : nat -> Outcome.

(** The step of a worker is the step of ThreadMain at its state. *)
Lemma exec_worker (i : nat) (st : wstate) (p : ThreadPool) :
  threads_ p !! i = Some (Some st) ->
  exec initializer (Worker i) p = ThreadMain initializer i st p.
Proof. intros H. simpl. by rewrite H. Qed.

(** ** Steps of the pool, seen from its flags *)

(** Only the destructor's lines 57-60 change [running_]. *)
Lemma exec_running (a : action) (p p' : ThreadPool) :
  exec initializer a p = Ok p' -> a <> DtorStop -> running_ p' = running_ p.
Proof.
  intros H Ha. destruct a; simpl in H; try done;
    unfold WaitForWork, bind in H;
    repeat (case_match; simplify_eq/=); try done.
  by eapply (ThreadMain_frame initializer).
Qed.

Lemma exec_stop (p p' : ThreadPool) :
  exec initializer DtorStop p = Ok p' -> running_ p' = false.
Proof. simpl. intros H. by destruct (owner p); simplify_eq/=. Qed.

(** [work_complete_] is set to false by DoWorkWithID, to true by a worker
    that finishes an item and finds the pool drained and idle, and is left
    alone by every other step. *)
Lemma exec_complete (a : action) (p p' : ThreadPool) :
  exec initializer a p = Ok p' ->
  work_complete_ p' = work_complete_ p
  \/ (exists w, a = Submit w /\ work_complete_ p' = false)
  \/ (exists i, a = Worker i /\ threads_ p !! i = Some (Some Finishing) /\
        bool_decide (work_queue_ p = []) && (active_threads_ p - 1 =? 0) = true).
Proof.
  intros H. destruct a; simpl in H;
    try (left; unfold WaitForWork, bind in H;
         repeat (case_match; simplify_eq/=); done).
  - destruct (callable (owner p)); simplify_eq/=. right. left. by exists w.
  - destruct (threads_ p !! thread_id) as [[st|]|] eqn:Hi; try done.
    destruct st; simpl in H; unfold push_error in H; simpl in H;
      try (left; repeat (case_match; simplify_eq/=); done).
    simplify_eq/=.
    destruct (bool_decide (work_queue_ p = []) && (active_threads_ p - 1 =? 0))
      eqn:Ec; [|by left].
    right. right. by exists thread_id.
Qed.

(** ** The two systems reach the same pools *)

(** The step of a worker that has finished an item (lines 150-155). *)
Lemma ThreadMain_Finishing (i : nat) (p : ThreadPool) :
  ThreadMain initializer i Finishing p
  = Ok (log (EvDone i)
          (set_thread i LoopHead
             (if bool_decide (work_queue_ p = []) && (active_threads_ p - 1 =? 0)
              then set_complete true (set_active (active_threads_ p - 1) p)
              else set_active (active_threads_ p - 1) p))).
Proof. reflexivity. Qed.

Lemma exec_wait_inv (c : bool) (p p' : ThreadPool) :
  exec initializer (Wait c) p = Ok p' ->
  callable (owner p) = true /\ work_complete_ p = true.
Proof.
  simpl. intros H. destruct (callable (owner p)); [|done].
  unfold WaitForWork in H. by destruct (work_complete_ p).
Qed.

Lemma exec_dtorwait_inv (p p' : ThreadPool) :
  exec initializer DtorWait p = Ok p' ->
  is_alive (owner p) = true /\ work_complete_ p = true.
Proof.
  simpl. intros H. destruct (owner p); try done.
  unfold WaitForWork in H. by destruct (work_complete_ p).
Qed.

Lemma exec_worker_inv (i : nat) (p p' : ThreadPool) :
  exec initializer (Worker i) p = Ok p' ->
  exists st, threads_ p !! i = Some (Some st) /\
    ThreadMain initializer i st p = Ok p'.
Proof.
  simpl. intros H. destruct (threads_ p !! i) as [[st|]|]; try done.
  by exists st.
Qed.

(** A worker gets past its wait only when the predicate of line 120
    holds. *)
Lemma ThreadMain_Waiting_ok (i : nat) (p p' : ThreadPool) :
  ThreadMain initializer i Waiting p = Ok p' ->
  running_ p && bool_decide (work_queue_ p = []) = false.
Proof. simpl. intros H. by destruct (_ && _). Qed.

(** While [running_] is true, every step of a worker brings the pool
    closer to drained and idle. *)
Lemma worker_step_decreases (n i : nat) (p p' : ThreadPool) :
  reachable initializer n p -> running_ p = true ->
  exec initializer (Worker i) p = Ok p' ->
  (pending_effort p' < pending_effort p)%nat.
Proof.
  intros R Hr H. apply exec_worker_inv in H as (st & Hi & H).
  unfold pending_effort.
  destruct st; simpl in H; unfold push_error in H; simpl in H;
    rewrite ?Hr in H; simpl in H;
    repeat (case_match; simplify_eq/=); simplify_eq/=;
    try match goal with
    | |- context [total effort (<[?i := ?y]> ?l)] =>
        pose proof (total_insert effort l i _ y Hi) as Htotal; simpl in Htotal
    end; lia.
Qed.

(** In a live pool a worker that holds an item, or that finds an item
    queued, can take its next step. *)
Lemma worker_can_step (n i : nat) (st : wstate) (p : ThreadPool) :
  reachable initializer n p -> owner p = Alive ->
  threads_ p !! i = Some (Some st) ->
  busy (Some st) = true \/ work_queue_ p <> [] ->
  exists p', ThreadMain initializer i st p = Ok p'.
Proof.
  intros R Ho Hi Hor. pose proof (reachable_Inv initializer n p R) as I.
  pose proof (inv_running n p I) as Hr. rewrite Ho in Hr.
  pose proof (inv_errors n p I) as He. rewrite Ho in He.
  pose proof (inv_size n p I) as Hsize.
  destruct (lookup_lt_is_Some_2 (tl_errors_ p) i) as [q0 Hq0].
  { apply lookup_lt_Some in Hi. lia. }
  destruct st; simpl; unfold push_error; simpl; rewrite ?Hq0, ?Hr; simpl.
  - destruct (caught (initializer i)); by eexists.
  - by eexists.
  - destruct Hor as [?|Hq]; [done|].
    rewrite bool_decide_eq_false_2 by done.
    destruct (work_queue_ p); [done|]. by eexists.
  - destruct (caught (w i)); by eexists.
  - by eexists.
  - by eexists.
  - apply (inv_term n p I) in Hi. congruence.
Qed.

(** The destructor's wait returns from a live pool whose work is
    complete, and leaves the counter alone. *)
Lemma dtor_wait_returns (p : ThreadPool) :
  owner p = Alive -> work_complete_ p = true ->
  exists p', exec initializer DtorWait p = Ok p' /\ owner p' = Stopping /\
    active_threads_ p' = active_threads_ p.
Proof.
  intros Ho Hc. simpl. rewrite Ho. unfold WaitForWork. rewrite Hc. simpl.
  by eexists.
Qed.

Lemma dtor_stops (p : ThreadPool) :
  owner p = Stopping ->
  exists p', exec initializer DtorStop p = Ok p' /\ owner p' = Joining 0 /\
    active_threads_ p' = active_threads_ p.
Proof. intros Ho. simpl. rewrite Ho. by eexists. Qed.

(** ** What the destructor can leave behind *)

(** A step of a worker does not add to the items queued or held. *)
Lemma ThreadMain_load (i : nat) (st : wstate) (p p' : ThreadPool) :
  ThreadMain initializer i st p = Ok p' ->
  Z.of_nat (length (work_queue_ p')) + active_threads_ p'
  <= Z.of_nat (length (work_queue_ p)) + active_threads_ p.
Proof.
  intros H. destruct st; simpl in H; unfold push_error in H; simpl in H;
    repeat (case_match; simplify_eq/=); simplify_eq/=;
    repeat match goal with E : work_queue_ _ = _ |- _ => rewrite E; clear E end;
    simpl; lia.
Qed.

(** Until the destructor's wait has returned nothing is counted as
    submitted after it; from then on the items queued or held are at most
    as many as were submitted since. *)
Lemma late_bound (n : nat) (p : ThreadPool) :
  reachable initializer n p ->
  match owner p with
  | Constructing _ | Alive => late_submits p = O
  | _ => Z.of_nat (length (work_queue_ p)) + active_threads_ p
         <= Z.of_nat (late_submits p)
  end.
Proof.
  revert p. apply (reachable_ind initializer); [done|].
  intros a p p' R IH H.
  assert (Hidle : work_complete_ p = true ->
    work_queue_ p = [] /\ active_threads_ p = 0)
    by apply (complete_iff initializer n p R).
  destruct a; simpl in H.
  - destruct (owner p) eqn:Ho; try done. case_bool_decide; by simplify_eq/=.
  - destruct (owner p) eqn:Ho; try done. case_bool_decide; by simplify_eq/=.
  - destruct (owner p) eqn:Ho; simplify_eq/=; rewrite Ho, ?length_app;
      simpl; try done; lia.
  - destruct (callable (owner p)); try done. unfold WaitForWork in H.
    destruct (work_complete_ p); try done.
    destruct checkForErrors; simpl in H; simplify_eq/=; [|done].
    by destruct (check_errors_from _ _ _) as [[??]| |]; simplify_eq/=.
  - destruct (owner p) eqn:Ho; try done. unfold WaitForWork in H.
    destruct (work_complete_ p); simplify_eq/=.
    destruct Hidle as [-> ->]; [done|]. simpl. lia.
  - by destruct (owner p) eqn:Ho; simplify_eq/=.
  - destruct (owner p) eqn:Ho; try done.
    by destruct (threads_ p !! k) as [[[]|]|]; simplify_eq/=.
  - destruct (owner p) eqn:Ho; try done. case_bool_decide; by simplify_eq/=.
  - destruct (threads_ p !! thread_id) as [[st|]|]; try done.
    pose proof (ThreadMain_load _ _ _ _ H) as Hload.
    apply (ThreadMain_frame initializer) in H as (-> & -> & _).
    destruct (owner p); try done; lia.
Qed.

(** In a destroyed pool no worker holds an item: every item popped has been
    called and finished, and the queue holds at most as many items as were
    submitted after the destructor's wait returned. *)
Lemma destroyed_all_run (n : nat) (p : ThreadPool) :
  reachable initializer n p -> owner p = Destroyed ->
  (dequeued (history p)).*2 ++ work_queue_ p = submitted (history p) /\
  executed (history p) ≡ₚ dequeued (history p) /\
  length (finished (history p)) = length (dequeued (history p)) /\
  (length (work_queue_ p) <= late_submits p)%nat.
Proof.
  intros R Ho.
  pose proof (reachable_Inv initializer n p R) as I.
  destruct (reachable_Hist initializer n p R) as [Gfifo Gexec Gdone _ _ _].
  pose proof (inv_joined n p I) as Hj. rewrite Ho in Hj.
  pose proof (inv_size n p I) as Hsize.
  pose proof (inv_active n p I) as Ha.
  pose proof (late_bound n p R) as Hl. rewrite Ho in Hl.
  assert (Hidle : count busy (threads_ p) = O).
  { destruct (decide (count busy (threads_ p) = O)) as [|Hpos]; [done|].
    destruct (count_pos busy (threads_ p)) as (i & t & Hi & Ht); [lia|].
    rewrite Hj in Hi by (apply lookup_lt_Some in Hi; lia). by simplify_eq. }
  rewrite (in_flight_idle _ _ Hidle), app_nil_r in Gexec.
  rewrite Hidle, Nat.add_0_r in Gdone.
  repeat split; try done; lia.
Qed.

(** ** The steps of the owner *)







(** ** The workers once [running_] is false *)




Local Arguments exec : simpl never.
Local Arguments ThreadMain : simpl never.

Local Abbreviation ThreadMain := (ThreadMain initializer).
Local Abbreviation exec := (exec initializer).
Local Abbreviation run := (run initializer).
Local Abbreviation reachable := (reachable initializer).
Local Abbreviation reachable_Inv := (reachable_Inv initializer).
Local Abbreviation reachable_step := (reachable_step initializer).
Local Abbreviation reachable_init := (reachable_init initializer).
Local Abbreviation reachable_ind := (reachable_ind initializer).
Local Abbreviation exec_other_thread := (exec_other_thread initializer).
Local Abbreviation exec_queue := (exec_queue initializer).
Local Abbreviation ThreadMain_threads := (ThreadMain_threads initializer).
Local Abbreviation ThreadMain_frame := (ThreadMain_frame initializer).
Local Abbreviation complete_iff := (complete_iff initializer).
Local Abbreviation step := (Cv.step initializer).
Local Abbreviation steps := (Cv.steps initializer).
Local Abbreviation worker := (Cv.worker initializer).
Local Abbreviation proceed := (Cv.proceed initializer).
Local Abbreviation wait_completed := (Cv.wait_completed initializer).


Lemma steps_snoc (sched : list Cv.act) (a : Cv.act) (s : Cv.state) :
  steps (sched ++ [a]) s = bind (steps sched s) (step a).
Proof.
  revert s. induction sched as [|b sched IH]; intros s; simpl.
  - by destruct (step a s).
  - destruct (step b s); simpl; auto.
Qed.

Lemma steps_app (s1 s2 : list Cv.act) (s : Cv.state) :
  steps (s1 ++ s2) s = bind (steps s1 s) (steps s2).
Proof.
  revert s. induction s1 as [|a s1 IH]; intros s; simpl; [done|].
  destruct (step a s); simpl; auto.
Qed.

Lemma cv_reachable_step (n : nat) (a : Cv.act) (s s' : Cv.state) :
  Cv.reachable initializer n s -> step a s = Ok s' ->
  Cv.reachable initializer n s'.
Proof.
  intros [sched Hs] H. exists (sched ++ [a]). by rewrite steps_snoc, Hs.
Qed.

Lemma cv_reachable_steps (n : nat) (sched : list Cv.act) (s s' : Cv.state) :
  Cv.reachable initializer n s -> steps sched s = Ok s' ->
  Cv.reachable initializer n s'.
Proof.
  intros [s0 Hs] H. exists (s0 ++ sched). by rewrite steps_app, Hs.
Qed.

Lemma cv_reachable_ind (n : nat) (P : Cv.state -> Prop) :
  P (Cv.init n) ->
  (forall a s s', Cv.reachable initializer n s -> P s -> step a s = Ok s' -> P s') ->
  forall s, Cv.reachable initializer n s -> P s.
Proof.
  intros Hinit Hstep s [sched Hs]. revert s Hs.
  induction sched as [|a sched IH] using rev_ind; intros s Hs.
  - simpl in Hs. by simplify_eq.
  - rewrite steps_snoc in Hs.
    destruct (steps sched (Cv.init n)) as [s0| |] eqn:E; simplify_eq/=.
    eapply Hstep; [by exists sched | by apply IH | done].
Qed.

Ltac cv_unfold H :=
  simpl in H;
  unfold Cv.worker, Cv.wait_completed, Cv.proceed, Cv.notify_completed,
    Cv.notify_work, Cv.on_pool, bind in H;
  repeat (case_match; simplify_eq/=).

Ltac by_worker i :=
  exists (Worker i); erewrite exec_worker by done;
  rewrite ?ThreadMain_Finishing;
  repeat match goal with E : (_ && _) = _ |- _ => rewrite E end;
  (split; [first [done | reflexivity] | by eauto]).

(** What a step does to the pool: nothing, or a step of the system
    above; that step is a worker's, a DoWorkWithID or the destructor's
    lines 57-60 only if the step itself is. *)
Lemma step_pool (a : Cv.act) (s s' : Cv.state) :
  step a s = Ok s' ->
  Cv.pool s' = Cv.pool s
  \/ exists b, exec b (Cv.pool s) = Ok (Cv.pool s') /\
       match b with
       | Worker i => exists k, a = Cv.Step i k
       | Submit w => a = Cv.Push w
       | DtorStop => a = Cv.Stop
       | _ => True
       end.
Proof.
  intros H. destruct a as [| |w|j|c|k| | | | |i k|j|k]; cv_unfold H;
    try (by left);
    try (right; eexists; split; [eassumption|]; done);
    right; by_worker i.
Qed.

Lemma step_undefined (a : Cv.act) (s : Cv.state) :
  step a s = Undefined -> exists b, exec b (Cv.pool s) = Undefined.
Proof.
  intros H. destruct a as [| |w|j|c|k| | | | |i k|j|k]; cv_unfold H;
    eauto; exists (Worker i); by erewrite exec_worker.
Qed.

Lemma cv_reachable_pool (n : nat) (s : Cv.state) :
  Cv.reachable initializer n s -> reachable n (Cv.pool s).
Proof.
  revert s. apply cv_reachable_ind; [apply reachable_init|].
  intros a s s' _ R H. apply step_pool in H as [->|(b & Hb & _)]; [done|].
  by eapply reachable_step.
Qed.


(** ** What a step does to the blocked threads *)

(** A step leaves the state of the workers other than its own alone. *)
Lemma step_other_thread (n i : nat) (a : Cv.act) (st : wstate) (s s' : Cv.state) :
  reachable n (Cv.pool s) -> step a s = Ok s' ->
  (forall k, a <> Cv.Step i k) ->
  threads_ (Cv.pool s) !! i = Some (Some st) ->
  threads_ (Cv.pool s') !! i = Some (Some st).
Proof.
  intros R H Ha Hi. apply step_pool in H as [->|(b & Hb & Hab)]; [done|].
  eapply exec_other_thread; try done.
  intros ->. destruct Hab as [k ->]. by eapply Ha.
Qed.

(** A step changes [running_] only in the destructor's lines 57-60, which
    unblock every worker. *)
Lemma step_running (a : Cv.act) (s s' : Cv.state) :
  step a s = Ok s' ->
  running_ (Cv.pool s') = running_ (Cv.pool s)
  \/ (running_ (Cv.pool s') = false /\ Cv.asleep s' = ∅).
Proof.
  intros H.
  assert (Hstop : a = Cv.Stop ->
    running_ (Cv.pool s') = false /\ Cv.asleep s' = ∅).
  { intros ->. cv_unfold H. split; [|done]. by eapply exec_stop. }
  destruct a; try (by right; apply Hstop); left;
    (apply step_pool in H as [->|(b & Hb & Hab)]; [done|]);
    (apply exec_running in Hb; [done|]); by intros ->.
Qed.


Lemma act_is_step (a : Cv.act) (i : nat) :
  (exists k, a = Cv.Step i k) \/ (forall k, a <> Cv.Step i k).
Proof.
  destruct a as [| |w|j|c|k| | | | |j k|j|k]; try (by right).
  destruct (decide (j = i)) as [->|Hne]; [left; by exists k|right].
  intros k' H. by simplify_eq.
Qed.

(** A worker becomes blocked only by its own step, in its wait, when it
    finds [running_] true and the queue empty. *)
Lemma step_asleep (a : Cv.act) (s s' : Cv.state) (i : nat) :
  step a s = Ok s' -> i ∈ Cv.asleep s' ->
  i ∈ Cv.asleep s
  \/ (exists k, a = Cv.Step i k) /\ Cv.pool s' = Cv.pool s /\
     threads_ (Cv.pool s) !! i = Some (Some Waiting) /\
     running_ (Cv.pool s) = true /\ work_queue_ (Cv.pool s) = [].
Proof.
  intros H Hi. destruct a as [| |w|j|c|k| | | | |j k|j|k]; cv_unfold H;
    try (by left);
    try (left; by apply elem_of_difference in Hi as [? _]);
    try (by apply elem_of_empty in Hi).
  apply elem_of_union in Hi as [Hi|Hi]; [by left|].
  apply elem_of_singleton in Hi as ->. right.
  match goal with E : _ && _ = true |- _ =>
    apply andb_true_iff in E as [Er Eq]; apply bool_decide_eq_true in Eq end.
  repeat split; try done. by exists k.
Qed.

(** A blocked worker takes no step. *)
Lemma step_awake (i k : nat) (s s' : Cv.state) :
  step (Cv.Step i k) s = Ok s' ->
  (forall j, j ∈ Cv.asleep s -> threads_ (Cv.pool s) !! j = Some (Some Waiting)) ->
  i ∉ Cv.asleep s.
Proof.
  intros H Hall Hi. specialize (Hall i Hi).
  simpl in H. unfold Cv.worker in H. rewrite Hall in H.
  by destruct (decide (i ∈ Cv.asleep s)).
Qed.

Lemma exec_frame_flags (b : action) (p p' : ThreadPool) :
  exec b p = Ok p' ->
  (forall i, b <> Worker i) -> (forall w, b <> Submit w) -> b <> DtorStop ->
  work_queue_ p' = work_queue_ p /\ running_ p' = running_ p /\
  work_complete_ p' = work_complete_ p.
Proof.
  intros H Hw Hs Hd. split; [|split].
  - apply exec_queue in H as [(? & _)|[(w & ? & _)|(i & w & ? & _)]];
      [done|by destruct (Hs w)|by destruct (Hw i)].
  - by eapply exec_running.
  - apply exec_complete in H as [?|[(w & ? & _)|(i & ? & _)]];
      [done|by destruct (Hs w)|by destruct (Hw i)].
Qed.

Lemma existsb_blocked_false (l : list Cv.waiter) (x : Cv.waiter) :
  existsb Cv.blocked l = false -> x ∈ l -> Cv.notified x = true.
Proof.
  intros H Hx. induction Hx as [x l|x y l Hx IH]; simpl in H;
    apply orb_false_iff in H as [H1 H2]; [|by apply IH].
  unfold Cv.blocked in H1. by destruct (Cv.notified x).
Qed.

Lemma elem_of_insert_inv {A} (l : list A) (k : nat) (x y : A) :
  x ∈ <[k := y]> l -> x = y \/ x ∈ l.
Proof.
  intros H. apply list_elem_of_lookup in H as [j Hj].
  apply list_lookup_insert_Some in Hj as [(-> & -> & _)|[_ Hj]]; [by left|].
  right. by eapply list_elem_of_lookup_2.
Qed.

Lemma elem_of_delete_inv {A} (l : list A) (k : nat) (x : A) :
  x ∈ delete k l -> x ∈ l.
Proof.
  revert k. induction l as [|a l IH]; intros k H.
  - by destruct k.
  - destruct k as [|k]; simpl in H.
    + by apply list_elem_of_further.
    + apply elem_of_cons in H as [->|H]; [apply list_elem_of_here|].
      apply list_elem_of_further. by eapply IH.
Qed.

(** Steps other than those of DoWorkWithID, of the workers and of the
    destructor's lines 57-60 leave the queue and the flags alone and block
    no worker. *)
Lemma step_quiet (a : Cv.act) (s s' : Cv.state) :
  step a s = Ok s' ->
  (forall w, a <> Cv.Push w) -> (forall i, a <> Cv.Notify i) ->
  (forall i k, a <> Cv.Step i k) -> a <> Cv.Stop ->
  work_queue_ (Cv.pool s') = work_queue_ (Cv.pool s) /\
  running_ (Cv.pool s') = running_ (Cv.pool s) /\
  work_complete_ (Cv.pool s') = work_complete_ (Cv.pool s) /\
  Cv.notifying s' = Cv.notifying s /\ Cv.asleep s' ⊆ Cv.asleep s.
Proof.
  intros H Hp Hn Hs Ht.
  assert (Hflags : work_queue_ (Cv.pool s') = work_queue_ (Cv.pool s) /\
    running_ (Cv.pool s') = running_ (Cv.pool s) /\
    work_complete_ (Cv.pool s') = work_complete_ (Cv.pool s)).
  { apply step_pool in H as Hpool. destruct Hpool as [->|(b & Hb & Hab)]; [done|].
    apply exec_frame_flags in Hb; [done|..].
    - intros i ->. destruct Hab as [k ->]. by eapply Hs.
    - intros w ->. by eapply Hp.
    - by intros ->. }
  destruct Hflags as (? & ? & ?). repeat split; try done.
  - destruct a as [| |w|j|c|k| | | | |j k|j|k];
      try (by destruct (Hp w)); try (by destruct (Hn j));
      try (by destruct (Hs j k));
      by cv_unfold H.
  - destruct a as [| |w|j|c|k| | | | |j k|j|k];
      try (by destruct (Hp w)); try (by destruct (Hn j));
      try (by destruct (Hs j k));
      cv_unfold H; try done;
      intros x Hx; by apply elem_of_difference in Hx as [? _].
Qed.

(** The step of a worker blocks it, with the queue empty, or leaves the
    blocked workers and the pending notifications as they are. *)
Lemma step_worker_frame (j k : nat) (s s' : Cv.state) :
  step (Cv.Step j k) s = Ok s' ->
  (Cv.pool s' = Cv.pool s /\ work_queue_ (Cv.pool s) = [])
  \/ (Cv.asleep s' = Cv.asleep s /\ Cv.notifying s' = Cv.notifying s /\
      exists st, threads_ (Cv.pool s) !! j = Some (Some st)).
Proof.
  intros H. cv_unfold H; try (right; by eauto).
  left. split; [done|].
  match goal with E : _ && _ = true |- _ =>
    apply andb_true_iff in E as [_ Eq]; by apply bool_decide_eq_true in Eq end.
Qed.

Lemma step_most (a : Cv.act) (s s' : Cv.state) :
  step a s = Ok s' -> (Cv.most_waiters s <= Cv.most_waiters s')%nat.
Proof.
  intros H. destruct a as [| |w|j|c|k| | | | |j k|j|k]; cv_unfold H; lia.
Qed.

(** A thread that is blocked in the wait of WaitForWork after a step was
    blocked there before, or has just found the work not complete. *)
Lemma step_blocked (a : Cv.act) (s s' : Cv.state) (x : Cv.waiter) :
  step a s = Ok s' -> x ∈ Cv.waiters s' -> Cv.notified x = false ->
  (x ∈ Cv.waiters s /\ Cv.notified x = false)
  \/ work_complete_ (Cv.pool s') = false.
Proof.
  intros H Hx Hb.
  destruct a as [| |w|j|c|k| | | | |j k|j|k]; cv_unfold H;
    try (by left);
    try (left; split; [by eapply elem_of_delete_inv|done]);
    try (apply elem_of_insert_inv in Hx as [->|Hx]; [|by left]);
    try (apply elem_of_app in Hx as [Hx|Hx]; [by left|]);
    try done; by right.
Qed.

(** When a step makes the work complete and at most one thread is in the
    wait of WaitForWork, that thread is unblocked by it. *)
Lemma step_completes (a : Cv.act) (s s' : Cv.state) (x : Cv.waiter) :
  step a s = Ok s' ->
  work_complete_ (Cv.pool s) = false -> work_complete_ (Cv.pool s') = true ->
  (length (Cv.waiters s) <= 1)%nat ->
  x ∈ Cv.waiters s' -> Cv.notified x = true.
Proof.
  intros H Hc Hc' Hlen Hx.
  apply step_pool in H as Hpool.
  destruct Hpool as [Heq|(b & Hb & Hab)]; [congruence|].
  apply exec_complete in Hb as [?|[(w & _ & ?)|(i & -> & Hi & Hcond)]];
    [congruence|congruence|].
  destruct Hab as [k ->]. simpl in H. unfold Cv.worker in H.
  rewrite Hi in H. unfold Cv.on_pool in H.
  rewrite ThreadMain_Finishing, Hcond in H. simpl in H.
  unfold Cv.notify_completed in H. simpl in H.
  destruct (existsb Cv.blocked (Cv.waiters s)) eqn:He.
  - destruct (Cv.waiters s !! k) as [y|] eqn:Hk; [|done].
    destruct (Cv.notified y) eqn:Hy; simplify_eq/=.
    destruct (Cv.waiters s) as [|y0 [|y1 l]]; simpl in *; try lia; try done.
    destruct k; simplify_eq/=.
    apply list_elem_of_singleton in Hx as ->. done.
  - simplify_eq/=. by eapply existsb_blocked_false.
Qed.

(** ** The invariant *)

Lemma CvInv_init (n : nat) : CvInv n (Cv.init n).
Proof.
  split; simpl; try done.
  intros _ x Hx. by apply elem_of_nil in Hx.
Qed.

Lemma CvInv_step (n : nat) (a : Cv.act) (s s' : Cv.state) :
  reachable n (Cv.pool s) -> CvInv n s -> step a s = Ok s' -> CvInv n s'.
Proof.
  intros R [Hasleep Hstopped Hwake Hmost Hsingle] H.
  pose proof (reachable_Inv n _ R) as I.
  pose proof (inv_size n _ I) as Hsize.
  assert (Hlt : forall i, i ∈ Cv.asleep s -> (i < n)%nat).
  { intros i Hi. apply Hasleep, lookup_lt_Some in Hi. lia. }
  split.
  - (* cv_asleep *)
    intros i Hi.
    destruct (step_asleep a s s' i H Hi) as [Hi0|(_ & -> & Hw & _)]; [|done].
    destruct (act_is_step a i) as [[k ->]|Ha].
    + by destruct (step_awake i k s s' H Hasleep).
    + eapply step_other_thread; eauto.
  - (* cv_stopped *)
    intros Hr. destruct (step_running a s s' H) as [Hr'|[_ ?]]; [|done].
    rewrite Hr' in Hr. specialize (Hstopped Hr).
    apply elem_of_equiv_empty_L. intros i Hi.
    destruct (step_asleep a s s' i H Hi) as [Hi0|(_ & _ & _ & Hr0 & _)];
      [|congruence].
    rewrite Hstopped in Hi0. by apply elem_of_empty in Hi0.
  - (* cv_wake *)
    intros Hn Hr' Hq'.
    assert (Hquiet : (forall w, a <> Cv.Push w) -> (forall i, a <> Cv.Notify i) ->
      (forall i k, a <> Cv.Step i k) -> a <> Cv.Stop ->
      (0 < Cv.notifying s')%nat \/ exists i, (i < n)%nat /\ i ∉ Cv.asleep s').
    { intros Hp Hno Hs Ht.
      destruct (step_quiet a s s' H Hp Hno Hs Ht) as (Eq & Er & _ & En & Ea).
      rewrite Eq in Hq'. rewrite Er in Hr'. rewrite En.
      destruct (Hwake Hn Hr' Hq') as [?|(i & ? & ?)]; [by left|right].
      exists i. split; [done|]. intros Hi. by apply Ea in Hi. }
    destruct a as [| |w|j|c|k| | | | |j k|j|k]; try (by apply Hquiet).
    + (* Push *) left. cv_unfold H. lia.
    + (* Notify *)
      cv_unfold H.
      * right. exists O. split; [done|].
        match goal with E : Cv.asleep s = ∅ |- _ => rewrite E end.
        apply not_elem_of_empty.
      * right. exists j. split; [by apply Hlt|].
        intros Hj. apply elem_of_difference in Hj as [_ Hj].
        apply Hj. by apply elem_of_singleton.
    + (* Stop *)
      destruct (step_running _ s s' H) as [Hr0|[Hr0 _]]; [|congruence].
      cv_unfold H.
      match goal with E : exec DtorStop _ = _ |- _ => apply exec_stop in E end.
      congruence.
    + (* Step *)
      pose proof (step_awake j k s s' H Hasleep) as Hj.
      destruct (step_worker_frame j k s s' H) as [[Ep Eq]|(Ea & En & st & Hst)].
      * rewrite Ep in Hq'. done.
      * right. exists j. rewrite Ea. split; [|done].
        apply lookup_lt_Some in Hst. lia.
  - (* cv_most *)
    destruct a as [| |w|j|c|k| | | | |j k|j|k]; cv_unfold H; lia.
  - (* cv_single *)
    intros Hm x Hx Hb.
    pose proof (step_most a s s' H) as Hmono.
    destruct (step_blocked a s s' x H Hx Hb) as [[Hx0 _]|?]; [|done].
    assert (Hc : work_complete_ (Cv.pool s) = false).
    { apply (Hsingle ltac:(lia) x Hx0 Hb). }
    destruct (work_complete_ (Cv.pool s')) eqn:Hc'; [|done].
    rewrite (step_completes a s s' x H Hc Hc') in Hb; [done|lia|done].
Qed.

(** Every state of the system with blocked threads has a pool of the
    system above and the shape [CvInv]. *)
Lemma cv_reachable_Inv (n : nat) (s : Cv.state) :
  Cv.reachable initializer n s -> CvInv n s.
Proof.
  revert s. apply cv_reachable_ind; [apply CvInv_init|].
  intros a s s' R IH H. eapply CvInv_step; [|done..].
  by apply cv_reachable_pool.
Qed.


(** ** The pools of the two systems *)

Lemma steps_cons (a : Cv.act) (sched : list Cv.act) (s : Cv.state) :
  steps (a :: sched) s = bind (step a s) (steps sched).
Proof. done. Qed.

(** X10.  The system with blocked threads, notifications and spurious
    wakeups reaches exactly the pools that the system above
    reaches: what it adds changes when a thread goes on, never what a step
    does to the members.  So whatever was shown of the reachable pools
    holds with the condition variables spelled out; in particular
    [work_complete_] is true exactly when the queue is empty and no worker
    is active. *)
Theorem blocking_reaches_the_same_pools (n : nat) (p : ThreadPool) :
  reachable n p <-> exists s, Cv.reachable initializer n s /\ Cv.pool s = p.
Proof.
  split.
  - revert p.
    cut (forall p, reachable n p -> exists s,
           Cv.reachable initializer n s /\ Cv.pool s = p /\
           Cv.asleep s = ∅ /\ Cv.waiters s = [] /\ Cv.notifying s = O).
    { intros Hall p R. destruct (Hall p R) as (s & ? & ? & _). by exists s. }
    apply reachable_ind.
    { exists (Cv.init n). repeat split; try done. by exists []. }
    intros a p p' _ (s & Rs & <- & Ha & Hw & Hn) H.
    destruct a.
    + exists (Cv.set_pool p' s). repeat split; try done.
      eapply (cv_reachable_step n Cv.Spawn); [done|].
      simpl. unfold Cv.on_pool. by rewrite H.
    + exists (Cv.set_pool p' s). repeat split; try done.
      eapply (cv_reachable_step n Cv.Resize); [done|].
      simpl. unfold Cv.on_pool. by rewrite H.
    + exists (Cv.set_pool p' s). repeat split; try done.
      apply (cv_reachable_steps n [Cv.Push w; Cv.Notify 0] s); [done|].
      rewrite steps_cons. simpl step. unfold Cv.on_pool. rewrite H. simpl.
      rewrite Hn. simpl. unfold Cv.notify_work. simpl. rewrite Ha.
      rewrite decide_True by done. simpl. by destruct s; simplify_eq/=.
    + exists (Cv.set_pool p' s). repeat split; try done.
      eapply (cv_reachable_step n (Cv.Enter checkForErrors)); [done|].
      apply exec_wait_inv in H as Hc. destruct Hc as [Hcall Hc].
      simpl. rewrite Hcall. unfold Cv.wait_completed. rewrite Hc. simpl.
      unfold Cv.on_pool. by rewrite H.
    + exists (Cv.set_pool p' s). repeat split; try done.
      eapply (cv_reachable_step n Cv.DtorEnter); [done|].
      apply exec_dtorwait_inv in H as Hc. destruct Hc as [Hcall Hc].
      simpl. rewrite Hcall, Hw. simpl. unfold Cv.wait_completed. rewrite Hc.
      simpl. unfold Cv.on_pool. by rewrite H.
    + exists (Cv.set_asleep ∅ (Cv.set_pool p' s)). repeat split; try done.
      eapply (cv_reachable_step n Cv.Stop); [done|].
      simpl. unfold Cv.on_pool. by rewrite H.
    + exists (Cv.set_pool p' s). repeat split; try done.
      eapply (cv_reachable_step n Cv.Join); [done|].
      simpl. unfold Cv.on_pool. by rewrite H.
    + exists (Cv.set_pool p' s). repeat split; try done.
      eapply (cv_reachable_step n Cv.Release); [done|].
      simpl. unfold Cv.on_pool. by rewrite H.
    + exists (Cv.set_pool p' s). repeat split; try done.
      eapply (cv_reachable_step n (Cv.Step thread_id 0)); [done|].
      apply exec_worker_inv in H as (st & Hi & H).
      simpl. unfold Cv.worker. rewrite Hi.
      destruct st; unfold Cv.on_pool; try (by rewrite H).
      * rewrite decide_False by (rewrite Ha; apply not_elem_of_empty).
        rewrite (ThreadMain_Waiting_ok _ _ _ H). by rewrite H.
      * rewrite H. simpl. unfold Cv.notify_completed. simpl. rewrite Hw. simpl.
        by destruct (_ && _).
  - intros (s & Rs & <-). by apply cv_reachable_pool.
Qed.


(** ** Blocked workers and queued work *)

Local Abbreviation queued_while_running := (queued_while_running initializer).

(** X11.  No worker sleeps through queued work.  A worker is blocked in
    [condition_.wait] only in its wait and only while [running_] is true;
    and while [running_] is true and an item is queued, either a caller of
    DoWorkWithID is still about to call [notify_one], or some worker is
    not blocked: a thread that has been started, has not returned, and
    will evaluate the predicate of its wait with the lock held before it
    can block.  This holds whatever the order of the steps, with
    [notify_one] called after the lock is released and however spurious
    wakeups fall. *)
Theorem no_worker_sleeps_through_work (n : nat) (s : Cv.state) :
  Cv.reachable initializer n s ->
  (forall i, i ∈ Cv.asleep s ->
     threads_ (Cv.pool s) !! i = Some (Some Waiting) /\
     running_ (Cv.pool s) = true) /\
  ((0 < n)%nat -> running_ (Cv.pool s) = true ->
   work_queue_ (Cv.pool s) <> [] ->
   (0 < Cv.notifying s)%nat
   \/ exists i st, (i ∉ Cv.asleep s) /\
        threads_ (Cv.pool s) !! i = Some (Some st) /\ st <> Terminated).
Proof.
  intros Rs. pose proof (cv_reachable_pool n s Rs) as R.
  destruct (cv_reachable_Inv n s Rs) as [Hasleep Hstopped Hwake _ _].
  pose proof (reachable_Inv n _ R) as I.
  split.
  - intros i Hi. split; [by apply Hasleep|].
    destruct (running_ (Cv.pool s)) eqn:Hr; [done|].
    rewrite (Hstopped eq_refl) in Hi. by apply elem_of_empty in Hi.
  - intros Hn Hr Hq.
    destruct (Hwake Hn Hr Hq) as [?|(i & Hi & Hni)]; [by left|right].
    pose proof (inv_spawned n _ I i) as Hsp. unfold started in Hsp.
    destruct Hsp as [st Hst].
    { pose proof (inv_size n _ I).
      by destruct (queued_while_running n _ R Hr Hq) as [-> | ->]; lia. }
    exists i, st. repeat split; try done.
    intros ->. apply (inv_term n _ I) in Hst. congruence.
Qed.

(** ** The wait for completion *)

(** X12.  As long as never more than one thread at a time has been inside
    the wait of WaitForWork (the destructor's call of line 55 included),
    no notification of [completed_] is lost: a thread is blocked in that
    wait only while [work_complete_] is false, that is, while an item is
    queued or a worker holds one. *)
Theorem single_waiter_sees_completion (n : nat) (s : Cv.state) (x : Cv.waiter) :
  Cv.reachable initializer n s -> (Cv.most_waiters s <= 1)%nat ->
  x ∈ Cv.waiters s -> Cv.notified x = false ->
  work_complete_ (Cv.pool s) = false /\
  (work_queue_ (Cv.pool s) <> [] \/ active_threads_ (Cv.pool s) <> 0).
Proof.
  intros Rs Hm Hx Hb. pose proof (cv_reachable_pool n s Rs) as R.
  pose proof (cv_single n s (cv_reachable_Inv n s Rs) Hm x Hx Hb) as Hc.
  split; [done|].
  destruct (work_queue_ (Cv.pool s)) eqn:Hq; [right|by left].
  intros Ha. assert (work_complete_ (Cv.pool s) = true); [|congruence].
  apply (complete_iff n _ R). by rewrite Hq.
Qed.

(** ** Progress without spurious wakeups *)

Lemma existsb_blocked_true (l : list Cv.waiter) :
  existsb Cv.blocked l = true ->
  exists k x, l !! k = Some x /\ Cv.notified x = false.
Proof.
  induction l as [|y l IH]; simpl; [done|].
  destruct (Cv.blocked y) eqn:Hy; simpl.
  - intros _. exists O, y. split; [done|].
    unfold Cv.blocked in Hy. by destruct (Cv.notified y).
  - intros H. destruct (IH H) as (k & x & ? & ?). by exists (S k), x.
Qed.

(** A worker that is not blocked takes the step of ThreadMain, with a
    suitable choice of the thread it unblocks if it notifies. *)
Lemma lift_worker (i : nat) (st : wstate) (s : Cv.state) (p' : ThreadPool) :
  threads_ (Cv.pool s) !! i = Some (Some st) -> i ∉ Cv.asleep s ->
  ThreadMain i st (Cv.pool s) = Ok p' ->
  exists k s',
    step (Cv.Step i k) s = Ok s' /\ Cv.pool s' = p' /\
    Cv.notifying s' = Cv.notifying s /\ Cv.asleep s' = Cv.asleep s /\
    Cv.who <$> Cv.waiters s' = Cv.who <$> Cv.waiters s /\
    ((length (Cv.waiters s) <= Cv.most_waiters s)%nat ->
     Cv.most_waiters s' = Cv.most_waiters s).
Proof.
  intros Hi Hni H. simpl. unfold Cv.worker. rewrite Hi.
  destruct st; unfold Cv.on_pool;
    try (rewrite H; by exists O, (Cv.set_pool p' s)).
  - rewrite decide_False by done.
    rewrite (ThreadMain_Waiting_ok _ _ _ H), H. by exists O, (Cv.set_pool p' s).
  - rewrite H. simpl.
    destruct (_ && _); [|by exists O, (Cv.set_pool p' s)].
    unfold Cv.notify_completed. simpl.
    destruct (existsb Cv.blocked (Cv.waiters s)) eqn:He;
      [|by exists O, (Cv.set_pool p' s)].
    destruct (existsb_blocked_true _ He) as (k & x & Hk & Hx).
    exists k. rewrite Hk, Hx. eexists. split; [done|]. simpl.
    repeat split; try done.
    + rewrite list_fmap_insert. simpl. apply list_insert_id.
      by rewrite list_lookup_fmap, Hk.
    + rewrite length_insert. lia.
Qed.

(** In a live pool whose work is not complete, with no notification
    pending, some worker that is not blocked can take a step. *)
Lemma awake_worker_can_step (n : nat) (s : Cv.state) :
  Cv.reachable initializer n s -> (0 < n)%nat ->
  owner (Cv.pool s) = Alive -> work_complete_ (Cv.pool s) = false ->
  Cv.notifying s = O ->
  exists i st p',
    threads_ (Cv.pool s) !! i = Some (Some st) /\ (i ∉ Cv.asleep s) /\
    ThreadMain i st (Cv.pool s) = Ok p'.
Proof.
  intros Rs Hn Ho Hc Hno. pose proof (cv_reachable_pool n s Rs) as R.
  destruct (cv_reachable_Inv n s Rs) as [Hasleep _ Hwake _ _].
  pose proof (reachable_Inv n _ R) as I.
  pose proof (inv_running n _ I) as Hr. rewrite Ho in Hr.
  pose proof (inv_complete n _ I) as Hcomplete. rewrite Hc in Hcomplete.
  destruct (decide (count busy (threads_ (Cv.pool s)) = O)) as [Hidle|Hbusy].
  - assert (Hq : work_queue_ (Cv.pool s) <> []).
    { intros Hq. rewrite Hq, (inv_active n _ I), Hidle in Hcomplete. done. }
    destruct (Hwake Hn Hr Hq) as [?|(i & Hi & Hni)]; [lia|].
    pose proof (inv_spawned n _ I i) as Hsp. unfold started in Hsp.
    rewrite Ho, (inv_size n _ I) in Hsp. destruct (Hsp Hi) as [st Hst].
    destruct (worker_can_step n i st _ R Ho Hst) as [p' Hp']; [by right|].
    by exists i, st, p'.
  - destruct (count_pos busy (threads_ (Cv.pool s))) as (i & t & Hi & Ht); [lia|].
    destruct t as [st|]; [|done].
    destruct (worker_can_step n i st _ R Ho Hi) as [p' Hp']; [by left|].
    exists i, st, p'. repeat split; try done.
    intros Hin. apply Hasleep in Hin. rewrite Hin in Hi. by simplify_eq.
Qed.

(** From a live pool with at least one worker, steps of the workers and
    the pending notifications alone complete the work, and leave the
    threads in the wait of WaitForWork where they are. *)
Lemma work_drains (n : nat) (s : Cv.state) :
  Cv.reachable initializer n s -> (0 < n)%nat -> owner (Cv.pool s) = Alive ->
  exists sched s',
    forallb Cv.internal sched = true /\ steps sched s = Ok s' /\
    work_complete_ (Cv.pool s') = true /\ Cv.notifying s' = O /\
    owner (Cv.pool s') = Alive /\
    submitted (history (Cv.pool s')) = submitted (history (Cv.pool s)) /\
    Cv.who <$> Cv.waiters s' = Cv.who <$> Cv.waiters s /\
    Cv.most_waiters s' = Cv.most_waiters s /\
    ((Cv.most_waiters s <= 1)%nat ->
     forall x, x ∈ Cv.waiters s' -> Cv.notified x = true).
Proof.
  intros Rs Hn.
  remember (pending_effort (Cv.pool s) + Cv.notifying s)%nat as m eqn:Hm.
  revert s Hm Rs. induction m as [m IH] using lt_wf_ind. intros s -> Rs Ho.
  pose proof (cv_reachable_Inv n s Rs) as Is.
  pose proof (cv_most n s Is) as Hmost.
  assert (Hnext : forall a s1, step a s = Ok s1 -> Cv.internal a = true ->
    (pending_effort (Cv.pool s1) + Cv.notifying s1
     < pending_effort (Cv.pool s) + Cv.notifying s)%nat ->
    owner (Cv.pool s1) = Alive ->
    submitted (history (Cv.pool s1)) = submitted (history (Cv.pool s)) ->
    Cv.who <$> Cv.waiters s1 = Cv.who <$> Cv.waiters s ->
    Cv.most_waiters s1 = Cv.most_waiters s ->
    exists sched s',
      forallb Cv.internal sched = true /\ steps sched s = Ok s' /\
      work_complete_ (Cv.pool s') = true /\ Cv.notifying s' = O /\
      owner (Cv.pool s') = Alive /\
      submitted (history (Cv.pool s')) = submitted (history (Cv.pool s)) /\
      Cv.who <$> Cv.waiters s' = Cv.who <$> Cv.waiters s /\
      Cv.most_waiters s' = Cv.most_waiters s /\
      ((Cv.most_waiters s <= 1)%nat ->
       forall x, x ∈ Cv.waiters s' -> Cv.notified x = true)).
  { intros a s1 Hstep Hint Hlt Ho1 Hs1 Hwho1 Hm1.
    destruct (IH _ Hlt s1 eq_refl (cv_reachable_step n a s s1 Rs Hstep) Ho1)
      as (sched & s' & Hall & Hrun & Hc & Hno & Ho' & Hs' & Hwho' & Hm' & Hw).
    exists (a :: sched), s'. rewrite steps_cons, Hstep. simpl.
    rewrite Hint, Hall. repeat split; try done; try congruence.
    rewrite <- Hm1. done. }
  destruct (Cv.notifying s) as [|m] eqn:Hno.
  - destruct (work_complete_ (Cv.pool s)) eqn:Hc.
    + exists [], s. repeat split; try done.
      intros Hm x Hx. destruct (Cv.notified x) eqn:Hb; [done|].
      pose proof (cv_single n s Is Hm x Hx Hb). congruence.
    + destruct (awake_worker_can_step n s Rs Hn Ho Hc Hno)
        as (i & st & p' & Hi & Hni & Hp').
      destruct (lift_worker i st s p' Hi Hni Hp')
        as (k & s1 & Hstep & Hp1 & Hn1 & _ & Hwho1 & Hm1).
      pose proof (cv_reachable_pool n s Rs) as R.
      pose proof (inv_running n _ (reachable_Inv n _ R)) as Hr.
      rewrite Ho in Hr.
      assert (E : exec (Worker i) (Cv.pool s) = Ok p')
        by (by erewrite exec_worker).
      apply (Hnext (Cv.Step i k) s1); try done.
      * rewrite Hp1, Hn1, Hno.
        pose proof (worker_step_decreases n i _ _ R Hr E). lia.
      * rewrite Hp1. apply ThreadMain_frame in Hp' as (-> & _). done.
      * rewrite Hp1. apply (exec_frame initializer) in E as [-> _]; done.
      * by apply Hm1.
  - destruct (decide (Cv.asleep s = ∅)) as [He|He].
    + apply (Hnext (Cv.Notify 0) (Cv.set_notifying m s)); try done.
      * simpl. rewrite Hno. unfold Cv.notify_work. simpl.
        by rewrite decide_True.
      * simpl. lia.
    + apply set_choose_L in He as [i Hi].
      apply (Hnext (Cv.Notify i)
               (Cv.set_asleep (Cv.asleep s ∖ {[i]}) (Cv.set_notifying m s)));
        try done.
      * simpl. rewrite Hno. unfold Cv.notify_work. simpl.
        rewrite decide_False by (intros E; rewrite E in Hi;
                                 by apply elem_of_empty in Hi).
        by rewrite decide_True.
      * simpl. lia.
Qed.

(** X13.  Every queued item gets run without any spurious wakeup.  From
    every state of a live pool with at least one worker, a schedule that
    consists of steps of the workers and of the pending calls of
    [notify_one] only (no further call of the pool, no spurious wakeup)
    leads to a state in which the work is complete and no notification is
    pending; nothing is submitted on the way.  If at most one thread at a
    time was in the wait of WaitForWork, that thread is unblocked in the
    state reached. *)
Theorem work_completes_without_spurious_wakeups (n : nat) (s : Cv.state) :
  Cv.reachable initializer n s -> (0 < n)%nat -> owner (Cv.pool s) = Alive ->
  exists sched s',
    forallb Cv.internal sched = true /\ steps sched s = Ok s' /\
    work_complete_ (Cv.pool s') = true /\ Cv.notifying s' = O /\
    owner (Cv.pool s') = Alive /\
    submitted (history (Cv.pool s')) = submitted (history (Cv.pool s)) /\
    ((Cv.most_waiters s <= 1)%nat ->
     forall x, x ∈ Cv.waiters s' -> Cv.notified x = true).
Proof.
  intros Rs Hn Ho.
  destruct (work_drains n s Rs Hn Ho)
    as (sched & s' & Hall & Hrun & Hc & Hno & Ho' & Hs' & _ & _ & Hw).
  exists sched, s'. repeat split; done.
Qed.


(** ** The destructor *)

Lemma steps_app_ok (s1 s2 : list Cv.act) (s q : Cv.state) :
  steps s1 s = Ok q -> steps (s1 ++ s2) s = steps s2 q.
Proof. intros H. by rewrite steps_app, H. Qed.

Lemma own_not_push (a : Cv.act) : Cv.own a = true -> Cv.is_push a = false.
Proof. by destruct a. Qed.

Lemma internal_own (a : Cv.act) : Cv.internal a = true -> Cv.own a = true.
Proof. by destruct a. Qed.

Lemma forallb_internal_own (sched : list Cv.act) :
  forallb Cv.internal sched = true -> forallb Cv.own sched = true.
Proof.
  induction sched as [|a sched IH]; simpl; [done|].
  intros H. apply andb_true_iff in H as [Ha Hs].
  by rewrite (internal_own a Ha), IH.
Qed.

(** Steps other than the first half of DoWorkWithID submit nothing. *)
Lemma cv_steps_frame (sched : list Cv.act) (s s' : Cv.state) :
  forallb Cv.own sched = true -> steps sched s = Ok s' ->
  submitted (history (Cv.pool s')) = submitted (history (Cv.pool s)) /\
  late_submits (Cv.pool s') = late_submits (Cv.pool s).
Proof.
  revert s. induction sched as [|a sched IH]; intros s Hall H; simpl in *.
  - by simplify_eq.
  - apply andb_true_iff in Hall as [Ha Hall].
    destruct (step a s) as [s1| |] eqn:E; simplify_eq/=.
    destruct (IH s1 Hall H) as [-> ->].
    apply step_pool in E as [->|(b & Hb & Hab)]; [done|].
    apply (exec_frame initializer) in Hb; [done|].
    intros w ->. rewrite Hab in Ha. done.
Qed.

(** Once [running_] is false and no worker holds an item, the workers
    return from ThreadMain by steps of their own. *)
Lemma cv_wind_down (n k : nat) (s : Cv.state) :
  Cv.reachable initializer n s -> owner (Cv.pool s) = Joining k ->
  active_threads_ (Cv.pool s) = 0 ->
  exists sched s',
    forallb Cv.own sched = true /\ steps sched s = Ok s' /\
    owner (Cv.pool s') = Joining k /\
    forall j, (j < n)%nat -> threads_ (Cv.pool s') !! j = Some (Some Terminated).
Proof.
  remember (total exit_effort (threads_ (Cv.pool s))) as m eqn:Hm.
  revert s Hm. induction m as [m IH] using lt_wf_ind. intros s -> Rs Ho Ha.
  pose proof (cv_reachable_pool n s Rs) as R.
  pose proof (reachable_Inv n _ R) as I.
  destruct (decide (total exit_effort (threads_ (Cv.pool s)) = O)) as [Hz|Hnz].
  - exists [], s. repeat split; try done. intros j Hj.
    pose proof (inv_spawned n _ I j) as Hsp. unfold started in Hsp.
    rewrite Ho, (inv_size n _ I) in Hsp. destruct (Hsp Hj) as [st Hst].
    pose proof (total_zero exit_effort _ _ _ Hz Hst) as He.
    assert (Hidle : count busy (threads_ (Cv.pool s)) = O).
    { pose proof (inv_active n _ I). lia. }
    pose proof (count_zero busy _ _ _ Hidle Hst) as Hb.
    by destruct st.
  - destruct (wind_down_step initializer n k _ R Ho Ha) as (i & p1 & E & Ha1 & Hlt);
      [lia|].
    apply exec_worker_inv in E as (st & Hi & E).
    assert (Hni : i ∉ Cv.asleep s).
    { pose proof (inv_running n _ I) as Hr. rewrite Ho in Hr.
      rewrite (cv_stopped n s (cv_reachable_Inv n s Rs) Hr).
      apply not_elem_of_empty. }
    destruct (lift_worker i st s p1 Hi Hni E) as (k' & s1 & Hstep & Hp1 & _).
    subst p1.
    destruct (IH _ Hlt s1 eq_refl (cv_reachable_step n _ s s1 Rs Hstep))
      as (sched & s' & Hall & Hrun & Ho' & Hterm); [|done|].
    { apply ThreadMain_frame in E as (-> & _). done. }
    exists (Cv.Step i k' :: sched), s'. rewrite steps_cons, Hstep. simpl.
    by rewrite Hall.
Qed.

Lemma set_pool_twice (p q : ThreadPool) (s : Cv.state) :
  Cv.set_pool q (Cv.set_pool p s) = Cv.set_pool q s.
Proof. done. Qed.

(** The join loop and the release, as in the system above. *)
Lemma lift_joins (d : nat) (s : Cv.state) (q : ThreadPool) :
  run (replicate d DtorJoin ++ [DtorRelease]) (Cv.pool s) = Ok q ->
  steps (replicate d Cv.Join ++ [Cv.Release]) s = Ok (Cv.set_pool q s).
Proof.
  revert s. induction d as [|d IH]; intros s H.
  - change (replicate 0 DtorJoin ++ [DtorRelease]) with [DtorRelease] in H.
    rewrite (run_cons initializer) in H.
    destruct (exec DtorRelease (Cv.pool s)) as [p1| |] eqn:E; simplify_eq/=.
    unfold Cv.on_pool. by rewrite E.
  - change (replicate (S d) DtorJoin ++ [DtorRelease])
      with (DtorJoin :: (replicate d DtorJoin ++ [DtorRelease])) in H.
    rewrite (run_cons initializer) in H.
    destruct (exec DtorJoin (Cv.pool s)) as [p1| |] eqn:E; simplify_eq/=.
    unfold Cv.on_pool. rewrite E. simpl.
    by rewrite (IH (Cv.set_pool p1 s) H).
Qed.

(** From a live pool with at least one worker on which no other thread
    waits, the destructor, the workers and the pending notifications run
    the destructor to its end. *)
Lemma destructor_runs (n : nat) (s : Cv.state) :
  Cv.reachable initializer n s -> (0 < n)%nat -> owner (Cv.pool s) = Alive ->
  Cv.waiters s = [] -> (Cv.most_waiters s <= 1)%nat ->
  exists sched s',
    forallb Cv.own sched = true /\ steps sched s = Ok s' /\
    owner (Cv.pool s') = Destroyed /\ Cv.asleep s' = ∅ /\
    (dequeued (history (Cv.pool s'))).*2 = submitted (history (Cv.pool s)) /\
    executed (history (Cv.pool s')) ≡ₚ dequeued (history (Cv.pool s')).
Proof.
  intros Rs Hn Ho Hw Hm.
  (* the destructor's wait returns *)
  assert (exists sched1 s3,
    forallb Cv.own sched1 = true /\ steps sched1 s = Ok s3 /\
    owner (Cv.pool s3) = Stopping /\ active_threads_ (Cv.pool s3) = 0)
    as (sched1 & s3 & Hown1 & Hrun1 & Ho3 & Ha3).
  { assert (Hret : forall s2, Cv.reachable initializer n s2 ->
      owner (Cv.pool s2) = Alive -> work_complete_ (Cv.pool s2) = true ->
      exists p3, exec DtorWait (Cv.pool s2) = Ok p3 /\
        owner p3 = Stopping /\ active_threads_ p3 = 0).
    { intros s2 Rs2 Ho2 Hc2.
      pose proof (cv_reachable_pool n s2 Rs2) as R2.
      apply (complete_iff n _ R2) in Hc2 as Hidle. destruct Hidle as [_ Ha2].
      destruct (dtor_wait_returns _ Ho2 Hc2) as (p3 & E & ? & ?).
      exists p3. repeat split; try done. congruence. }
    destruct (work_complete_ (Cv.pool s)) eqn:Hc.
    - destruct (Hret s Rs Ho Hc) as (p3 & E & Ho3 & Ha3).
      exists [Cv.DtorEnter], (Cv.set_pool p3 s).
      repeat split; try done.
      simpl. rewrite Ho, Hw. simpl. unfold Cv.wait_completed. rewrite Hc.
      simpl. unfold Cv.on_pool. by rewrite E.
    - set (s0 := Cv.set_waiters [Cv.mkWaiter Cv.Destructor false] s).
      assert (E0 : step Cv.DtorEnter s = Ok s0).
      { simpl. rewrite Ho, Hw. simpl. unfold Cv.wait_completed.
        by rewrite Hc, Hw. }
      assert (Rs0 : Cv.reachable initializer n s0)
        by by eapply cv_reachable_step.
      destruct (work_drains n s0 Rs0 Hn Ho)
        as (sched & s2 & Hall & Hrun & Hc2 & _ & Ho2 & _ & Hwho & _ & Hnot).
      assert (Rs2 : Cv.reachable initializer n s2)
        by by eapply cv_reachable_steps.
      destruct (Hret s2 Rs2 Ho2 Hc2) as (p3 & E & Ho3 & Ha3).
      assert (Hrun0 : steps (Cv.DtorEnter :: sched) s = Ok s2)
        by (by rewrite steps_cons, E0).
      simpl in Hwho.
      destruct (Cv.waiters s2) as [|x [|y l]] eqn:Hw2; try done.
      injection Hwho as Hwho.
      assert (Hx : Cv.notified x = true).
      { apply Hnot; [simpl; lia|]. apply list_elem_of_here. }
      exists ((Cv.DtorEnter :: sched) ++ [Cv.Resume 0]),
        (Cv.set_pool p3 (Cv.set_waiters [] s2)).
      repeat split; try done.
      + rewrite forallb_app. simpl. by rewrite (forallb_internal_own _ Hall).
      + rewrite (steps_app_ok _ _ _ _ Hrun0).
        simpl. rewrite Hw2. simpl. rewrite Hx, Hc2, Hwho.
        simpl. unfold Cv.on_pool. simpl. by rewrite E. }
  assert (Rs3 : Cv.reachable initializer n s3) by by eapply cv_reachable_steps.
  (* it stops the pool *)
  destruct (dtor_stops _ Ho3) as (p4 & E4 & Ho4 & Ha4).
  set (s4 := Cv.set_asleep ∅ (Cv.set_pool p4 s3)).
  assert (Hrun4 : step Cv.Stop s3 = Ok s4).
  { simpl. unfold Cv.on_pool. by rewrite E4. }
  assert (Rs4 : Cv.reachable initializer n s4) by by eapply cv_reachable_step.
  (* the workers return *)
  destruct (cv_wind_down n 0 s4 Rs4 Ho4) as (sched5 & s5 & Hown5 & Hrun5 & Ho5 & Hterm);
    [simpl; congruence|].
  assert (Rs5 : Cv.reachable initializer n s5) by by eapply cv_reachable_steps.
  pose proof (cv_reachable_pool n s5 Rs5) as R5.
  (* and are joined *)
  destruct (join_all initializer n n 0 (Cv.pool s5)
              (inv_size n _ (reachable_Inv n _ R5)) Ho5 eq_refl Hterm)
    as (q6 & Hrun6 & Ho6 & _).
  apply lift_joins in Hrun6.
  set (sched := sched1 ++ [Cv.Stop] ++ sched5
                ++ replicate n Cv.Join ++ [Cv.Release]).
  assert (Hown : forallb Cv.own sched = true).
  { unfold sched. rewrite !forallb_app, Hown1, Hown5. simpl.
    rewrite andb_true_r. clear. by induction n. }
  assert (Hrun : steps sched s = Ok (Cv.set_pool q6 s5)).
  { unfold sched. rewrite (steps_app_ok _ _ _ _ Hrun1).
    change ([Cv.Stop] ++ sched5 ++ replicate n Cv.Join ++ [Cv.Release])
      with (Cv.Stop :: (sched5 ++ replicate n Cv.Join ++ [Cv.Release])).
    rewrite steps_cons, Hrun4. simpl bind.
    by rewrite (steps_app_ok _ _ _ _ Hrun5). }
  exists sched, (Cv.set_pool q6 s5).
  assert (Rs6 : Cv.reachable initializer n (Cv.set_pool q6 s5))
    by by eapply cv_reachable_steps.
  pose proof (cv_reachable_pool n _ Rs6) as R6. simpl in R6.
  pose proof (reachable_Inv n _ R6) as I6.
  destruct (cv_steps_frame sched s _ Hown Hrun) as [Hsub Hlate].
  simpl in Hsub, Hlate.
  pose proof (inv_early n _ (reachable_Inv n _ (cv_reachable_pool n s Rs))) as He.
  rewrite Ho in He.
  destruct (inv_quiet n _ I6) as [Hq6 Ha6]; [congruence|by rewrite Ho6|].
  destruct (drained_all_run initializer n q6 R6 Hq6 Ha6) as (Hfifo & Hexec & _).
  repeat split; try done.
  - simpl. pose proof (inv_running n _ I6) as Hr. rewrite Ho6 in Hr.
    apply (cv_stopped n _ (cv_reachable_Inv n _ Rs6) Hr).
  - simpl. congruence.
Qed.

(** X14.  The destructor needs no spurious wakeup and loses no item.  From
    every state of a live pool with at least one worker in which no thread
    is in the wait of WaitForWork and never more than one was, the steps of
    the destructor, of the workers and of the pending notifications, with
    no call from outside and no spurious wakeup, lead to the end of the
    destructor: its WaitForWork(false) is unblocked by the worker that
    completes the work, [notify_all] unblocks every worker, each of them
    returns and is joined.  Every item submitted has then been popped in
    order and called. *)
Theorem destructor_completes_without_spurious_wakeups (n : nat) (s : Cv.state) :
  Cv.reachable initializer n s -> (0 < n)%nat -> owner (Cv.pool s) = Alive ->
  Cv.waiters s = [] -> (Cv.most_waiters s <= 1)%nat ->
  exists sched s',
    forallb Cv.own sched = true /\ steps sched s = Ok s' /\
    owner (Cv.pool s') = Destroyed /\ Cv.asleep s' = ∅ /\
    (dequeued (history (Cv.pool s'))).*2 = submitted (history (Cv.pool s)) /\
    executed (history (Cv.pool s')) ≡ₚ dequeued (history (Cv.pool s')).
Proof.
  intros Rs Hn Ho Hw Hm.
  destruct (destructor_runs n s Rs Hn Ho Hw Hm)
    as (sched & s' & Hown & Hrun & Ho' & Ha' & Hd & He).
  exists sched, s'. repeat split; done.
Qed.

(** ** Steps, seen from the system above *)

(** What a step does to the pool: nothing, or the step of the system
    above that the source has at that place. *)
Lemma step_base (a : Cv.act) (s s' : Cv.state) :
  step a s = Ok s' ->
  Cv.pool s' = Cv.pool s
  \/ exists b, exec b (Cv.pool s) = Ok (Cv.pool s') /\
       match a with
       | Cv.Spawn => b = CtorSpawn
       | Cv.Resize => b = CtorResize
       | Cv.Push w => b = Submit w
       | Cv.Enter c => b = Wait c
       | Cv.Resume k =>
           exists x, Cv.waiters s !! k = Some x /\ Cv.notified x = true /\
             b = match Cv.who x with
                 | Cv.Destructor => DtorWait
                 | Cv.Caller c => Wait c
                 end
       | Cv.DtorEnter => b = DtorWait
       | Cv.Stop => b = DtorStop
       | Cv.Join => b = DtorJoin
       | Cv.Release => b = DtorRelease
       | Cv.Step i _ => b = Worker i
       | _ => False
       end.
Proof.
  intros H. destruct a as [| |w|j|c|k| | | | |i k|j|k]; cv_unfold H;
    try (by left);
    try (right; eexists; split; [eassumption|]; done);
    try (right; eexists; split; [eassumption|]; eexists;
         repeat split; [done|]; by match goal with E : Cv.who _ = _ |- _ =>
           rewrite E end);
    right; by_worker i.
Qed.

(** The step of a worker blocks it, in its wait, with [running_] true and
    the queue empty, or is its step in the system above. *)
Lemma step_worker_pool (i k : nat) (s s' : Cv.state) :
  step (Cv.Step i k) s = Ok s' ->
  (Cv.pool s' = Cv.pool s /\ Cv.asleep s' = Cv.asleep s ∪ {[i]} /\
   (i ∉ Cv.asleep s) /\ Cv.notifying s' = Cv.notifying s /\
   threads_ (Cv.pool s) !! i = Some (Some Waiting) /\
   running_ (Cv.pool s) = true)
  \/ (exec (Worker i) (Cv.pool s) = Ok (Cv.pool s') /\
      Cv.asleep s' = Cv.asleep s /\ Cv.notifying s' = Cv.notifying s).
Proof.
  intros H. cv_unfold H;
    try (right; split; [|done]; erewrite exec_worker by done;
         rewrite ?ThreadMain_Finishing;
         repeat match goal with E : (_ && _) = _ |- _ => rewrite E end;
         first [done | reflexivity]).
  left.
  match goal with E : _ && _ = true |- _ =>
    apply andb_true_iff in E as [Er _] end.
  repeat split; done.
Qed.

(** ** A bound on the steps left *)

(** The blocked workers are workers of the pool. *)
Lemma asleep_below (n : nat) (s : Cv.state) :
  Cv.reachable initializer n s -> Cv.asleep s ⊆ set_seq 0 n.
Proof.
  intros Rs i Hi. apply elem_of_set_seq.
  apply (cv_asleep n s (cv_reachable_Inv n s Rs)), lookup_lt_Some in Hi.
  rewrite (inv_size n _ (reachable_Inv n _ (cv_reachable_pool n s Rs))) in Hi.
  lia.
Qed.

Lemma awake_room (n i : nat) (s : Cv.state) :
  Cv.reachable initializer n s -> (i < n)%nat -> i ∉ Cv.asleep s ->
  (base.size (Cv.asleep s) < n)%nat.
Proof.
  intros Rs Hi Hni.
  assert (Hsub : Cv.asleep s ∪ {[i]} ⊆ set_seq 0 n).
  { intros j Hj. apply elem_of_union in Hj as [Hj|Hj].
    - by apply (asleep_below n s Rs).
    - apply elem_of_singleton in Hj as ->. apply elem_of_set_seq. lia. }
  apply subseteq_size in Hsub.
  rewrite size_union, size_singleton, size_set_seq in Hsub; [lia|].
  intros j Hj Hj'. apply elem_of_singleton in Hj' as ->. done.
Qed.

(** While [running_] is true, every step of a worker and every call of
    [notify_one] that is pending uses up some of the steps left. *)
Lemma internal_step_decreases (n : nat) (a : Cv.act) (s s' : Cv.state) :
  Cv.reachable initializer n s -> running_ (Cv.pool s) = true ->
  Cv.internal a = true -> step a s = Ok s' ->
  (Cv.steps_left n s' < Cv.steps_left n s)%nat.
Proof.
  intros Rs Hr Ha H. pose proof (cv_reachable_pool n s Rs) as R.
  unfold Cv.steps_left.
  destruct a as [| |w|j|c|k| | | | |i k|j|k]; try done.
  - (* notify_one *)
    cv_unfold H; simpl; try lia.
    assert (Hsub : ({[j]} : gset nat) ⊆ Cv.asleep s).
    { intros x Hx. by apply elem_of_singleton in Hx as ->. }
    rewrite (size_difference _ _ Hsub), size_singleton. lia.
  - (* a worker *)
    destruct (step_worker_pool i k s s' H)
      as [(-> & -> & Hni & -> & Hi & _)|(E & -> & ->)].
    + assert (Hlt : (i < n)%nat).
      { apply lookup_lt_Some in Hi.
        by rewrite (inv_size n _ (reachable_Inv n _ R)) in Hi. }
      pose proof (awake_room n i s Rs Hlt Hni).
      rewrite size_union, size_singleton; [lia|].
      intros x Hx Hx'. apply elem_of_singleton in Hx' as ->. done.
    + pose proof (worker_step_decreases n i _ _ R Hr E). lia.
Qed.

(** Such a step leaves [running_] and the owner's phase alone. *)
Lemma internal_step_frame (a : Cv.act) (s s' : Cv.state) :
  Cv.internal a = true -> step a s = Ok s' ->
  running_ (Cv.pool s') = running_ (Cv.pool s) /\
  owner (Cv.pool s') = owner (Cv.pool s) /\
  submitted (history (Cv.pool s')) = submitted (history (Cv.pool s)).
Proof.
  intros Ha H.
  destruct (step_base a s s' H) as [->|(b & Hb & Hab)]; [done|].
  destruct a as [| |w|j|c|k| | | | |i k|j|k]; try done. subst b.
  pose proof (exec_frame initializer (Worker i) _ _ ltac:(by intros w) Hb) as [Hs _].
  apply exec_worker_inv in Hb as (st & _ & Hb).
  apply ThreadMain_frame in Hb as (? & _ & ?). done.
Qed.

(** So the workers and the pending notifications take at most
    [Cv.steps_left] steps while nothing else happens. *)
Lemma internal_run_bounded (n : nat) (sched : list Cv.act) (s s' : Cv.state) :
  Cv.reachable initializer n s -> running_ (Cv.pool s) = true ->
  forallb Cv.internal sched = true -> steps sched s = Ok s' ->
  (length sched + Cv.steps_left n s' <= Cv.steps_left n s)%nat.
Proof.
  revert s. induction sched as [|a sched IH]; intros s Rs Hr Hall H;
    simpl in *; [by simplify_eq|].
  apply andb_true_iff in Hall as [Ha Hall].
  destruct (step a s) as [s1| |] eqn:E; simplify_eq/=.
  pose proof (internal_step_decreases n a s s1 Rs Hr Ha E).
  destruct (internal_step_frame a s s1 Ha E) as (Hr1 & _).
  pose proof (IH s1 (cv_reachable_step n a s s1 Rs E) ltac:(congruence) Hall H).
  lia.
Qed.

(** In a live pool whose work is not complete some worker can take a step
    or a call of [notify_one] is pending. *)
Lemma internal_step_enabled (n : nat) (s : Cv.state) :
  Cv.reachable initializer n s -> (0 < n)%nat ->
  owner (Cv.pool s) = Alive -> work_complete_ (Cv.pool s) = false ->
  exists a s', Cv.internal a = true /\ step a s = Ok s'.
Proof.
  intros Rs Hn Ho Hc.
  destruct (Cv.notifying s) as [|m] eqn:Hno.
  - destruct (awake_worker_can_step n s Rs Hn Ho Hc Hno)
      as (i & st & p' & Hi & Hni & Hp').
    destruct (lift_worker i st s p' Hi Hni Hp') as (k & s1 & Hstep & _).
    by exists (Cv.Step i k), s1.
  - destruct (decide (Cv.asleep s = ∅)) as [He|He].
    + exists (Cv.Notify 0), (Cv.set_notifying m s). split; [done|].
      simpl. rewrite Hno. unfold Cv.notify_work. simpl.
      by rewrite decide_True.
    + apply set_choose_L in He as [i Hi].
      exists (Cv.Notify i),
        (Cv.set_asleep (Cv.asleep s ∖ {[i]}) (Cv.set_notifying m s)).
      split; [done|].
      simpl. rewrite Hno. unfold Cv.notify_work. simpl.
      rewrite decide_False by (intros E; rewrite E in Hi;
                               by apply elem_of_empty in Hi).
      by rewrite decide_True.
Qed.



(** ** The queue and the history, step by step *)

(** A step leaves the queue alone, or is the first half of a DoWorkWithID,
    which pushes at the back, or is the step of a worker that is in its
    wait and not blocked, which pops the head and alone holds that item. *)
Lemma step_queue (n : nat) (a : Cv.act) (s s' : Cv.state) :
  Cv.reachable initializer n s -> step a s = Ok s' ->
  (work_queue_ (Cv.pool s') = work_queue_ (Cv.pool s) /\
   dequeued (history (Cv.pool s')) = dequeued (history (Cv.pool s)))
  \/ (exists w, a = Cv.Push w /\
        work_queue_ (Cv.pool s') = work_queue_ (Cv.pool s) ++ [w] /\
        dequeued (history (Cv.pool s')) = dequeued (history (Cv.pool s)))
  \/ (exists i k w, a = Cv.Step i k /\ (i ∉ Cv.asleep s) /\
        threads_ (Cv.pool s) !! i = Some (Some Waiting) /\
        work_queue_ (Cv.pool s) = w :: work_queue_ (Cv.pool s') /\
        threads_ (Cv.pool s') !! i = Some (Some (Executing w)) /\
        dequeued (history (Cv.pool s'))
        = dequeued (history (Cv.pool s)) ++ [(i, w)]).
Proof.
  intros Rs H.
  destruct (step_base a s s' H) as [->|(b & Hb & Hab)]; [by left|].
  apply exec_queue in Hb
    as [(? & ? & _)|[(w & -> & ? & ? & _)|(i & w & -> & ? & ? & ? & _ & ? & _)]].
  - by left.
  - right. left. exists w.
    destruct a as [| |w'|j|c|k| | | | |i k|j|k]; try done;
      [by simplify_eq|by destruct Hab as (x & _ & _ & Hx); destruct (Cv.who x)].
  - right. right.
    destruct a as [| |w'|j|c|k| | | | |i' k|j|k]; try done;
      [by destruct Hab as (x & _ & _ & Hx); destruct (Cv.who x)|].
    assert (i' = i) as -> by congruence.
    exists i, k, w. repeat split; try done.
    apply (step_awake i k s s' H).
    apply (cv_asleep n s (cv_reachable_Inv n s Rs)).
Qed.

(** Steps only add to the history. *)
Lemma steps_history (sched : list Cv.act) (s s' : Cv.state) :
  steps sched s = Ok s' ->
  exists h, history (Cv.pool s') = history (Cv.pool s) ++ h.
Proof.
  revert s. induction sched as [|a sched IH]; intros s H; simpl in H.
  - simplify_eq. exists []. by rewrite app_nil_r.
  - destruct (step a s) as [s1| |] eqn:E; simplify_eq/=.
    apply IH in H as [h2 E2].
    apply step_pool in E as [<-|(b & Hb & _)]; [by exists h2|].
    apply (exec_history initializer) in Hb as [h1 E1].
    exists (h1 ++ h2). by rewrite E2, E1, app_assoc.
Qed.

(** ** The destructor *)




(** ** The work queue is first-in first-out *)

(** C4.  In every state the items popped so far, in the order of their
    pops, followed by the queue, are the items submitted so far, in the
    order of their submissions.  A step changes the queue only by the push
    at the back in DoWorkWithID, or by one pop of the head in the step of a
    worker that is in its wait and not blocked, which alone then holds the
    item.  Every item popped has been called by the worker that popped it
    or is still held by it, so none is called twice or by another worker,
    and no later step takes a pop or a call back.  Whenever the work is
    complete, every item submitted so far has been popped, called and
    finished exactly once.  While [running_] is true the workers and the
    pending notifications get there: in a live pool whose work is not
    complete one of them can take a step, every such step uses up one of
    the steps that are left, and so a schedule of such steps alone
    completes the work.  An item pushed after the destructor's wait has
    returned need not be run: a destroyed pool has called and finished
    what it has popped, the items it has called and the items left in its
    queue are the items submitted, and its queue holds at most as many
    items as were pushed after that wait. *)
Theorem items_dequeued_in_order_and_run_once (n : nat) (s : Cv.state) :
  Cv.reachable initializer n s ->
  (dequeued (history (Cv.pool s))).*2 ++ work_queue_ (Cv.pool s)
  = submitted (history (Cv.pool s)) /\
  dequeued (history (Cv.pool s))
  ≡ₚ executed (history (Cv.pool s)) ++ in_flight 0 (threads_ (Cv.pool s)) /\
  (forall a s', step a s = Ok s' ->
     work_queue_ (Cv.pool s') = work_queue_ (Cv.pool s)
     \/ (exists w, a = Cv.Push w /\
           work_queue_ (Cv.pool s') = work_queue_ (Cv.pool s) ++ [w])
     \/ (exists i k w, a = Cv.Step i k /\ (i ∉ Cv.asleep s) /\
           threads_ (Cv.pool s) !! i = Some (Some Waiting) /\
           work_queue_ (Cv.pool s) = w :: work_queue_ (Cv.pool s') /\
           threads_ (Cv.pool s') !! i = Some (Some (Executing w)) /\
           dequeued (history (Cv.pool s'))
           = dequeued (history (Cv.pool s)) ++ [(i, w)])) /\
  (forall sched s', steps sched s = Ok s' ->
     exists d e,
       dequeued (history (Cv.pool s')) = dequeued (history (Cv.pool s)) ++ d /\
       executed (history (Cv.pool s')) = executed (history (Cv.pool s)) ++ e) /\
  (work_complete_ (Cv.pool s) = true ->
     (dequeued (history (Cv.pool s))).*2 = submitted (history (Cv.pool s)) /\
     executed (history (Cv.pool s)) ≡ₚ dequeued (history (Cv.pool s)) /\
     length (finished (history (Cv.pool s)))
     = length (submitted (history (Cv.pool s)))) /\
  ((0 < n)%nat -> owner (Cv.pool s) = Alive ->
   work_complete_ (Cv.pool s) = false ->
     exists a s', Cv.internal a = true /\ step a s = Ok s') /\
  (running_ (Cv.pool s) = true ->
   forall sched s', forallb Cv.internal sched = true ->
     steps sched s = Ok s' ->
     (length sched + Cv.steps_left n s' <= Cv.steps_left n s)%nat) /\
  ((0 < n)%nat -> owner (Cv.pool s) = Alive ->
     exists sched s',
       forallb Cv.internal sched = true /\ steps sched s = Ok s' /\
       work_complete_ (Cv.pool s') = true /\
       submitted (history (Cv.pool s')) = submitted (history (Cv.pool s))) /\
  (owner (Cv.pool s) = Destroyed ->
     executed (history (Cv.pool s)) ≡ₚ dequeued (history (Cv.pool s)) /\
     (executed (history (Cv.pool s))).*2 ++ work_queue_ (Cv.pool s)
     ≡ₚ submitted (history (Cv.pool s)) /\
     length (finished (history (Cv.pool s)))
     = length (executed (history (Cv.pool s))) /\
     (length (work_queue_ (Cv.pool s)) <= late_submits (Cv.pool s))%nat).
Proof.
  intros Rs.
  pose proof (cv_reachable_pool n s Rs) as R.
  destruct (reachable_Hist initializer n _ R) as [Gfifo Gexec _ _ _ _].
  split; [done|]. split; [done|].
  split; [|split; [|split; [|split; [|split; [|split]]]]].
  - intros a s' H.
    destruct (step_queue n a s s' Rs H)
      as [(? & _)|[(w & ? & ? & _)|(i & k & w & ? & ? & ? & ? & ? & ?)]];
      [by left|right; left; by exists w|right; right].
    by exists i, k, w.
  - intros sched s' H. apply steps_history in H as [h Hh].
    exists (dequeued h), (executed h). rewrite Hh.
    unfold dequeued, executed. by rewrite !omap_app.
  - intros Hc. apply (complete_iff n _ R) in Hc as [Hq Ha].
    by apply (drained_all_run initializer n).
  - intros Hn Ho Hc. by apply (internal_step_enabled n s).
  - intros Hr sched s' Hall H. by apply (internal_run_bounded n sched s s').
  - intros Hn Ho.
    destruct (work_drains n s Rs Hn Ho)
      as (sched & s' & Hall & Hrun & Hc & _ & _ & Hs & _).
    by exists sched, s'.
  - intros Ho.
    destruct (destroyed_all_run n _ R Ho) as (_ & He & Hf & Hl).
    repeat split; try done.
    + by rewrite He, Gfifo.
    + by rewrite Hf, He.
Qed.

(** ** Destruction *)


End Blocking.

(** * The theorems on small pools with blocked threads *)

Lemma sched_asleep_reachable :
  Cv.reachable init_ok 1 (cv_after init_ok 1 sched_asleep).
Proof. exists sched_asleep. vm_compute. reflexivity. Defined.

(** The blocked worker of the pool of one, and the notification that is
    on its way to it. *)
Lemma no_worker_sleeps_witness :
  (threads_ (Cv.pool (cv_after init_ok 1 sched_asleep)) !! 0%nat
   = Some (Some Waiting) /\
   running_ (Cv.pool (cv_after init_ok 1 sched_asleep)) = true) /\
  ((0 < Cv.notifying (cv_after init_ok 1 sched_asleep))%nat
   \/ exists i st, (i ∉ Cv.asleep (cv_after init_ok 1 sched_asleep)) /\
        threads_ (Cv.pool (cv_after init_ok 1 sched_asleep)) !! i
        = Some (Some st) /\ st <> Terminated).
Proof.
  destruct (no_worker_sleeps_through_work init_ok 1 _ sched_asleep_reachable)
    as [Ha Hw].
  split.
  - apply Ha. refine (bool_decide_unpack _ _). vm_compute. exact I.
  - apply Hw; [lia | vm_compute; reflexivity | vm_compute; discriminate].
Defined.

(** The caller blocked in WaitForWork while the item is queued. *)
Lemma single_waiter_witness :
  work_complete_ (Cv.pool (cv_after init_ok 1 sched_waiting)) = false /\
  (work_queue_ (Cv.pool (cv_after init_ok 1 sched_waiting)) <> []
   \/ active_threads_ (Cv.pool (cv_after init_ok 1 sched_waiting)) <> 0).
Proof.
  apply (single_waiter_sees_completion init_ok 1 _
           (Cv.mkWaiter (Cv.Caller true) false)).
  - exists sched_waiting. vm_compute. reflexivity.
  - vm_compute. repeat constructor.
  - vm_compute. repeat constructor.
  - reflexivity.
Defined.

(** The blocked worker is notified and runs the item. *)
Lemma work_completes_witness :
  exists sched s',
    forallb Cv.internal sched = true /\
    Cv.steps init_ok sched (cv_after init_ok 1 sched_asleep) = Ok s' /\
    work_complete_ (Cv.pool s') = true /\ Cv.notifying s' = O.
Proof.
  destruct (work_completes_without_spurious_wakeups init_ok 1 _
              sched_asleep_reachable)
    as (sched & s' & Hall & Hrun & Hc & Hno & _).
  - lia.
  - vm_compute. reflexivity.
  - exists sched, s'. repeat split; assumption.
Defined.

(** The destructor of that pool runs to its end with the item run. *)
Lemma destructor_completes_witness :
  exists sched s',
    forallb Cv.own sched = true /\
    Cv.steps init_ok sched (cv_after init_ok 1 sched_asleep) = Ok s' /\
    owner (Cv.pool s') = Destroyed /\
    (dequeued (history (Cv.pool s'))).*2 = [noop].
Proof.
  destruct (destructor_completes_without_spurious_wakeups init_ok 1 _
              sched_asleep_reachable)
    as (sched & s' & Hall & Hrun & Ho & _ & Hd & _).
  - lia.
  - vm_compute. reflexivity.
  - vm_compute. reflexivity.
  - vm_compute. repeat constructor.
  - exists sched, s'. split; [exact Hall|]. split; [exact Hrun|].
    split; [exact Ho|]. rewrite Hd. vm_compute. reflexivity.
Defined.


(** The queue and the history of the same pool, and the run of its item. *)
Lemma items_dequeued_witness :
  (dequeued (history (Cv.pool (cv_after init_ok 1 sched_asleep)))).*2
  ++ work_queue_ (Cv.pool (cv_after init_ok 1 sched_asleep))
  = submitted (history (Cv.pool (cv_after init_ok 1 sched_asleep))) /\
  (exists a s', Cv.internal a = true /\
     Cv.step init_ok a (cv_after init_ok 1 sched_asleep) = Ok s') /\
  exists sched s',
    forallb Cv.internal sched = true /\
    Cv.steps init_ok sched (cv_after init_ok 1 sched_asleep) = Ok s' /\
    work_complete_ (Cv.pool s') = true /\
    submitted (history (Cv.pool s'))
    = submitted (history (Cv.pool (cv_after init_ok 1 sched_asleep))).
Proof.
  destruct (items_dequeued_in_order_and_run_once init_ok 1 _
              sched_asleep_reachable)
    as (Hfifo & _ & _ & _ & _ & Hstep & _ & Hlive & _).
  split; [exact Hfifo|]. split.
  - apply Hstep; [lia | vm_compute; reflexivity | vm_compute; reflexivity].
  - apply Hlive; [lia | vm_compute; reflexivity].
Defined.

(** Counterexample to C4 as it stands, with its "every submitted item is
    removed and executed".  The one producer of a pool of one worker pushes
    its item after the destructor's WaitForWork(false) has returned and
    before the destructor sets [running_] to false.  The worker returns
    from ThreadMain without looking at the queue and is joined, and the
    pool is destroyed: the item was submitted, is still in the queue, was
    never popped and never called, and no thread has a step left. *)
Lemma late_item_never_run :
  reachable init_ok 1 (after init_ok 1 sched_dropped) /\
  owner (after init_ok 1 sched_dropped) = Destroyed /\
  submitted (history (after init_ok 1 sched_dropped)) = [noop] /\
  work_queue_ (after init_ok 1 sched_dropped) = [noop] /\
  dequeued (history (after init_ok 1 sched_dropped)) = [] /\
  executed (history (after init_ok 1 sched_dropped)) = [] /\
  forall a, exec init_ok a (after init_ok 1 sched_dropped) = Blocked.
Proof.
  split; [exists sched_dropped; vm_compute; reflexivity|].
  repeat (split; [vm_compute; reflexivity|]).
  intros a. destruct a as [| |w|c| | | | |[|i]]; vm_compute; reflexivity.
Qed.


(** X15.  [completed_.notify_one()] unblocks one thread only.  When two
    threads are blocked in WaitForWork and the work becomes complete, one
    of them returns and the other stays blocked: in the state reached by
    the schedule [sched_two_waiters], for every outcome of the item and
    every choice of the two arguments, the work is complete, no
    notification is pending, the second caller is still blocked in its
    wait, it cannot leave it, and no worker can take a step.  Only a
    later completion or a spurious wakeup unblocks it; so the condition of
    X12 cannot be dropped. *)
Theorem second_waiter_stays_blocked (o : Outcome) (c1 c2 : bool) :
  Cv.reachable init_ok 1 (cv_after init_ok 1 (sched_two_waiters o c1 c2)) /\
  work_complete_ (Cv.pool (cv_after init_ok 1 (sched_two_waiters o c1 c2)))
  = true /\
  Cv.notifying (cv_after init_ok 1 (sched_two_waiters o c1 c2)) = O /\
  Cv.waiters (cv_after init_ok 1 (sched_two_waiters o c1 c2))
  = [Cv.mkWaiter (Cv.Caller c2) false] /\
  Cv.most_waiters (cv_after init_ok 1 (sched_two_waiters o c1 c2)) = 2%nat /\
  Cv.step init_ok (Cv.Resume 0) (cv_after init_ok 1 (sched_two_waiters o c1 c2))
  = Blocked /\
  forall a, Cv.internal a = true ->
    Cv.step init_ok a (cv_after init_ok 1 (sched_two_waiters o c1 c2)) = Blocked.
Proof.
  split; [|split; [|split; [|split; [|split; [|split]]]]].
  - exists (sched_two_waiters o c1 c2).
    destruct o, c1, c2; vm_compute; reflexivity.
  - destruct o, c1, c2; vm_compute; reflexivity.
  - destruct o, c1, c2; vm_compute; reflexivity.
  - destruct o, c1, c2; vm_compute; reflexivity.
  - destruct o, c1, c2; vm_compute; reflexivity.
  - destruct o, c1, c2; vm_compute; reflexivity.
  - intros a Ha. destruct a as [| |w|j|c|k| | | | |[|i] k|j|k]; try discriminate;
      destruct o, c1, c2; vm_compute; reflexivity.
Qed.
